(** * Resilient email sending service: a shallow embedding

    The development follows the TypeScript sources of the service:

    - [types.ts]: the plain data (messages, results, statuses, options);
    - [utils/RateLimiter.ts]: the token bucket ([Module RateLimiter]);
    - [utils/CircuitBreaker.ts]: the breaker state machine
      ([Module CircuitBreaker]);
    - [EmailService.ts]: the orchestrator ([sendEmail] and its helpers);
    - [utils/Logger.ts]: the buffer of the logger ([Module LogBuffer]);
    - [providers/MockProviderA.ts], [providers/MockProviderB.ts]: the mock
      providers ([Module MockProviderA], [Module MockProviderB]).

    Conventions of the embedding.

    - [Date.now()] is an integer number of milliseconds ([Z]).  The other
      JavaScript numbers that can be fractional (the token count, the refill
      rate, the retry delays and the back-off factor) are given twice: as
      IEEE 754 binary64 values ([Module Double], [Module RateLimiter64],
      [backoffDelay64], [sendWithRetry64]), which is what the code computes
      with, and as exact rationals ([Q]: [Module RateLimiter],
      [backoffDelay], [sendWithRetry]), the idealisation in which the
      properties that do not depend on rounding are proved.
    - Mutable objects become explicit state passing.  The outside world is a
      record [World] holding the clock and the chronological trace of what
      the service did to its collaborators (log entries written, provider
      calls, timers armed).
    - A [Promise] that rejects (or a [throw]) is a [Completion] with
      constructor [Throw]; one that resolves is [Normal].
    - One call runs to completion before the next one starts; the background
      queue loop is a coroutine whose suspended continuation is stored in the
      service state and resumed by [processQueue_resume].

    The file has four parts: the program; the observations made on its traces
    and states, in which the properties are phrased; the set-ups of the test
    files, used as concrete instances; and the properties themselves. *)

From Stdlib Require Import ZArith QArith Qpower Qminmax Qround Qabs Lia Lqa String List Bool Sorted.
From Stdlib Require SpecFloat.
From stdpp Require Import gmap strings pretty.
Import ListNotations.

Local Close Scope Q_scope.
Local Open Scope string_scope.
Local Open Scope list_scope.
Local Open Scope Z_scope.

(** ** JavaScript numbers *)

(** A JavaScript number is an IEEE 754 binary64 value; the arithmetic
    operators round to nearest, ties to even. *)
Module Double.

Definition t : Type := SpecFloat.spec_float.

Definition prec : Z := 53.
Definition emax : Z := 1024.

Definition nan : t := SpecFloat.S754_nan.

(** The number an integer converts to. *)
Definition ofZ (n : Z) : t := SpecFloat.binary_normalize prec emax n 0 false.

Definition one : t := ofZ 1.

Definition add : t -> t -> t := SpecFloat.SFadd prec emax.
Definition sub : t -> t -> t := SpecFloat.SFsub prec emax.
Definition mul : t -> t -> t := SpecFloat.SFmul prec emax.
Definition div : t -> t -> t := SpecFloat.SFdiv prec emax.

(** [x <= y] and [x < y]: false as soon as one side is [NaN]. *)
Definition leb : t -> t -> bool := SpecFloat.SFleb.
Definition ltb : t -> t -> bool := SpecFloat.SFltb.

(** [Math.min(x, y)]: [NaN] when one argument is, and [-0] is below [+0]. *)
Definition min (x y : t) : t :=
  match x, y with
  | SpecFloat.S754_nan, _ | _, SpecFloat.S754_nan => SpecFloat.S754_nan
  | SpecFloat.S754_zero sx, SpecFloat.S754_zero sy => SpecFloat.S754_zero (sx || sy)
  | _, _ => if ltb y x then y else x
  end.

(** [Math.floor(x)] and [Math.ceil(x)]. *)
Definition floor (x : t) : t :=
  match x with
  | SpecFloat.S754_finite s m (Zneg k) =>
      match (if s then Zneg m else Zpos m) / 2 ^ Zpos k with
      | Z0 => SpecFloat.S754_zero false
      | n => ofZ n
      end
  | _ => x
  end.

Definition ceil (x : t) : t := SpecFloat.SFopp (floor (SpecFloat.SFopp x)).

(** The number that a numeric literal (or a number read from a
    configuration) of that value denotes: the double nearest to it. *)
Definition ofQ (q : Q) : t :=
  let unrounded (n : Z) : t :=
    match n with
    | Z0 => SpecFloat.S754_zero false
    | Zpos m => SpecFloat.S754_finite false m 0
    | Zneg m => SpecFloat.S754_finite true m 0
    end in
  div (unrounded (Qnum q)) (unrounded (Zpos (Qden q))).

(** The rational that a finite number is, in lowest terms.  [NaN] and the
    infinities are no rationals; they count as 0: a timer armed for one of
    them does not hold its continuation back. *)
Definition toQ (x : t) : Q :=
  match x with
  | SpecFloat.S754_finite s m e =>
      let n := if s then Zneg m else Zpos m in
      Qred (match e with
            | Zneg k => Qmake n (2 ^ k)
            | _ => inject_Z (n * 2 ^ e)
            end)
  | _ => 0%Q
  end.

End Double.

(** ** types.ts *)

Record RateLimitOptions := {
  maxRequests : Z;
  windowMs : Z
}.

Record CircuitBreakerOptions := {
  failureThreshold : Z;
  resetTimeout : Z;
  monitoringWindow : Z
}.

Record RetryOptions := {
  maxAttempts : Z;
  baseDelay : Q;
  maxDelay : Q;
  backoffFactor : Q
}.

Record EmailServiceOptions := {
  retry : RetryOptions;
  rateLimit : RateLimitOptions;
  circuitBreaker : CircuitBreakerOptions;
  enableLogging : bool
}.

(** ** utils/RateLimiter.ts, in exact arithmetic *)

(** The token bucket with its numbers as rationals: what the class computes
    when no operation rounds.  [Module RateLimiter64] below has the numbers
    of the code. *)
Module RateLimiter.

Record t := {
  tokens : Q;
  lastRefill : Z;
  maxTokens : Q;
  refillRate : Q
}.

(** [constructor(options)], run when the clock reads [now]. *)
Definition new (options : RateLimitOptions) (now : Z) : t :=
  {| tokens := inject_Z (maxRequests options);
     lastRefill := now;
     maxTokens := inject_Z (maxRequests options);
     refillRate := (inject_Z (maxRequests options) / inject_Z (windowMs options))%Q |}.

Definition refill (rl : t) (now : Z) : t :=
  let timePassed := now - lastRefill rl in
  let tokensToAdd := (inject_Z timePassed * refillRate rl)%Q in
  {| tokens := Qmin (maxTokens rl) (tokens rl + tokensToAdd)%Q;
     lastRefill := now;
     maxTokens := maxTokens rl;
     refillRate := refillRate rl |}.

Definition acquire (rl : t) (now : Z) : bool * t :=
  let rl := refill rl now in
  if Qle_bool 1 (tokens rl) then
    (true, {| tokens := (tokens rl - 1)%Q;
              lastRefill := lastRefill rl;
              maxTokens := maxTokens rl;
              refillRate := refillRate rl |})
  else (false, rl).

Definition getAvailableTokens (rl : t) (now : Z) : Z * t :=
  let rl := refill rl now in
  (Qfloor (tokens rl), rl).

Definition getRemainingTime (rl : t) : Z :=
  if Qle_bool 1 (tokens rl) then 0
  else Qceiling ((1 - tokens rl) / refillRate rl)%Q.

(** The limiter after a sequence of earlier [acquire] calls made at the
    given clock readings. *)
Definition after_calls (rl : t) (times : list Z) : t :=
  fold_left (fun rl now => snd (acquire rl now)) times rl.

End RateLimiter.

(** ** utils/RateLimiter.ts, in double precision *)

(** The same class with its numbers as the code has them.  [Date.now()]
    stays an integer: the difference of two clock readings is exact. *)
Module RateLimiter64.

Record t := {
  tokens : Double.t;
  lastRefill : Z;
  maxTokens : Double.t;
  refillRate : Double.t
}.

(** [constructor(options)], run when the clock reads [now]. *)
Definition new (options : RateLimitOptions) (now : Z) : t :=
  {| tokens := Double.ofZ (maxRequests options);
     lastRefill := now;
     maxTokens := Double.ofZ (maxRequests options);
     refillRate :=
       Double.div (Double.ofZ (maxRequests options)) (Double.ofZ (windowMs options)) |}.

Definition refill (rl : t) (now : Z) : t :=
  let timePassed := Double.ofZ (now - lastRefill rl) in
  let tokensToAdd := Double.mul timePassed (refillRate rl) in
  {| tokens := Double.min (maxTokens rl) (Double.add (tokens rl) tokensToAdd);
     lastRefill := now;
     maxTokens := maxTokens rl;
     refillRate := refillRate rl |}.

Definition acquire (rl : t) (now : Z) : bool * t :=
  let rl := refill rl now in
  if Double.leb Double.one (tokens rl) then
    (true, {| tokens := Double.sub (tokens rl) Double.one;
              lastRefill := lastRefill rl;
              maxTokens := maxTokens rl;
              refillRate := refillRate rl |})
  else (false, rl).

Definition getAvailableTokens (rl : t) (now : Z) : Double.t * t :=
  let rl := refill rl now in
  (Double.floor (tokens rl), rl).

Definition getRemainingTime (rl : t) : Double.t :=
  if Double.leb Double.one (tokens rl) then Double.ofZ 0
  else Double.ceil (Double.div (Double.sub Double.one (tokens rl)) (refillRate rl)).

(** The limiter after a sequence of earlier [acquire] calls made at the
    given clock readings. *)
Definition after_calls (rl : t) (times : list Z) : t :=
  fold_left (fun rl now => snd (acquire rl now)) times rl.

End RateLimiter64.

(** ** Exceptions and promise outcomes *)

(** What a [catch] clause can receive: an [Error] object with its message, or
    any other thrown value ([error instanceof Error] is false). *)
Inductive Thrown :=
  | JsError (message : string)
  | NonError.

Inductive Completion (A : Type) :=
  | Normal (value : A)
  | Throw (error : Thrown).
Arguments Normal {A} value.
Arguments Throw {A} error.

(** [Array.prototype.findIndex]: the index of the first element satisfying
    the predicate, or [-1] when there is none. *)
Fixpoint findIndex {A : Type} (p : A -> bool) (l : list A) : Z :=
  match l with
  | [] => -1
  | x :: l' =>
      if p x then 0
      else let i := findIndex p l' in if i <? 0 then -1 else i + 1
  end.

(** ** utils/CircuitBreaker.ts *)

Module CircuitBreaker.

Inductive State := closed | open | half_open.

Record t := {
  failures : nat;
  lastFailureTime : Z;
  state : State;
  successCount : nat;
  failureHistory : list Z;
  options : CircuitBreakerOptions
}.

Definition new (options : CircuitBreakerOptions) : t :=
  {| failures := 0; lastFailureTime := 0; state := closed;
     successCount := 0; failureHistory := []; options := options |}.

Definition set_state (s : State) (cb : t) : t :=
  {| failures := failures cb; lastFailureTime := lastFailureTime cb;
     state := s; successCount := successCount cb;
     failureHistory := failureHistory cb; options := options cb |}.

Definition set_successCount (n : nat) (cb : t) : t :=
  {| failures := failures cb; lastFailureTime := lastFailureTime cb;
     state := state cb; successCount := n;
     failureHistory := failureHistory cb; options := options cb |}.

Definition set_failureHistory (h : list Z) (cb : t) : t :=
  {| failures := failures cb; lastFailureTime := lastFailureTime cb;
     state := state cb; successCount := successCount cb;
     failureHistory := h; options := options cb |}.

Definition state_eqb (a b : State) : bool :=
  match a, b with
  | closed, closed | open, open | half_open, half_open => true
  | _, _ => false
  end.

(** [cleanupHistory()]: [splice(0, index)] when [index > 0]. *)
Definition cleanupHistory (cb : t) (now : Z) : t :=
  let cutoff := now - monitoringWindow (options cb) in
  let index := findIndex (fun time => cutoff <=? time) (failureHistory cb) in
  if 0 <? index
  then set_failureHistory (drop (Z.to_nat index) (failureHistory cb)) cb
  else cb.

Definition onSuccess (cb : t) (now : Z) : t :=
  let cb := {| failures := 0; lastFailureTime := lastFailureTime cb;
               state := state cb; successCount := successCount cb;
               failureHistory := failureHistory cb; options := options cb |} in
  let cb := cleanupHistory cb now in
  if state_eqb (state cb) half_open then
    let cb := set_successCount (S (successCount cb)) cb in
    if (2 <=? successCount cb)%nat then set_state closed cb else cb
  else cb.

(** The failures of the history that the threshold test of [onFailure]
    counts at clock reading [now]. *)
Definition recentFailures (history : list Z) (window now : Z) : list Z :=
  List.filter (fun time => now - time <? window) history.

Definition onFailure (cb : t) (now : Z) : t :=
  let cb := {| failures := S (failures cb); lastFailureTime := now;
               state := state cb; successCount := successCount cb;
               failureHistory := failureHistory cb ++ [now];
               options := options cb |} in
  let cb := cleanupHistory cb now in
  if state_eqb (state cb) half_open then set_state open cb
  else
    let recent :=
      recentFailures (failureHistory cb) (monitoringWindow (options cb)) now in
    if failureThreshold (options cb) <=? Z.of_nat (length recent)
    then set_state open cb
    else cb.

(** The first statement of [execute]: [None] stands for
    [throw new Error('Circuit breaker is OPEN')]. *)
Definition gate (cb : t) (now : Z) : option t :=
  if state_eqb (state cb) open then
    if resetTimeout (options cb) <? now - lastFailureTime cb
    then Some (set_successCount 0 (set_state half_open cb))
    else None
  else Some cb.

Section Execute.
(** The operation runs in some world [W] whose clock can be read; it
    settles as a resolved or rejected promise and leaves a new world. *)
Context {W T : Type} (clock : W -> Z).

(** The [try]/[catch] of [execute]. *)
Definition settle (cb : t) (operation : W -> Completion T * W) (w : W)
  : Completion T * t * W :=
  let '(r, w') := operation w in
  match r with
  | Normal result => (Normal result, onSuccess cb (clock w'), w')
  | Throw error => (Throw error, onFailure cb (clock w'), w')
  end.

Definition execute (cb : t) (operation : W -> Completion T * W) (w : W)
  : Completion T * t * W :=
  match gate cb (clock w) with
  | None => (Throw (JsError "Circuit breaker is OPEN"), cb, w)
  | Some cb => settle cb operation w
  end.
End Execute.

Definition getState (cb : t) : State := state cb.
Definition getFailureCount (cb : t) : nat := failures cb.

Definition reset (cb : t) : t :=
  {| failures := 0; lastFailureTime := 0; state := closed;
     successCount := 0; failureHistory := []; options := options cb |}.

End CircuitBreaker.

(** ** types.ts (continued): messages, results, statuses *)

Module EmailMessage.
Inductive Priority := low | normal | high.

Record t := {
  id : string;
  to : string;
  subject : string;
  body : string;
  priority : option Priority;
  timestamp : Z
}.
End EmailMessage.

Module EmailResult.
Record t := {
  success : bool;
  messageId : option string;
  error : option string;
  provider : string;
  timestamp : Z
}.
End EmailResult.

Module EmailStatus.
Inductive Status := pending | sending | sent | failed | queued.

Record t := {
  messageId : string;
  recipient : string;
  subject : string;
  status : Status;
  attempts : nat;
  lastAttempt : option Z;
  provider : option string;
  error : option string;
  created : Z
}.

Definition status_eqb (a b : Status) : bool :=
  match a, b with
  | pending, pending | sending, sending | sent, sent
  | failed, failed | queued, queued => true
  | _, _ => false
  end.
End EmailStatus.

(** ** The outside world *)

(** Values that appear in the context object of a log entry. *)
Inductive JsValue :=
  | VString (s : string)
  | VNumber (n : Z)
  | VBool (b : bool)
  | VStrings (l : list string)
  | VOptions (o : EmailServiceOptions).

Module Logger.
Inductive Level := info | warn | error.
End Logger.

(** What the service does to its collaborators, in the order it does it. *)
Inductive Event :=
  | EvLog (level : Logger.Level) (message : string) (context : list (string * JsValue))
  | EvSend (provider : string) (message : EmailMessage.t)
  | EvDelay (ms : Q).

Record World := {
  clock : Z;
  trace : list Event
}.

Definition emit (e : Event) (w : World) : World :=
  {| clock := clock w; trace := trace w ++ [e] |}.

(** utils/Logger.ts, [log]: the entry is written out.  The logger's own
    buffer of the last 1000 entries, read only by [getRecentLogs], is not
    part of the model. *)
Definition log (level : Logger.Level) (message : string)
    (context : list (string * JsValue)) (w : World) : World :=
  emit (EvLog level message context) w.

(** ** Providers *)

Module EmailProvider.
(** How one call settles and how long that takes. *)
Record Response := {
  outcome : Completion EmailResult.t;
  latency : Z
}.

(** A provider has a name; what a call answers may depend on everything that
    happened before (the world at the time of the call) and on the message. *)
Record t := {
  name : string;
  behaviour : World -> EmailMessage.t -> Response
}.

(** [provider.sendEmail(message)], awaited. *)
Definition sendEmail (provider : t) (message : EmailMessage.t) (w : World)
  : Completion EmailResult.t * World :=
  let response := behaviour provider w message in
  (outcome response,
   {| clock := clock w + latency response;
      trace := trace w ++ [EvSend (name provider) message] |}).
End EmailProvider.

(** ** JavaScript idioms used by the service *)

(** [value || fallback] on an optional string: [undefined] and [''] are falsy. *)
Definition or_string (value : option string) (fallback : string) : string :=
  match value with
  | Some s => if String.eqb s "" then fallback else s
  | None => fallback
  end.

(** [value || fallback] on an optional number: [undefined] and [0] are falsy. *)
Definition or_number (value : option Z) (fallback : Z) : Z :=
  match value with
  | Some n => if n =? 0 then fallback else n
  | None => fallback
  end.

(** [error instanceof Error ? error.message : 'Unknown error'] *)
Definition errorMessageOf (error : Thrown) : string :=
  match error with
  | JsError message => message
  | NonError => "Unknown error"
  end.

(** ** EmailService.ts *)

(** Where the background [processQueue] loop is suspended. *)
Inductive QueueTask :=
  | NotRunning
  | AwaitingDelay (wake : Z)
  | AwaitingAcquire (granted : bool).

Record EmailService := {
  providers : list EmailProvider.t;
  options : EmailServiceOptions;
  rateLimiter : RateLimiter.t;
  circuitBreakers : gmap string CircuitBreaker.t;
  emailStatuses : gmap string EmailStatus.t;
  sentEmails : gset string;
  emailQueue : list EmailMessage.t;
  isProcessingQueue : bool;
  queueTask : QueueTask
}.

Definition set_rateLimiter (x : RateLimiter.t) (svc : EmailService) : EmailService :=
  {| providers := providers svc; options := options svc; rateLimiter := x;
     circuitBreakers := circuitBreakers svc; emailStatuses := emailStatuses svc;
     sentEmails := sentEmails svc; emailQueue := emailQueue svc;
     isProcessingQueue := isProcessingQueue svc; queueTask := queueTask svc |}.

Definition set_circuitBreakers (x : gmap string CircuitBreaker.t) (svc : EmailService)
  : EmailService :=
  {| providers := providers svc; options := options svc; rateLimiter := rateLimiter svc;
     circuitBreakers := x; emailStatuses := emailStatuses svc;
     sentEmails := sentEmails svc; emailQueue := emailQueue svc;
     isProcessingQueue := isProcessingQueue svc; queueTask := queueTask svc |}.

Definition set_emailStatuses (x : gmap string EmailStatus.t) (svc : EmailService)
  : EmailService :=
  {| providers := providers svc; options := options svc; rateLimiter := rateLimiter svc;
     circuitBreakers := circuitBreakers svc; emailStatuses := x;
     sentEmails := sentEmails svc; emailQueue := emailQueue svc;
     isProcessingQueue := isProcessingQueue svc; queueTask := queueTask svc |}.

Definition set_sentEmails (x : gset string) (svc : EmailService) : EmailService :=
  {| providers := providers svc; options := options svc; rateLimiter := rateLimiter svc;
     circuitBreakers := circuitBreakers svc; emailStatuses := emailStatuses svc;
     sentEmails := x; emailQueue := emailQueue svc;
     isProcessingQueue := isProcessingQueue svc; queueTask := queueTask svc |}.

Definition set_emailQueue (x : list EmailMessage.t) (svc : EmailService) : EmailService :=
  {| providers := providers svc; options := options svc; rateLimiter := rateLimiter svc;
     circuitBreakers := circuitBreakers svc; emailStatuses := emailStatuses svc;
     sentEmails := sentEmails svc; emailQueue := x;
     isProcessingQueue := isProcessingQueue svc; queueTask := queueTask svc |}.

Definition set_isProcessingQueue (x : bool) (svc : EmailService) : EmailService :=
  {| providers := providers svc; options := options svc; rateLimiter := rateLimiter svc;
     circuitBreakers := circuitBreakers svc; emailStatuses := emailStatuses svc;
     sentEmails := sentEmails svc; emailQueue := emailQueue svc;
     isProcessingQueue := x; queueTask := queueTask svc |}.

Definition set_queueTask (x : QueueTask) (svc : EmailService) : EmailService :=
  {| providers := providers svc; options := options svc; rateLimiter := rateLimiter svc;
     circuitBreakers := circuitBreakers svc; emailStatuses := emailStatuses svc;
     sentEmails := sentEmails svc; emailQueue := emailQueue svc;
     isProcessingQueue := isProcessingQueue svc; queueTask := x |}.

(** [constructor(providers, options)] *)
Definition newEmailService (providers : list EmailProvider.t)
    (options : EmailServiceOptions) (w : World) : EmailService * World :=
  let svc :=
    {| providers := providers;
       options := options;
       rateLimiter := RateLimiter.new (rateLimit options) (clock w);
       circuitBreakers :=
         fold_left
           (fun breakers provider =>
              <[EmailProvider.name provider := CircuitBreaker.new (circuitBreaker options)]>
                breakers)
           providers ∅;
       emailStatuses := ∅;
       sentEmails := ∅;
       emailQueue := [];
       isProcessingQueue := false;
       queueTask := NotRunning |} in
  (svc,
   if enableLogging options
   then log Logger.info "EmailService initialized"
          [("providers", VStrings (map EmailProvider.name providers));
           ("options", VOptions options)] w
   else w).

Definition updateStatus (svc : EmailService) (messageId : string)
    (status : EmailStatus.t) : EmailService :=
  set_emailStatuses (<[messageId := status]> (emailStatuses svc)) svc.

Definition incrementAttemptCount (svc : EmailService) (messageId : string)
  : EmailService :=
  match emailStatuses svc !! messageId with
  | Some status =>
      updateStatus svc messageId
        {| EmailStatus.messageId := EmailStatus.messageId status;
           EmailStatus.recipient := EmailStatus.recipient status;
           EmailStatus.subject := EmailStatus.subject status;
           EmailStatus.status := EmailStatus.status status;
           EmailStatus.attempts := S (EmailStatus.attempts status);
           EmailStatus.lastAttempt := EmailStatus.lastAttempt status;
           EmailStatus.provider := EmailStatus.provider status;
           EmailStatus.error := EmailStatus.error status;
           EmailStatus.created := EmailStatus.created status |}
  | None => svc
  end.

(** How long a timer armed for [ms] milliseconds holds its continuation. *)
Definition timer (ms : Q) : Z := Z.max 0 (Qceiling ms).

(** [await this.delay(ms)] in a call that runs to completion. *)
Definition delay (ms : Q) (w : World) : World :=
  {| clock := clock w + timer ms; trace := trace w ++ [EvDelay ms] |}.

(** [this.providers.every(provider => ...)] of [sendEmail] and [processQueue]. *)
Definition allCircuitBreakersOpen (svc : EmailService) : bool :=
  forallb
    (fun provider =>
       match circuitBreakers svc !! EmailProvider.name provider with
       | Some circuitBreaker =>
           CircuitBreaker.state_eqb (CircuitBreaker.getState circuitBreaker)
                                    CircuitBreaker.open
       | None => false
       end)
    (providers svc).

(** [this.emailStatuses.get(id)?.attempts || 0] *)
Definition attemptsOf (svc : EmailService) (messageId : string) : nat :=
  match emailStatuses svc !! messageId with
  | Some status => EmailStatus.attempts status
  | None => 0%nat
  end.

(** [this.emailStatuses.get(id)?.created || Date.now()] *)
Definition createdOf (svc : EmailService) (messageId : string) (now : Z) : Z :=
  or_number (EmailStatus.created <$> emailStatuses svc !! messageId) now.

(** *** The background queue *)

(** The [while] loop of [processQueue], run from its head up to the first
    [await]; the continuation is left in [queueTask]. *)
Definition processQueue_loop (svc : EmailService) (w : World) : EmailService * World :=
  match emailQueue svc with
  | [] =>
      (set_queueTask NotRunning (set_isProcessingQueue false svc),
       log Logger.info "Queue processing completed" [] w)
  | _ :: _ =>
      if allCircuitBreakersOpen svc then
        let w := log Logger.info
                   "All circuit breakers still open, pausing queue processing" [] w in
        (set_queueTask (AwaitingDelay (clock w + timer 5000)) svc, emit (EvDelay 5000) w)
      else
        let '(granted, limiter) := RateLimiter.acquire (rateLimiter svc) (clock w) in
        (set_queueTask (AwaitingAcquire granted) (set_rateLimiter limiter svc), w)
  end.

(** [processQueue()], called without [await]: it runs until its first [await]. *)
Definition processQueue (svc : EmailService) (w : World) : EmailService * World :=
  if isProcessingQueue svc || (length (emailQueue svc) =? 0)%nat then (svc, w)
  else
    let svc := set_isProcessingQueue true svc in
    let w := log Logger.info "Processing queue"
               [("queueSize", VNumber (Z.of_nat (length (emailQueue svc))))] w in
    processQueue_loop svc w.

Definition addToQueue (svc : EmailService) (message : EmailMessage.t) (w : World)
  : EmailService * World :=
  let svc := set_emailQueue (emailQueue svc ++ [message]) svc in
  let svc :=
    updateStatus svc (EmailMessage.id message)
      {| EmailStatus.messageId := EmailMessage.id message;
         EmailStatus.recipient := EmailMessage.to message;
         EmailStatus.subject := EmailMessage.subject message;
         EmailStatus.status := EmailStatus.queued;
         EmailStatus.attempts := 0;
         EmailStatus.lastAttempt := None;
         EmailStatus.provider := None;
         EmailStatus.error := None;
         EmailStatus.created := clock w |} in
  let w := log Logger.info "Email added to queue"
             [("messageId", VString (EmailMessage.id message))] w in
  processQueue svc w.

(** *** Retry and fallback *)

(** The delay computed after a failed attempt (1-based) that is not the last,
    [Math.min(baseDelay * Math.pow(backoffFactor, attempt - 1), maxDelay)],
    in exact arithmetic. *)
Definition backoffDelay (r : RetryOptions) (attempt : nat) : Q :=
  Qmin (baseDelay r * backoffFactor r ^ (Z.of_nat attempt - 1))%Q (maxDelay r).

(** The same delay as the code computes it.  The three numbers of the
    options are doubles, the product is rounded, and [Math.pow] is whatever
    the platform provides: ECMAScript only asks for an approximation of the
    power, so the function is left open. *)
Definition backoffDelay64 (Math_pow : Double.t -> Double.t -> Double.t)
    (r : RetryOptions) (attempt : nat) : Double.t :=
  Double.min
    (Double.mul (Double.ofQ (baseDelay r))
       (Math_pow (Double.ofQ (backoffFactor r)) (Double.ofZ (Z.of_nat attempt - 1))))
    (Double.ofQ (maxDelay r)).

Section SendWithRetry.
(** The number of milliseconds that the delay computed after a failed
    attempt comes to. *)
Variable computeDelay : RetryOptions -> nat -> Q.
(** The provider as it answers when the service is in a given state:
    [provider.sendEmail] is code of its own and may hold a reference to the
    service, or to the status object that [incrementAttemptCount] updates in
    place. *)
Variable provider : EmailService -> EmailProvider.t.

(** The [while (attempt < maxAttempts)] loop of [sendWithRetry]: [remaining]
    is [maxAttempts - attempt], the number of iterations still allowed.  The
    breaker is the object stored under the provider's name: each use is
    written back to the map. *)
Fixpoint sendWithRetry_while (remaining attempt : nat) (svc : EmailService)
    (message : EmailMessage.t) (circuitBreaker : CircuitBreaker.t) (w : World)
  : Completion EmailResult.t * EmailService * World :=
  match remaining with
  | O =>
      (Throw (JsError ("Max attempts (" +:+ pretty (maxAttempts (retry (options svc)))
                       +:+ ") exceeded")), svc, w)
  | S remaining =>
      let attempt := S attempt in
      let svc := incrementAttemptCount svc (EmailMessage.id message) in
      let called := provider svc in
      let '(r, circuitBreaker, w) :=
        CircuitBreaker.execute clock circuitBreaker
          (EmailProvider.sendEmail called message) w in
      let svc :=
        set_circuitBreakers
          (<[EmailProvider.name called := circuitBreaker]> (circuitBreakers svc)) svc in
      match r with
      | Normal result => (Normal result, svc, w)
      | Throw error =>
          let isLastAttempt := Z.of_nat attempt =? maxAttempts (retry (options svc)) in
          let errorMessage := errorMessageOf error in
          let w := log Logger.warn "Send attempt failed"
                     [("messageId", VString (EmailMessage.id message));
                      ("provider", VString (EmailProvider.name called));
                      ("attempt", VNumber (Z.of_nat attempt));
                      ("error", VString errorMessage);
                      ("isLastAttempt", VBool isLastAttempt)] w in
          if isLastAttempt then (Throw error, svc, w)
          else
            let w := delay (computeDelay (retry (options svc)) attempt) w in
            sendWithRetry_while remaining attempt svc message circuitBreaker w
      end
  end.
End SendWithRetry.

(** [sendWithRetry] as the code runs it: the delays are doubles. *)
Definition sendWithRetry64 (Math_pow : Double.t -> Double.t -> Double.t)
    (svc : EmailService) (message : EmailMessage.t)
    (provider : EmailService -> EmailProvider.t)
    (circuitBreaker : CircuitBreaker.t) (w : World)
  : Completion EmailResult.t * EmailService * World :=
  sendWithRetry_while
    (fun r attempt => Double.toQ (backoffDelay64 Math_pow r attempt)) provider
    (Z.to_nat (maxAttempts (retry (options svc)))) 0 svc message circuitBreaker w.

(** The loop with the delays computed exactly, for a provider that does not
    look at the service. *)
Definition sendWithRetry_loop (remaining attempt : nat) (svc : EmailService)
    (message : EmailMessage.t) (provider : EmailProvider.t)
    (circuitBreaker : CircuitBreaker.t) (w : World)
  : Completion EmailResult.t * EmailService * World :=
  sendWithRetry_while backoffDelay (fun _ => provider)
    remaining attempt svc message circuitBreaker w.

Definition sendWithRetry (svc : EmailService) (message : EmailMessage.t)
    (provider : EmailProvider.t) (circuitBreaker : CircuitBreaker.t) (w : World)
  : Completion EmailResult.t * EmailService * World :=
  sendWithRetry_loop (Z.to_nat (maxAttempts (retry (options svc)))) 0
    svc message provider circuitBreaker w.

(** The [for (const provider of this.providers)] loop of
    [sendWithRetryAndFallback] over the providers still to try; [lastError]
    is the message of the [Error] held by the variable, if any. *)
Fixpoint sendWithRetryAndFallback_loop (rest : list EmailProvider.t)
    (lastError : option string) (svc : EmailService) (message : EmailMessage.t)
    (w : World) : Completion EmailResult.t * EmailService * World :=
  match rest with
  | [] =>
      let errorMessage := or_string lastError "All providers failed" in
      let w := log Logger.error "All providers failed"
                 [("messageId", VString (EmailMessage.id message));
                  ("error", VString errorMessage)] w in
      (Normal {| EmailResult.success := false;
                 EmailResult.messageId := None;
                 EmailResult.error := Some errorMessage;
                 EmailResult.provider := "none";
                 EmailResult.timestamp := clock w |}, svc, w)
  | provider :: rest =>
      match circuitBreakers svc !! EmailProvider.name provider with
      | None => sendWithRetryAndFallback_loop rest lastError svc message w
      | Some circuitBreaker =>
          let '(r, svc, w) := sendWithRetry svc message provider circuitBreaker w in
          match r with
          | Normal result =>
              let w := log Logger.info "Email sent successfully"
                         [("messageId", VString (EmailMessage.id message));
                          ("provider", VString (EmailProvider.name provider));
                          ("attempts",
                           VNumber (Z.of_nat (attemptsOf svc (EmailMessage.id message))))]
                         w in
              (Normal result, svc, w)
          | Throw error =>
              let lastError := errorMessageOf error in
              let w := log Logger.warn "Provider failed, trying next"
                         [("messageId", VString (EmailMessage.id message));
                          ("provider", VString (EmailProvider.name provider));
                          ("error", VString lastError)] w in
              sendWithRetryAndFallback_loop rest (Some lastError) svc message w
          end
      end
  end.

Definition sendWithRetryAndFallback (svc : EmailService) (message : EmailMessage.t)
    (w : World) : Completion EmailResult.t * EmailService * World :=
  sendWithRetryAndFallback_loop (providers svc) None svc message w.

(** *** The entry point *)

(** The status written after the delivery attempt of [sendEmail]. *)
Definition finalStatus (svc : EmailService) (message : EmailMessage.t)
    (status : EmailStatus.Status) (provider error : option string) (now : Z)
  : EmailStatus.t :=
  {| EmailStatus.messageId := EmailMessage.id message;
     EmailStatus.recipient := EmailMessage.to message;
     EmailStatus.subject := EmailMessage.subject message;
     EmailStatus.status := status;
     EmailStatus.attempts := attemptsOf svc (EmailMessage.id message);
     EmailStatus.lastAttempt := Some now;
     EmailStatus.provider := provider;
     EmailStatus.error := error;
     EmailStatus.created := createdOf svc (EmailMessage.id message) now |}.

(** The idempotency check of [sendEmail]: the status of a message whose
    identifier is in [sentEmails] and whose status is ['sent']. *)
Definition recordedSuccess (svc : EmailService) (messageId : string)
  : option EmailStatus.t :=
  if decide (messageId ∈ sentEmails svc) then
    match emailStatuses svc !! messageId with
    | Some status =>
        if EmailStatus.status_eqb (EmailStatus.status status) EmailStatus.sent
        then Some status else None
    | None => None
    end
  else None.

Definition sendEmail (svc : EmailService) (message : EmailMessage.t) (w : World)
  : Completion EmailResult.t * EmailService * World :=
  let messageId := EmailMessage.id message in
  (* Check for idempotency *)
  match recordedSuccess svc messageId with
  | Some status =>
      let w := log Logger.info "Email already sent (idempotency check)"
                 [("messageId", VString messageId)] w in
      (Normal {| EmailResult.success := true;
                 EmailResult.messageId := Some messageId;
                 EmailResult.error := None;
                 EmailResult.provider := or_string (EmailStatus.provider status) "unknown";
                 EmailResult.timestamp := or_number (EmailStatus.lastAttempt status) (clock w) |},
       svc, w)
  | None =>
      (* Check if all circuit breakers are open *)
      if allCircuitBreakersOpen svc then
        let w := log Logger.warn "All circuit breakers are open, queuing email"
                   [("messageId", VString messageId)] w in
        let '(svc, w) := addToQueue svc message w in
        (Normal {| EmailResult.success := false;
                   EmailResult.messageId := None;
                   EmailResult.error :=
                     Some "All providers temporarily unavailable. Email queued for retry.";
                   EmailResult.provider := "queue";
                   EmailResult.timestamp := clock w |}, svc, w)
      else
        (* Check rate limit *)
        let '(granted, limiter) := RateLimiter.acquire (rateLimiter svc) (clock w) in
        let svc := set_rateLimiter limiter svc in
        if negb granted then
          let waitTime := RateLimiter.getRemainingTime (rateLimiter svc) in
          let w := log Logger.warn "Rate limit exceeded"
                     [("messageId", VString messageId); ("waitTime", VNumber waitTime)] w in
          let '(svc, w) := addToQueue svc message w in
          (Normal {| EmailResult.success := false;
                     EmailResult.messageId := None;
                     EmailResult.error :=
                       Some ("Rate limit exceeded. Queued for processing in "
                             +:+ pretty waitTime +:+ "ms");
                     EmailResult.provider := "queue";
                     EmailResult.timestamp := clock w |}, svc, w)
        else
          (* Initialize status tracking *)
          let svc :=
            updateStatus svc messageId
              {| EmailStatus.messageId := messageId;
                 EmailStatus.recipient := EmailMessage.to message;
                 EmailStatus.subject := EmailMessage.subject message;
                 EmailStatus.status := EmailStatus.sending;
                 EmailStatus.attempts := 0;
                 EmailStatus.lastAttempt := None;
                 EmailStatus.provider := None;
                 EmailStatus.error := None;
                 EmailStatus.created := clock w |} in
          let '(r, svc, w) := sendWithRetryAndFallback svc message w in
          match r with
          | Normal result =>
              let svc :=
                if EmailResult.success result then
                  let svc := set_sentEmails ({[messageId]} ∪ sentEmails svc) svc in
                  updateStatus svc messageId
                    (finalStatus svc message EmailStatus.sent
                       (Some (EmailResult.provider result)) None (clock w))
                else
                  updateStatus svc messageId
                    (finalStatus svc message EmailStatus.failed
                       None (EmailResult.error result) (clock w)) in
              (Normal result, svc, w)
          | Throw error =>
              let errorMessage := errorMessageOf error in
              let svc :=
                updateStatus svc messageId
                  (finalStatus svc message EmailStatus.failed
                     None (Some errorMessage) (clock w)) in
              let w := log Logger.error "Email sending failed"
                         [("messageId", VString messageId);
                          ("error", VString errorMessage)] w in
              (Normal {| EmailResult.success := false;
                         EmailResult.messageId := None;
                         EmailResult.error := Some errorMessage;
                         EmailResult.provider := "none";
                         EmailResult.timestamp := clock w |}, svc, w)
          end
  end.

(** The continuation of [processQueue] after the promise it awaits settles.
    A timer that has not yet expired leaves everything as it is. *)
Definition processQueue_resume (svc : EmailService) (w : World) : EmailService * World :=
  match queueTask svc with
  | NotRunning => (svc, w)
  | AwaitingDelay wake =>
      if clock w <? wake then (svc, w) else processQueue_loop svc w
  | AwaitingAcquire true =>
      match emailQueue svc with
      | message :: rest =>
          let svc := set_emailQueue rest svc in
          let '(r, svc, w) := sendEmail svc message w in
          let w :=
            match r with
            | Normal _ => w
            | Throw error =>
                log Logger.error "Failed to send queued email"
                  [("messageId", VString (EmailMessage.id message));
                   ("error", VString (errorMessageOf error))] w
            end in
          processQueue_loop svc w
      | [] => processQueue_loop svc w
      end
  | AwaitingAcquire false =>
      let waitTime := RateLimiter.getRemainingTime (rateLimiter svc) in
      (set_queueTask (AwaitingDelay (clock w + timer (inject_Z waitTime))) svc,
       emit (EvDelay (inject_Z waitTime)) w)
  end.

Definition getEmailStatus (svc : EmailService) (messageId : string)
  : option EmailStatus.t :=
  emailStatuses svc !! messageId.

Definition resetCircuitBreakers (svc : EmailService) (w : World) : EmailService * World :=
  (set_circuitBreakers (CircuitBreaker.reset <$> circuitBreakers svc) svc,
   log Logger.info "Circuit breakers reset" [] w).

Definition clear (svc : EmailService) (w : World) : EmailService * World :=
  let svc := set_emailStatuses ∅ svc in
  let svc := set_sentEmails ∅ svc in
  let svc := set_emailQueue [] svc in
  resetCircuitBreakers svc w.

(** ** utils/Logger.ts: the buffer of the class [Logger] *)

(** [Array.prototype.slice(begin)] with an integer [begin]: a negative one
    counts from the end, and [-0] is [0]. *)
Definition slice {A : Type} (begin : Z) (l : list A) : list A :=
  let len := Z.of_nat (length l) in
  let k := if begin <? 0 then Z.max (len + begin) 0 else Z.min begin len in
  drop (Z.to_nat k) l.

(** The entries that the logger keeps in memory.  What [log] writes to the
    console is the event [EvLog] of the outside world. *)
Module LogBuffer.

Record LogEntry := {
  level : Logger.Level;
  message : string;
  timestamp : Z;
  context : option (list (string * JsValue))
}.

Record t := {
  logs : list LogEntry
}.

Definition maxLogs : Z := 1000.

Definition new : t := {| logs := [] |}.

Definition level_eqb (a b : Logger.Level) : bool :=
  match a, b with
  | Logger.info, Logger.info | Logger.warn, Logger.warn | Logger.error, Logger.error => true
  | _, _ => false
  end.

Definition log (logger : t) (level : Logger.Level) (message : string)
    (context : option (list (string * JsValue))) (now : Z) : t :=
  let entry := {| level := level; message := message; timestamp := now;
                  context := context |} in
  let logs := logs logger ++ [entry] in
  (* Keep only recent logs *)
  if maxLogs <? Z.of_nat (length logs)
  then {| logs := slice (- maxLogs) logs |}
  else {| logs := logs |}.

Definition info (logger : t) := log logger Logger.info.
Definition warn (logger : t) := log logger Logger.warn.
Definition error (logger : t) := log logger Logger.error.

Definition getLogs (logger : t) (level : option Logger.Level) : list LogEntry :=
  match level with
  | Some wanted => List.filter (fun entry => level_eqb (LogBuffer.level entry) wanted)
                     (logs logger)
  | None => logs logger
  end.

(** [getRecentLogs(count = 50)] *)
Definition getRecentLogs (logger : t) (count : option Z) : list LogEntry :=
  let count := match count with Some count => count | None => 50 end in
  slice (- count) (logs logger).

Definition clear (logger : t) : t := {| logs := [] |}.

End LogBuffer.

(** ** providers/MockProviderA.ts and providers/MockProviderB.ts *)

(** [String.prototype.includes] *)
Fixpoint includes (s sub : string) : bool :=
  if String.prefix sub s then true
  else match s with
       | EmptyString => false
       | String _ s' => includes s' sub
       end.

(** The values that the calls of [Math.random()] return during one
    [sendEmail]: for the latency, for the failure test and, rendered in base
    36 and cut to nine digits, for the message identifier. *)
Record Draws := {
  latencyDraw : Q;
  failureDraw : Q;
  idDraw : string
}.

Module MockProviderA.

Definition name : string := "Provider A".
Definition latencyMs : Q := 100.

Record t := {
  failureRate : Q
}.

Definition new : t := {| failureRate := 3 # 10 |}.

Definition sendEmail (provider : t) (draws : Draws) (message : EmailMessage.t) (w : World)
  : EmailProvider.Response :=
  (* Simulate network latency *)
  let latency := timer (latencyMs + latencyDraw draws * 200)%Q in
  let now := clock w + latency in
  {| EmailProvider.outcome :=
       (* Simulate random failures *)
       if negb (Qle_bool (failureRate provider) (failureDraw draws)) then
         Throw (JsError (name +:+ ": Network timeout or service unavailable"))
       (* Simulate specific email validation failures *)
       else if includes (EmailMessage.to message) "invalid" then
         Throw (JsError (name +:+ ": Invalid email address format"))
       else
         Normal {| EmailResult.success := true;
                   EmailResult.messageId :=
                     Some ("provider-a-" +:+ pretty now +:+ "-" +:+ idDraw draws);
                   EmailResult.error := None;
                   EmailResult.provider := name;
                   EmailResult.timestamp := now |};
     EmailProvider.latency := latency |}.

Definition setFailureRate (provider : t) (rate : Q) : t :=
  {| failureRate := Qmax 0 (Qmin 1 rate) |}.

(** The object as the service sees it, with the draws of each call. *)
Definition provider (state : t) (draws : World -> Draws) : EmailProvider.t :=
  {| EmailProvider.name := name;
     EmailProvider.behaviour := fun w message => sendEmail state (draws w) message w |}.

End MockProviderA.

Module MockProviderB.

Definition name : string := "Provider B".
Definition latencyMs : Q := 150.

Record t := {
  failureRate : Q
}.

Definition new : t := {| failureRate := 2 # 10 |}.

Definition sendEmail (provider : t) (draws : Draws) (message : EmailMessage.t) (w : World)
  : EmailProvider.Response :=
  (* Simulate higher latency than Provider A *)
  let latency := timer (latencyMs + latencyDraw draws * 300)%Q in
  let now := clock w + latency in
  {| EmailProvider.outcome :=
       (* Simulate random failures *)
       if negb (Qle_bool (failureRate provider) (failureDraw draws)) then
         Throw (JsError (name +:+ ": Rate limit exceeded or temporary service error"))
       (* Simulate different validation patterns *)
       else if includes (EmailMessage.to message) "blocked" then
         Throw (JsError (name +:+ ": Recipient blocked or domain not allowed"))
       else
         Normal {| EmailResult.success := true;
                   EmailResult.messageId :=
                     Some ("provider-b-" +:+ pretty now +:+ "-" +:+ idDraw draws);
                   EmailResult.error := None;
                   EmailResult.provider := name;
                   EmailResult.timestamp := now |};
     EmailProvider.latency := latency |}.

Definition setFailureRate (provider : t) (rate : Q) : t :=
  {| failureRate := Qmax 0 (Qmin 1 rate) |}.

Definition provider (state : t) (draws : World -> Draws) : EmailProvider.t :=
  {| EmailProvider.name := name;
     EmailProvider.behaviour := fun w message => sendEmail state (draws w) message w |}.

End MockProviderB.

(** ** EmailService.ts: the statistics *)

(** [getAllEmailStatuses()]: the values of the status map.  The source
    returns them in the order of insertion; here they come in the order of
    the identifiers. *)
Definition getAllEmailStatuses (svc : EmailService) : list EmailStatus.t :=
  snd <$> map_to_list (emailStatuses svc).

Module Statistics.
Record t := {
  total : nat;
  sent : nat;
  failed : nat;
  pending : nat;
  queued : nat;
  queueSize : nat;
  rateLimitTokens : Z;
  circuitBreakers : gmap string (CircuitBreaker.State * nat);
  recentLogs : list LogBuffer.LogEntry
}.
End Statistics.

(** [statuses.filter(s => s.status === wanted).length] *)
Definition countStatus (wanted : EmailStatus.Status) (statuses : list EmailStatus.t) : nat :=
  length (List.filter (fun s => EmailStatus.status_eqb (EmailStatus.status s) wanted) statuses).

(** [getStatistics()], called when the clock reads [now] on a service whose
    logger holds [logger]; reading the available tokens refills the
    limiter. *)
Definition getStatistics (svc : EmailService) (logger : LogBuffer.t) (now : Z)
  : Statistics.t * EmailService :=
  let statuses := getAllEmailStatuses svc in
  let circuitBreakerStates :=
    (fun cb => (CircuitBreaker.getState cb, CircuitBreaker.getFailureCount cb))
      <$> circuitBreakers svc in
  let '(tokens, limiter) := RateLimiter.getAvailableTokens (rateLimiter svc) now in
  ({| Statistics.total := length statuses;
      Statistics.sent := countStatus EmailStatus.sent statuses;
      Statistics.failed := countStatus EmailStatus.failed statuses;
      Statistics.pending := countStatus EmailStatus.pending statuses;
      Statistics.queued := countStatus EmailStatus.queued statuses;
      Statistics.queueSize := length (emailQueue svc);
      Statistics.rateLimitTokens := tokens;
      Statistics.circuitBreakers := circuitBreakerStates;
      Statistics.recentLogs := LogBuffer.getRecentLogs logger (Some 10) |},
   set_rateLimiter limiter svc).

(** * Observations on the trace and on the service state *)

(** What the trace tells about one retry sequence: the attempts logged as
    failed and the waits. *)
Inductive RetryStep :=
  | AttemptFailed (attempt : nat) (isLastAttempt : bool)
  | Waited (ms : Q).

(** The entry ['Send attempt failed'] carries the attempt number and whether
    it was the last allowed one; a timer is a wait. *)
Definition retryStep (e : Event) : option RetryStep :=
  match e with
  | EvDelay ms => Some (Waited ms)
  | EvLog Logger.warn message
      [_; _; (_, VNumber attempt); _; (_, VBool isLastAttempt)] =>
      if String.eqb message "Send attempt failed"
      then Some (AttemptFailed (Z.to_nat attempt) isLastAttempt)
      else None
  | _ => None
  end.

Definition retrySteps (events : list Event) : list RetryStep := omap retryStep events.

(** Attempts as the trace shows them: a failed one is logged by
    [sendWithRetry], a successful one by [sendWithRetryAndFallback]. *)
Definition isFailedAttempt (e : Event) : bool :=
  match e with
  | EvLog Logger.warn message _ => String.eqb message "Send attempt failed"
  | _ => false
  end.

Definition isSuccessfulAttempt (e : Event) : bool :=
  match e with
  | EvLog Logger.info message _ => String.eqb message "Email sent successfully"
  | _ => false
  end.

Definition failedAttempts (events : list Event) : nat :=
  length (List.filter isFailedAttempt events).

Definition successfulAttempts (events : list Event) : nat :=
  length (List.filter isSuccessfulAttempt events).

(** The error text logged with a failed attempt, and the most recent one. *)
Definition attemptError (e : Event) : option string :=
  match e with
  | EvLog Logger.warn message [_; _; _; (_, VString error); _] =>
      if String.eqb message "Send attempt failed" then Some error else None
  | _ => None
  end.

Definition lastAttemptError (events : list Event) : option string :=
  last (omap attemptError events).

(** The provider calls of a trace. *)
Definition isProviderCall (e : Event) : bool :=
  match e with
  | EvSend _ _ => true
  | _ => false
  end.

Definition providerCalls (events : list Event) : list Event :=
  List.filter isProviderCall events.

(** [status.attempts++], [n] times. *)
Definition addAttempts (n : nat) (status : EmailStatus.t) : EmailStatus.t :=
  {| EmailStatus.messageId := EmailStatus.messageId status;
     EmailStatus.recipient := EmailStatus.recipient status;
     EmailStatus.subject := EmailStatus.subject status;
     EmailStatus.status := EmailStatus.status status;
     EmailStatus.attempts := n + EmailStatus.attempts status;
     EmailStatus.lastAttempt := EmailStatus.lastAttempt status;
     EmailStatus.provider := EmailStatus.provider status;
     EmailStatus.error := EmailStatus.error status;
     EmailStatus.created := EmailStatus.created status |}.

(** The parts of the service that a delivery never writes. *)
Definition sameBookkeeping (a b : EmailService) : Prop :=
  providers b = providers a /\ options b = options a /\
  rateLimiter b = rateLimiter a /\ sentEmails b = sentEmails a /\
  emailQueue b = emailQueue a /\ isProcessingQueue b = isProcessingQueue a /\
  queueTask b = queueTask a.

(** The failure result built when every provider is exhausted. *)
Definition allProvidersFailed (errorMessage : string) (now : Z) : EmailResult.t :=
  {| EmailResult.success := false;
     EmailResult.messageId := None;
     EmailResult.error := Some errorMessage;
     EmailResult.provider := "none";
     EmailResult.timestamp := now |}.

(** The two gates that precede a delivery: not every breaker is open and the
    rate limiter grants a token. *)
Definition dispatches (svc : EmailService) (message : EmailMessage.t) (w : World) : Prop :=
  recordedSuccess svc (EmailMessage.id message) = None /\
  allCircuitBreakersOpen svc = false /\
  fst (RateLimiter.acquire (rateLimiter svc) (clock w)) = true.

(** Events that are neither attempts nor provider calls. *)
Definition quiet (events : list Event) : Prop :=
  failedAttempts events = 0%nat /\ successfulAttempts events = 0%nat /\
  providerCalls events = [].

(** The parts of the service that the queue machinery never writes. *)
Definition sameLedger (a b : EmailService) : Prop :=
  providers b = providers a /\ options b = options a /\
  circuitBreakers b = circuitBreakers a /\ emailStatuses b = emailStatuses a /\
  sentEmails b = sentEmails a.

(** The status that [addToQueue] writes. *)
Definition queuedStatus (message : EmailMessage.t) (now : Z) : EmailStatus.t :=
  {| EmailStatus.messageId := EmailMessage.id message;
     EmailStatus.recipient := EmailMessage.to message;
     EmailStatus.subject := EmailMessage.subject message;
     EmailStatus.status := EmailStatus.queued;
     EmailStatus.attempts := 0;
     EmailStatus.lastAttempt := None;
     EmailStatus.provider := None;
     EmailStatus.error := None;
     EmailStatus.created := now |}.

(** What can happen to a service between two observations. *)
Inductive Operation :=
  | OpSendEmail (message : EmailMessage.t)
  | OpResumeQueue
  | OpTimePasses (ms : Z)
  | OpResetCircuitBreakers
  | OpClear.

Definition perform (op : Operation) (state : EmailService * World)
  : EmailService * World :=
  let '(svc, w) := state in
  match op with
  | OpSendEmail message =>
      let '(_, svc, w) := sendEmail svc message w in (svc, w)
  | OpResumeQueue => processQueue_resume svc w
  | OpTimePasses ms => (svc, {| clock := clock w + Z.max 0 ms; trace := trace w |})
  | OpResetCircuitBreakers => resetCircuitBreakers svc w
  | OpClear => clear svc w
  end.

(** A history of the service: operations performed one after the other. *)
Definition performAll (ops : list Operation) (state : EmailService * World)
  : EmailService * World :=
  fold_left (fun state op => perform op state) ops state.

(** No provider, nothing recorded as sent, and no provider call besides those
    the trace already held when the service was built. *)
Definition nothingSent (before : list Event) (state : EmailService * World) : Prop :=
  providers (fst state) = [] /\
  sentEmails (fst state) = ∅ /\
  (forall messageId status,
     getEmailStatus (fst state) messageId = Some status ->
     EmailStatus.status status <> EmailStatus.sent) /\
  providerCalls (trace (snd state)) = providerCalls before.

(** How many times the provider of that name was called so far. *)
Definition callsTo (name : string) (w : World) : nat :=
  length (List.filter
            (fun e => match e with
                      | EvSend provider _ => String.eqb provider name
                      | _ => false
                      end)
            (trace w)).

(** The provider fails while it has been called fewer than [target] times
    and succeeds from then on. *)
Definition failsUntil (provider : EmailProvider.t) (message : EmailMessage.t)
    (target : nat) : Prop :=
  (forall w, (callsTo (EmailProvider.name provider) w < target)%nat ->
     exists error,
       EmailProvider.outcome (EmailProvider.behaviour provider w message) = Throw error) /\
  (forall w, (target <= callsTo (EmailProvider.name provider) w)%nat ->
     exists result,
       EmailProvider.outcome (EmailProvider.behaviour provider w message) = Normal result /\
       EmailResult.success result = true).

(** Calls made to a rate limiter, each with the clock reading at the call. *)
Inductive LimiterCall :=
  | CallAcquire (now : Z)
  | CallGetAvailableTokens (now : Z).

Definition callTime (call : LimiterCall) : Z :=
  match call with
  | CallAcquire now => now
  | CallGetAvailableTokens now => now
  end.

Definition limiterStep (rl : RateLimiter.t) (call : LimiterCall) : RateLimiter.t :=
  match call with
  | CallAcquire now => snd (RateLimiter.acquire rl now)
  | CallGetAvailableTokens now => snd (RateLimiter.getAvailableTokens rl now)
  end.

Definition limiterAfter (rl : RateLimiter.t) (calls : list LimiterCall) : RateLimiter.t :=
  fold_left limiterStep calls rl.

(** Clock readings that never go back, from [start] on. *)
Fixpoint inClockOrder (start : Z) (times : list Z) : Prop :=
  match times with
  | [] => True
  | time :: times => start <= time /\ inClockOrder time times
  end.

(** A limiter whose quota is between 0 and its capacity, refilling at a rate
    that is not negative. *)
Definition quotaInRange (rl : RateLimiter.t) : Prop :=
  (0 <= RateLimiter.tokens rl)%Q /\
  (RateLimiter.tokens rl <= RateLimiter.maxTokens rl)%Q /\
  (0 <= RateLimiter.refillRate rl)%Q.

(** What the status map and the set of sent identifiers say of each other: a
    message whose status is ['sent'] has its identifier in the set, and no
    status is ['pending']. *)
Definition sentIsRecorded (svc : EmailService) : Prop :=
  forall messageId status,
    getEmailStatus svc messageId = Some status ->
    (EmailStatus.status status = EmailStatus.sent -> messageId ∈ sentEmails svc) /\
    EmailStatus.status status <> EmailStatus.pending.

(** The drain loop is suspended somewhere exactly when the flag says so, and
    it is whenever the queue holds a message. *)
Definition drainFlagged (svc : EmailService) : Prop :=
  isProcessingQueue svc = true <-> queueTask svc <> NotRunning.

Definition drainPending (svc : EmailService) : Prop :=
  drainFlagged svc /\ (emailQueue svc <> [] -> isProcessingQueue svc = true).

(** A status ['queued'] under that identifier comes with a message of that
    identifier in the queue. *)
Definition queuedIsInQueue (svc : EmailService) (messageId : string) : Prop :=
  forall status,
    getEmailStatus svc messageId = Some status ->
    EmailStatus.status status = EmailStatus.queued ->
    exists message, In message (emailQueue svc) /\ EmailMessage.id message = messageId.

(** The names registered in two breaker maps are the same, each with the
    same options. *)
Definition sameGuards (a b : gmap string CircuitBreaker.t) : Prop :=
  forall name, CircuitBreaker.options <$> b !! name = CircuitBreaker.options <$> a !! name.

(** A provider that never resolves for that message, and one that always
    resolves with a success. *)
Definition rejects (provider : EmailProvider.t) (message : EmailMessage.t) : Prop :=
  forall w result,
    EmailProvider.outcome (EmailProvider.behaviour provider w message) <> Normal result.

Definition delivers (provider : EmailProvider.t) (message : EmailMessage.t) : Prop :=
  forall w, exists result,
    EmailProvider.outcome (EmailProvider.behaviour provider w message) = Normal result /\
    EmailResult.success result = true.

(** One more try, when the outcome is a result. *)
Definition resolvedTry {A : Type} (r : Completion A) : nat :=
  match r with
  | Normal _ => 1
  | Throw _ => 0
  end.

(** The service still has the providers and the options it was built with,
    and the breakers registered then, each with its options. *)
Definition guardsKept (providers0 : list EmailProvider.t) (options0 : EmailServiceOptions)
    (breakers0 : gmap string CircuitBreaker.t) (svc : EmailService) : Prop :=
  providers svc = providers0 /\ options svc = options0 /\
  sameGuards breakers0 (circuitBreakers svc).

(** The logger after the given entries were logged one after the other. *)
Definition logAll (logger : LogBuffer.t) (entries : list LogBuffer.LogEntry) : LogBuffer.t :=
  fold_left
    (fun logger entry =>
       LogBuffer.log logger (LogBuffer.level entry) (LogBuffer.message entry)
         (LogBuffer.context entry) (LogBuffer.timestamp entry))
    entries logger.

(** The last [n] elements of a list, all of them when it has fewer. *)
Definition lastN {A : Type} (n : nat) (l : list A) : list A := drop (length l - n) l.

(** [Math.random()] returns a number from 0 inclusive to 1 exclusive. *)
Definition inUnitInterval (draw : Q) : Prop := (0 <= draw)%Q /\ (draw < 1)%Q.

(** The message of the error that ends [sendWithRetry] when its loop runs
    out. *)
Definition maxAttemptsExceeded (svc : EmailService) : string :=
  "Max attempts (" +:+ pretty (maxAttempts (retry (options svc))) +:+ ") exceeded".

(** Some entry was written to the log. *)
Definition logged (events : list Event) : Prop :=
  exists level message context, In (EvLog level message context) events.

(** Operations other than the two that reset the breakers. *)
Definition withoutReset (op : Operation) : bool :=
  match op with
  | OpResetCircuitBreakers | OpClear => false
  | _ => true
  end.

(** Every breaker is open, and what follows from it: the same breakers as in
    [svc0] and no provider call since [before]. *)
Definition lockedOut (svc0 : EmailService) (before : list Event)
    (state : EmailService * World) : Prop :=
  allCircuitBreakersOpen (fst state) = true /\
  providers (fst state) = providers svc0 /\
  circuitBreakers (fst state) = circuitBreakers svc0 /\
  providerCalls (trace (snd state)) = providerCalls before.




(** The tries that the trace shows for the provider of a given name: the
    attempts logged as failed by [sendWithRetry] and the one logged as
    successful by [sendWithRetryAndFallback], both with the provider's name;
    and the calls made to it. *)
Definition isTryThrough (name : string) (e : Event) : bool :=
  match e with
  | EvLog Logger.warn message [_; (_, VString provider); _; _; _] =>
      String.eqb message "Send attempt failed" && String.eqb provider name
  | EvLog Logger.info message [_; (_, VString provider); _] =>
      String.eqb message "Email sent successfully" && String.eqb provider name
  | _ => false
  end.

Definition triesThrough (name : string) (events : list Event) : nat :=
  length (List.filter (isTryThrough name) events).

Definition isCallTo (name : string) (e : Event) : bool :=
  match e with
  | EvSend provider _ => String.eqb provider name
  | _ => false
  end.

Definition callsIn (name : string) (events : list Event) : nat :=
  length (List.filter (isCallTo name) events).

(** How many of the configured providers have that name. *)
Definition configured (name : string) (providers : list EmailProvider.t) : nat :=
  length (List.filter (fun provider => String.eqb (EmailProvider.name provider) name)
            providers).

(** * Test set-ups and runs *)

(** The limiter of RateLimiter.test.ts. *)
Definition testLimiterOptions : RateLimitOptions :=
  {| maxRequests := 5; windowMs := 1000 |}.

(** The breaker of CircuitBreaker.test.ts. *)
Definition testBreakerOptions : CircuitBreakerOptions :=
  {| failureThreshold := 3; resetTimeout := 1000; monitoringWindow := 5000 |}.

(** Operations over a world that is just the clock: they settle at once. *)
Definition failingOperation (w : Z) : Completion string * Z :=
  (Throw (JsError "Operation failed"), w).

Definition successfulOperation (w : Z) : Completion string * Z :=
  (Normal "success", w).

(** The breaker after the given operations were executed at the given clock
    readings, one after the other. *)
Definition breaker_after
    (cb : CircuitBreaker.t) (calls : list ((Z -> Completion string * Z) * Z))
  : CircuitBreaker.t :=
  fold_left
    (fun cb call => snd (fst (CircuitBreaker.execute (fun w : Z => w) cb (fst call) (snd call))))
    calls cb.


(** The breaker of the test file once three failures have opened it. *)
Definition trippedBreaker : CircuitBreaker.t :=
  breaker_after (CircuitBreaker.new testBreakerOptions)
    [(failingOperation, 10); (failingOperation, 20); (failingOperation, 30)].

(** The options and the message of EmailService.test.ts. *)
Definition testOptions : EmailServiceOptions :=
  {| retry := {| maxAttempts := 3; baseDelay := 100; maxDelay := 1000; backoffFactor := 2 |};
     rateLimit := {| maxRequests := 10; windowMs := 5000 |};
     circuitBreaker :=
       {| failureThreshold := 3; resetTimeout := 5000; monitoringWindow := 10000 |};
     enableLogging := false |}.

Definition createTestMessage (id : string) : EmailMessage.t :=
  {| EmailMessage.id := id;
     EmailMessage.to := "test@example.com";
     EmailMessage.subject := "Test Subject";
     EmailMessage.body := "Test Body";
     EmailMessage.priority := Some EmailMessage.normal;
     EmailMessage.timestamp := 0 |}.

(** A provider in the manner of the mocks: it takes 100 ms, fails its first
    [failures] calls and succeeds afterwards, reporting [reported] as the
    provider of the result. *)
Definition mockProvider (name reported : string) (failures : nat) : EmailProvider.t :=
  {| EmailProvider.name := name;
     EmailProvider.behaviour := fun w message =>
       {| EmailProvider.outcome :=
            if (callsTo name w <? failures)%nat
            then Throw (JsError (name +:+ ": Network timeout or service unavailable"))
            else Normal {| EmailResult.success := true;
                           EmailResult.messageId := Some (EmailMessage.id message);
                           EmailResult.error := None;
                           EmailResult.provider := reported;
                           EmailResult.timestamp := clock w + 100 |};
          EmailProvider.latency := 100 |} |}.

(** A world in which nothing has happened yet. *)
Definition startWorld : World := {| clock := 1000000; trace := [] |}.

(** A provider that reports the empty string as its name in the result. *)
Definition anonymousProvider : EmailProvider.t := mockProvider "Provider A" "" 0.

(** A service with that provider alone, after one message was sent. *)
Definition resendScenario : EmailService * World :=
  let '(svc, w) := newEmailService [anonymousProvider] testOptions startWorld in
  let '(_, svc, w) := sendEmail svc (createTestMessage "test-1") w in
  (svc, w).

(** A service whose only provider never fails, after one message was sent. *)
Definition sentScenario : EmailService * World :=
  let '(svc, w) :=
    newEmailService [mockProvider "Provider A" "Provider A" 0] testOptions startWorld in
  let '(_, svc, w) := sendEmail svc (createTestMessage "test-1") w in
  (svc, w).

(** The retry test of EmailService.test.ts: Provider A fails twice, then
    succeeds. *)
Definition retryScenario : EmailService * World :=
  newEmailService
    [mockProvider "Provider A" "Provider A" 2; mockProvider "Provider B" "Provider B" 0]
    testOptions startWorld.

(** A provider that always fails (a failure rate of 1 in the test file). *)
Definition failingProvider (name : string) : EmailProvider.t :=
  {| EmailProvider.name := name;
     EmailProvider.behaviour := fun _ _ =>
       {| EmailProvider.outcome :=
            Throw (JsError (name +:+ ": Network timeout or service unavailable"));
          EmailProvider.latency := 100 |} |}.

(** The fallback test in which both providers fail. *)
Definition exhaustionScenario : EmailService * World :=
  newEmailService [failingProvider "Provider A"; failingProvider "Provider B"]
    testOptions startWorld.

(** The service of [exhaustionScenario] after the first, failed submission. *)
Definition failedScenario : EmailService * World :=
  let '(_, svc, w) :=
    sendEmail (fst exhaustionScenario) (createTestMessage "test-1") (snd exhaustionScenario) in
  (svc, w).

(** A provider that resolves with [success: false], as the interface
    allows. *)
Definition decliningProvider (name : string) : EmailProvider.t :=
  {| EmailProvider.name := name;
     EmailProvider.behaviour := fun w _ =>
       {| EmailProvider.outcome :=
            Normal {| EmailResult.success := false;
                      EmailResult.messageId := None;
                      EmailResult.error := Some "Mailbox full";
                      EmailResult.provider := name;
                      EmailResult.timestamp := clock w + 100 |};
          EmailProvider.latency := 100 |} |}.

(** The fallback test: Provider A always fails, Provider B delivers. *)
Definition fallbackScenario : EmailService * World :=
  newEmailService [failingProvider "Provider A"; mockProvider "Provider B" "Provider B" 0]
    testOptions startWorld.

(** A service whose first provider declines the message. *)
Definition declinedScenario : EmailService * World :=
  newEmailService [decliningProvider "Provider A"; mockProvider "Provider B" "Provider B" 0]
    testOptions startWorld.

(** A service allowed two messages per ten seconds, after three messages
    were submitted at once, the third was queued, the drain loop computed its
    wait and six seconds passed. *)
Definition drainOptions : EmailServiceOptions :=
  {| retry := retry testOptions;
     rateLimit := {| maxRequests := 2; windowMs := 10000 |};
     circuitBreaker := circuitBreaker testOptions;
     enableLogging := false |}.

Definition drainScenario : EmailService * World :=
  performAll
    [OpSendEmail (createTestMessage "test-1"); OpSendEmail (createTestMessage "test-2");
     OpSendEmail (createTestMessage "test-3"); OpResumeQueue; OpTimePasses 6000]
    (newEmailService [mockProvider "Provider A" "Provider A" 0] drainOptions startWorld).

(** Draws that are the same at every call. *)
Definition steadyDraws (draw : Q) : World -> Draws :=
  fun _ => {| latencyDraw := draw; failureDraw := draw; idDraw := "k3x9q2m1z" |}.

(** A service configured with no attempt at all. *)
Definition noAttemptScenario : EmailService * World :=
  newEmailService [mockProvider "Provider A" "Provider A" 0]
    {| retry := {| maxAttempts := 0; baseDelay := 100; maxDelay := 1000; backoffFactor := 2 |};
       rateLimit := rateLimit testOptions;
       circuitBreaker := circuitBreaker testOptions;
       enableLogging := false |}
    startWorld.

(** A service whose breakers open at the second failure, with four attempts
    allowed per provider and a provider that always fails. *)
Definition shieldOptions : EmailServiceOptions :=
  {| retry := {| maxAttempts := 4; baseDelay := 100; maxDelay := 1000; backoffFactor := 2 |};
     rateLimit := rateLimit testOptions;
     circuitBreaker :=
       {| failureThreshold := 2; resetTimeout := 5000; monitoringWindow := 10000 |};
     enableLogging := false |}.

Definition shieldScenario : EmailService * World :=
  newEmailService [failingProvider "Provider A"] shieldOptions startWorld.

(** A [Math.pow] for the examples: the correctly rounded power of a finite
    base, for an exponent that is a non-negative integer; the examples ask
    for nothing else, and [NaN] stands for the rest. *)
Definition roundedPow (base exponent : Double.t) : Double.t :=
  let n := Double.toQ exponent in
  match exponent with
  | SpecFloat.S754_zero _ => Double.one
  | SpecFloat.S754_finite false _ _ =>
      if (Zpos (Qden n) =? 1) then
        match base with
        | SpecFloat.S754_finite s m e =>
            SpecFloat.binary_normalize Double.prec Double.emax
              ((if s then Zneg m else Zpos m) ^ Qnum n) (e * Qnum n) false
        | SpecFloat.S754_zero _ => SpecFloat.S754_zero false
        | _ => Double.nan
        end
      else Double.nan
  | _ => Double.nan
  end.



(** A provider that reads the attempt counter of the message while it is
    called, and rejects with what it read. *)
Definition countingProbe (messageId : string) : EmailService -> EmailProvider.t :=
  fun svc =>
    {| EmailProvider.name := "Probe";
       EmailProvider.behaviour := fun _ _ =>
         {| EmailProvider.outcome :=
              Throw (JsError (pretty (Z.of_nat (attemptsOf svc messageId))));
            EmailProvider.latency := 100 |} |}.

(** One retry sequence through that provider, for a message whose status has
    just been initialised. *)
Definition probeRun : Completion EmailResult.t * EmailService * World :=
  let '(svc, w) := retryScenario in
  let message := createTestMessage "test-1" in
  let svc := updateStatus svc "test-1" (queuedStatus message (clock w)) in
  sendWithRetry64 roundedPow svc message (countingProbe "test-1")
    (CircuitBreaker.new (circuitBreaker testOptions)) w.

(** Provider A always fails; Provider B fails once and then succeeds. *)
Definition handoverScenario : EmailService * World :=
  newEmailService [failingProvider "Provider A"; mockProvider "Provider B" "Provider B" 1]
    testOptions startWorld.



(** * Properties *)

(** ** Properties of the rate limiter *)

Section RateLimiter64Facts.
Import RateLimiter64.

Lemma acquire64_readonly rl now :
  maxTokens (snd (acquire rl now)) = maxTokens rl /\
  refillRate (snd (acquire rl now)) = refillRate rl.
Proof.
  unfold acquire. destruct (Double.leb Double.one (tokens (refill rl now))); split; reflexivity.
Qed.

Lemma after_calls64_readonly times : forall rl,
  maxTokens (after_calls rl times) = maxTokens rl /\
  refillRate (after_calls rl times) = refillRate rl.
Proof.
  induction times as [|now times IH]; intros rl; simpl.
  - split; reflexivity.
  - destruct (IH (snd (acquire rl now))) as [Hm Hr].
    destruct (acquire64_readonly rl now) as [Hm' Hr'].
    unfold after_calls in *. simpl. split; congruence.
Qed.

End RateLimiter64Facts.

Lemma SFcompare_refl (x : Double.t) :
  x <> Double.nan -> SpecFloat.SFcompare x x = Some Eq.
Proof.
  destruct x as [s|s| |s m e]; cbn; intros Hx; try reflexivity.
  - destruct s; reflexivity.
  - contradiction.
  - rewrite Z.compare_refl. fold (Pos.compare m m). rewrite Pos.compare_refl.
    destruct s; reflexivity.
Qed.

Lemma smaller_is_below (x y : Double.t) :
  x <> Double.nan -> Double.leb (if Double.ltb y x then y else x) x = true.
Proof.
  intros Hx. unfold Double.leb, Double.ltb, SpecFloat.SFleb, SpecFloat.SFltb.
  destruct (SpecFloat.SFcompare y x) as [[| |]|] eqn:Hcmp;
    rewrite ?Hcmp, ?SFcompare_refl by exact Hx; reflexivity.
Qed.

(** [Math.min] is not above its first argument, unless it is [NaN]. *)
Lemma Double_min_capped (x y : Double.t) :
  Double.min x y = Double.nan \/ Double.leb (Double.min x y) x = true.
Proof.
  unfold Double.min.
  destruct x as [sx|sx| |sx mx ex]; [| |left; reflexivity|];
    (destruct y as [sy|sy| |sy my ey]; [| |left; reflexivity|]); right;
    try (apply smaller_is_below; discriminate).
  reflexivity.
Qed.

(** C5, as the code has it.  On a limiter built by the constructor and used
    any number of times, [acquire] first refills: the quota becomes the old
    quota plus the elapsed time times [maxRequests / windowMs], capped at
    [maxRequests] by [Math.min]; the quotient, the product and the sum are
    those of double arithmetic, each rounded.  If the refilled quota is at
    least 1 the call is admitted and the quota is the refilled one minus 1;
    otherwise the call is denied and the quota is exactly the refilled one.
    In both cases the refill time is updated, so the refill has happened even
    on a denied call. *)
Theorem acquire_refills_then_decides
    (options : RateLimitOptions) (t0 : Z) (earlier : list Z) (now : Z) :
  let rl := RateLimiter64.after_calls (RateLimiter64.new options t0) earlier in
  let capacity := Double.ofZ (maxRequests options) in
  let rate := Double.div capacity (Double.ofZ (windowMs options)) in
  let elapsed := Double.ofZ (now - RateLimiter64.lastRefill rl) in
  let refilled :=
    Double.min capacity (Double.add (RateLimiter64.tokens rl) (Double.mul elapsed rate)) in
  (refilled = Double.nan \/ Double.leb refilled capacity = true) /\
  RateLimiter64.acquire rl now =
    if Double.leb Double.one refilled
    then (true, {| RateLimiter64.tokens := Double.sub refilled Double.one;
                   RateLimiter64.lastRefill := now;
                   RateLimiter64.maxTokens := capacity;
                   RateLimiter64.refillRate := rate |})
    else (false, {| RateLimiter64.tokens := refilled;
                    RateLimiter64.lastRefill := now;
                    RateLimiter64.maxTokens := capacity;
                    RateLimiter64.refillRate := rate |}).
Proof.
  intros rl capacity rate elapsed refilled.
  destruct (after_calls64_readonly earlier (RateLimiter64.new options t0)) as [Hm Hr].
  fold rl in Hm, Hr. simpl in Hm, Hr.
  split.
  - apply Double_min_capped.
  - unfold RateLimiter64.acquire, RateLimiter64.refill. simpl.
    rewrite Hm, Hr. fold capacity rate elapsed refilled.
    destruct (Double.leb Double.one refilled); reflexivity.
Qed.

(** The limiter of the test file, emptied by five calls at time 0: the call
    made 100 ms later is denied and leaves the half token that the refill
    added, which the arithmetic of this configuration gives exactly. *)
Lemma acquire_refills_then_decides_witness :
  RateLimiter64.acquire
    (RateLimiter64.after_calls (RateLimiter64.new testLimiterOptions 0) [0; 0; 0; 0; 0]) 100
  = (false, {| RateLimiter64.tokens := Double.ofQ (1 # 2);
               RateLimiter64.lastRefill := 100;
               RateLimiter64.maxTokens := Double.ofZ 5;
               RateLimiter64.refillRate := Double.ofQ (5 # 1000) |}).
Proof.
  destruct (acquire_refills_then_decides testLimiterOptions 0 [0; 0; 0; 0; 0] 100) as [_ H].
  rewrite H. vm_compute. reflexivity.
Defined.

(** C5 as stated fails in double arithmetic.  A limiter of one request per
    49 ms, emptied at time 0, is asked again at time 49: the elapsed time
    times [maxRequests / windowMs] is 49 * (1 / 49), a whole token, and the
    call would be admitted; the code computes 0.9999999999999999, the double
    below 1, and denies the call. *)
Lemma refill_is_rounded :
  let options := {| maxRequests := 1; windowMs := 49 |} in
  let exact := RateLimiter.after_calls (RateLimiter.new options 0) [0] in
  let rl := RateLimiter64.after_calls (RateLimiter64.new options 0) [0] in
  (RateLimiter.tokens exact == 0)%Q /\
  RateLimiter64.tokens rl = Double.ofZ 0 /\
  (Qmin 1 (0 + inject_Z (49 - 0) * (1 / 49)) == 1)%Q /\
  fst (RateLimiter.acquire exact 49) = true /\
  fst (RateLimiter64.acquire rl 49) = false /\
  Double.toQ (RateLimiter64.tokens (snd (RateLimiter64.acquire rl 49)))
  = (9007199254740991 # 9007199254740992)%Q.
Proof. vm_compute. repeat split. Qed.

(** Two more effects of the rounding.  The wait that [getRemainingTime]
    announces can be too short: a limiter of one request per 161 ms, emptied
    at time 0, announces 161 ms, and the call made 161 ms later is denied
    (with one request per 49 ms it announces 50 ms).  And reading the quota
    in between can change an answer: with one request per 6 ms the call made
    at time 6 is granted, but denied when [getAvailableTokens] was called at
    time 1, the refill being then the sum of two rounded parts. *)
Lemma rounding_shows_in_the_answers :
  let emptied (windowMs : Z) :=
    RateLimiter64.after_calls
      (RateLimiter64.new {| maxRequests := 1; windowMs := windowMs |} 0) [0] in
  RateLimiter64.getRemainingTime (emptied 161) = Double.ofZ 161 /\
  fst (RateLimiter64.acquire (emptied 161) 161) = false /\
  RateLimiter64.getRemainingTime (emptied 49) = Double.ofZ 50 /\
  fst (RateLimiter64.acquire (emptied 6) 6) = true /\
  fst (RateLimiter64.acquire (snd (RateLimiter64.getAvailableTokens (emptied 6) 1)) 6)
  = false.
Proof. vm_compute. repeat split. Qed.

(** ** Properties of the circuit breaker *)

Section FindIndexFacts.
Context {A : Type} (p : A -> bool).

Lemma findIndex_range (l : list A) :
  -1 <= findIndex p l < Z.of_nat (length l) \/ (l = [] /\ findIndex p l = -1).
Proof.
  induction l as [|x l IH]; [right; split; reflexivity|left].
  simpl findIndex. destruct (p x); [simpl length; lia|].
  destruct (findIndex p l <? 0) eqn:Hneg; simpl length; [lia|].
  apply Z.ltb_ge in Hneg. destruct IH as [IH|[-> IH]]; [lia|simpl in *; lia].
Qed.


Lemma findIndex_none (l : list A) :
  findIndex p l = -1 <-> forall x, In x l -> p x = false.
Proof.
  induction l as [|y l IH]; simpl findIndex.
  - split; [intros _ x []|reflexivity].
  - destruct (p y) eqn:Hy.
    + split; [discriminate|]. intros H. specialize (H y (or_introl eq_refl)). congruence.
    + destruct (findIndex p l <? 0) eqn:Hneg.
      * apply Z.ltb_lt in Hneg.
        assert (findIndex p l = -1) as Hm.
        { destruct (findIndex_range l) as [?|[_ ?]]; lia. }
        split; [|reflexivity]. intros _ x [<-|Hin]; [exact Hy|].
        apply IH; assumption.
      * apply Z.ltb_ge in Hneg. split; [lia|].
        intros H. assert (findIndex p l = -1); [|lia].
        apply IH. intros x Hin. apply H. right. exact Hin.
Qed.
End FindIndexFacts.


Section CircuitBreakerFacts.
Import CircuitBreaker.

Lemma state_eqb_eq a b : state_eqb a b = true <-> a = b.
Proof. destruct a, b; simpl; split; congruence. Qed.

Lemma cleanupHistory_fields cb now :
  state (cleanupHistory cb now) = state cb /\
  successCount (cleanupHistory cb now) = successCount cb /\
  options (cleanupHistory cb now) = options cb /\
  lastFailureTime (cleanupHistory cb now) = lastFailureTime cb /\
  failures (cleanupHistory cb now) = failures cb.
Proof. unfold cleanupHistory. destruct (0 <? _); repeat split. Qed.



Ltac forget_cleanup :=
  match goal with |- context [cleanupHistory ?c ?t] =>
    let Hs := fresh "Hs" in let Hc := fresh "Hc" in let Ho := fresh "Ho" in
    let Hl := fresh "Hl" in let Hf := fresh "Hf" in
    destruct (cleanupHistory_fields c t) as (Hs & Hc & Ho & Hl & Hf);
    simpl in Hs, Hc, Ho, Hl, Hf;
    generalize dependent (cleanupHistory c t); intros [] ? ? ? ? ?;
    simpl in *; subst
  end.

Lemma onSuccess_state cb now :
  state (onSuccess cb now) =
    match state cb with
    | half_open => if (1 <=? successCount cb)%nat then closed else half_open
    | s => s
    end.
Proof.
  unfold onSuccess. forget_cleanup.
  destruct (state cb); simpl; try reflexivity.
  destruct (successCount cb); reflexivity.
Qed.

Lemma onSuccess_successCount cb now :
  successCount (onSuccess cb now) =
    match state cb with
    | half_open => S (successCount cb)
    | _ => successCount cb
    end.
Proof.
  unfold onSuccess. forget_cleanup.
  destruct (state cb); simpl; try reflexivity.
  destruct (successCount cb); reflexivity.
Qed.

Lemma onSuccess_options cb now : options (onSuccess cb now) = options cb.
Proof.
  unfold onSuccess. forget_cleanup.
  destruct (state cb); simpl; try reflexivity.
  destruct (successCount cb); reflexivity.
Qed.

Lemma onFailure_half_open cb now :
  state cb = half_open -> state (onFailure cb now) = open.
Proof. intros H. unfold onFailure. forget_cleanup. rewrite H. reflexivity. Qed.

Lemma execute_not_open {W T : Type} (clock : W -> Z) cb
    (operation : W -> Completion T * W) (w : W) :
  state cb <> open -> execute clock cb operation w = settle clock cb operation w.
Proof.
  intros H. unfold execute, gate. destruct (state cb); try reflexivity. congruence.
Qed.

End CircuitBreakerFacts.

(** *** Tripping a fresh breaker *)






(** C4.  An open breaker whose last failure is more than [resetTimeout] old
    passes the gate as a half-open breaker with the probe-success counter at
    0, and [execute] invokes the operation on it.  If that probe succeeds the
    breaker is still half-open, and a second success in a row closes it; from
    any half-open breaker two successes in a row end in closed.  A failure of
    the probe, or of any invocation on a half-open breaker, ends in open. *)
Theorem breaker_half_open_recovery
    {W T : Type} (clock : W -> Z) (cb : CircuitBreaker.t)
    (operation next : W -> Completion T * W) (w : W) :
  let after c op w := snd (fst (CircuitBreaker.execute clock c op w)) in
  let probe := CircuitBreaker.set_successCount 0
                 (CircuitBreaker.set_state CircuitBreaker.half_open cb) in
  (CircuitBreaker.state cb = CircuitBreaker.open ->
   resetTimeout (CircuitBreaker.options cb) < clock w - CircuitBreaker.lastFailureTime cb ->
   CircuitBreaker.gate cb (clock w) = Some probe /\
   CircuitBreaker.state probe = CircuitBreaker.half_open /\
   CircuitBreaker.successCount probe = 0%nat /\
   CircuitBreaker.execute clock cb operation w
   = CircuitBreaker.settle clock probe operation w /\
   fst (fst (CircuitBreaker.execute clock cb operation w)) = fst (operation w) /\
   snd (CircuitBreaker.execute clock cb operation w) = snd (operation w) /\
   (forall v w1, operation w = (Normal v, w1) ->
      CircuitBreaker.state (after cb operation w) = CircuitBreaker.half_open /\
      forall v2 w2 w3, next w2 = (Normal v2, w3) ->
        CircuitBreaker.state (after (after cb operation w) next w2)
        = CircuitBreaker.closed) /\
   (forall e w1, operation w = (Throw e, w1) ->
      CircuitBreaker.state (after cb operation w) = CircuitBreaker.open))
  /\
  (CircuitBreaker.state cb = CircuitBreaker.half_open ->
   (forall v w1 v2 w2 w3, operation w = (Normal v, w1) -> next w2 = (Normal v2, w3) ->
      CircuitBreaker.state (after (after cb operation w) next w2)
      = CircuitBreaker.closed) /\
   (forall e w1, operation w = (Throw e, w1) ->
      CircuitBreaker.state (after cb operation w) = CircuitBreaker.open)).
Proof.
  intros after probe.
  assert (forall c op w0 v w1, CircuitBreaker.state c <> CircuitBreaker.open ->
            op w0 = (Normal v, w1) ->
            after c op w0 = CircuitBreaker.onSuccess c (clock w1)) as Hsucc.
  { intros c op w0 v w1 Hs Hop. unfold after. rewrite execute_not_open by exact Hs.
    unfold CircuitBreaker.settle. rewrite Hop. reflexivity. }
  assert (forall c op w0 e w1, CircuitBreaker.state c = CircuitBreaker.half_open ->
            op w0 = (Throw e, w1) ->
            CircuitBreaker.state (after c op w0) = CircuitBreaker.open) as Hfail.
  { intros c op w0 e w1 Hs Hop. unfold after. rewrite execute_not_open by congruence.
    unfold CircuitBreaker.settle. rewrite Hop. simpl.
    apply onFailure_half_open. exact Hs. }
  assert (forall c op op' w0 v w1 w2 v2 w3,
            CircuitBreaker.state c = CircuitBreaker.half_open ->
            op w0 = (Normal v, w1) -> op' w2 = (Normal v2, w3) ->
            CircuitBreaker.state (after (after c op w0) op' w2) = CircuitBreaker.closed)
    as Htwo.
  { intros c op op' w0 v w1 w2 v2 w3 Hs Hop Hop'.
    rewrite (Hsucc c op w0 v w1) by (congruence || assumption).
    pose proof (onSuccess_state c (clock w1)) as H1.
    pose proof (onSuccess_successCount c (clock w1)) as H1c.
    rewrite Hs in H1, H1c.
    rewrite (Hsucc _ op' w2 v2 w3); [|rewrite H1; destruct (_ <=? _)%nat; congruence|exact Hop'].
    rewrite onSuccess_state, H1, H1c.
    destruct (1 <=? CircuitBreaker.successCount c)%nat; reflexivity. }
  split.
  - intros Hopen Hold.
    assert (CircuitBreaker.gate cb (clock w) = Some probe) as Hgate.
    { unfold CircuitBreaker.gate. rewrite Hopen. simpl.
      destruct (Z.ltb_spec (resetTimeout (CircuitBreaker.options cb))
                  (clock w - CircuitBreaker.lastFailureTime cb)); [reflexivity|lia]. }
    assert (CircuitBreaker.execute clock cb operation w
            = CircuitBreaker.settle clock probe operation w) as Hexec.
    { unfold CircuitBreaker.execute. rewrite Hgate. reflexivity. }
    assert (after cb operation w = after probe operation w) as Hafter.
    { unfold after. rewrite Hexec. rewrite execute_not_open; [reflexivity|discriminate]. }
    split; [exact Hgate|]. split; [reflexivity|]. split; [reflexivity|].
    split; [exact Hexec|]. split; [|split; [|split]].
    + rewrite Hexec. unfold CircuitBreaker.settle.
      destruct (operation w) as [[v|e] w1]; reflexivity.
    + rewrite Hexec. unfold CircuitBreaker.settle.
      destruct (operation w) as [[v|e] w1]; reflexivity.
    + intros v w1 Hop. rewrite Hafter. split.
      * rewrite (Hsucc probe operation w v w1); [|discriminate|exact Hop].
        rewrite onSuccess_state. reflexivity.
      * intros v2 w2 w3 Hnext.
        apply (Htwo probe operation next w v w1 w2 v2 w3 eq_refl Hop Hnext).
    + intros e w1 Hop. rewrite Hafter. apply (Hfail probe operation w e w1 eq_refl Hop).
  - intros Hhalf. split.
    + intros v w1 v2 w2 w3 Hop Hnext.
      apply (Htwo cb operation next w v w1 w2 v2 w3 Hhalf Hop Hnext).
    + intros e w1 Hop. apply (Hfail cb operation w e w1 Hhalf Hop).
Qed.

Lemma breaker_half_open_recovery_witness :
  let after c op w := snd (fst (CircuitBreaker.execute (fun w : Z => w) c op w)) in
  CircuitBreaker.state trippedBreaker = CircuitBreaker.open /\
  CircuitBreaker.state (after trippedBreaker successfulOperation 1100)
  = CircuitBreaker.half_open /\
  CircuitBreaker.state
    (after (after trippedBreaker successfulOperation 1100) successfulOperation 1200)
  = CircuitBreaker.closed /\
  CircuitBreaker.state (after trippedBreaker failingOperation 1100) = CircuitBreaker.open.
Proof.
  intros after.
  destruct (breaker_half_open_recovery (fun w : Z => w) trippedBreaker
              successfulOperation successfulOperation 1100) as [Hprobe _].
  destruct (Hprobe eq_refl) as (_ & _ & _ & _ & _ & _ & Hok & _); [vm_compute; reflexivity|].
  destruct (Hok "success" 1100 eq_refl) as [Hhalf Hclosed].
  destruct (breaker_half_open_recovery (fun w : Z => w) trippedBreaker
              failingOperation successfulOperation 1100) as [Hprobe' _].
  destruct (Hprobe' eq_refl) as (_ & _ & _ & _ & _ & _ & _ & Hko); [vm_compute; reflexivity|].
  split; [reflexivity|]. split; [exact Hhalf|]. split.
  - exact (Hclosed "success" 1200 1200 eq_refl).
  - exact (Hko (JsError "Operation failed") 1100 eq_refl).
Defined.

(** A closed breaker whose history, with one more entry, is still shorter
    than the threshold stays closed when a failure is recorded. *)
Lemma onFailure_stays_closed (cb : CircuitBreaker.t) (now : Z) :
  CircuitBreaker.state cb = CircuitBreaker.closed ->
  Z.of_nat (length (CircuitBreaker.failureHistory cb)) + 1
    < failureThreshold (CircuitBreaker.options cb) ->
  let cb' := CircuitBreaker.onFailure cb now in
  CircuitBreaker.state cb' = CircuitBreaker.closed /\
  (length (CircuitBreaker.failureHistory cb')
   <= length (CircuitBreaker.failureHistory cb) + 1)%nat /\
  CircuitBreaker.options cb' = CircuitBreaker.options cb.
Proof.
  intros Hclosed Hfew. unfold CircuitBreaker.onFailure.
  match goal with |- context [CircuitBreaker.cleanupHistory ?c now] =>
    assert (length (CircuitBreaker.failureHistory (CircuitBreaker.cleanupHistory c now))
            <= length (CircuitBreaker.failureHistory cb) + 1)%nat as Hlen;
    [unfold CircuitBreaker.cleanupHistory;
     cbn [CircuitBreaker.failureHistory CircuitBreaker.options];
     destruct (0 <? _);
     cbn [CircuitBreaker.failureHistory CircuitBreaker.set_failureHistory];
     rewrite ?length_drop, length_app; cbn [length]; lia|];
    destruct (cleanupHistory_fields c now) as (Hs & _ & Ho & _);
    cbn [CircuitBreaker.state CircuitBreaker.options] in Hs, Ho;
    set (cleaned := CircuitBreaker.cleanupHistory c now) in *
  end.
  cbv zeta. rewrite Hs, Hclosed, Ho. cbn [CircuitBreaker.state_eqb].
  pose proof (List.filter_length_le
                (fun time => now - time <? monitoringWindow (CircuitBreaker.options cb))
                (CircuitBreaker.failureHistory cleaned)) as Hrecent.
  unfold CircuitBreaker.recentFailures.
  destruct (Z.leb_spec (failureThreshold (CircuitBreaker.options cb))
              (Z.of_nat (length (List.filter
                 (fun time => now - time <? monitoringWindow (CircuitBreaker.options cb))
                 (CircuitBreaker.failureHistory cleaned))))) as [Hmany|_].
  - lia.
  - split; [congruence|]. split; [exact Hlen|exact Ho].
Qed.

(** *** Pruning of the failure history *)

Lemma findIndex_found {A : Type} (p : A -> bool) (l : list A) :
  0 <= findIndex p l ->
  exists x rest, drop (Z.to_nat (findIndex p l)) l = x :: rest /\ p x = true.
Proof.
  induction l as [|y l IH]; simpl findIndex; [lia|].
  destruct (p y) eqn:Hy; [intros _; exists y, l; split; [reflexivity|exact Hy]|].
  destruct (findIndex p l <? 0) eqn:Hneg; [lia|]. intros _.
  apply Z.ltb_ge in Hneg. destruct (IH Hneg) as (x & rest & Hd & Hx).
  exists x, rest. split; [|exact Hx].
  replace (Z.to_nat (findIndex p l + 1)) with (S (Z.to_nat (findIndex p l))) by lia.
  exact Hd.
Qed.

Lemma StronglySorted_drop {A : Type} (R : A -> A -> Prop) (n : nat) :
  forall l, StronglySorted R l -> StronglySorted R (drop n l).
Proof.
  induction n as [|n IH]; intros l Hs; [exact Hs|].
  destruct l as [|y l]; [exact Hs|]. simpl. apply IH. inversion Hs; assumption.
Qed.

(** When every recorded failure is older than the window, [findIndex] answers
    [-1] and [cleanupHistory] removes nothing. *)
Lemma cleanupHistory_all_stale (cb : CircuitBreaker.t) (now : Z) :
  (forall time, In time (CircuitBreaker.failureHistory cb) ->
     time < now - monitoringWindow (CircuitBreaker.options cb)) ->
  CircuitBreaker.cleanupHistory cb now = cb.
Proof.
  intros Hstale. unfold CircuitBreaker.cleanupHistory.
  replace (findIndex _ _) with (-1); [reflexivity|].
  symmetry. apply findIndex_none. intros x Hx. apply Z.leb_gt. apply Hstale, Hx.
Qed.

(** So a successful invocation that finds only stale entries keeps them all. *)
Lemma onSuccess_keeps_stale_history (cb : CircuitBreaker.t) (now : Z) :
  (forall time, In time (CircuitBreaker.failureHistory cb) ->
     time < now - monitoringWindow (CircuitBreaker.options cb)) ->
  CircuitBreaker.failureHistory (CircuitBreaker.onSuccess cb now)
  = CircuitBreaker.failureHistory cb.
Proof.
  intros Hstale. unfold CircuitBreaker.onSuccess.
  rewrite cleanupHistory_all_stale by exact Hstale.
  cbn [CircuitBreaker.state CircuitBreaker.successCount].
  destruct (CircuitBreaker.state_eqb (CircuitBreaker.state cb) CircuitBreaker.half_open);
    [|reflexivity].
  cbn [CircuitBreaker.set_successCount CircuitBreaker.successCount].
  destruct (2 <=? S (CircuitBreaker.successCount cb))%nat; reflexivity.
Qed.

(** On the failure path the history has just received the current time, so
    the search succeeds: with timestamps in clock order, every entry kept is
    within the window. *)
Lemma onFailure_history_within_window (cb : CircuitBreaker.t) (now : Z) :
  StronglySorted Z.le (CircuitBreaker.failureHistory cb ++ [now]) ->
  0 <= monitoringWindow (CircuitBreaker.options cb) ->
  forall time, In time (CircuitBreaker.failureHistory (CircuitBreaker.onFailure cb now)) ->
    now - monitoringWindow (CircuitBreaker.options cb) <= time.
Proof.
  intros Hsorted Hwin.
  set (h := CircuitBreaker.failureHistory cb ++ [now]) in *.
  set (cutoff := now - monitoringWindow (CircuitBreaker.options cb)).
  set (p := fun time => cutoff <=? time).
  assert (In now h) as Hnow by (unfold h; apply in_or_app; right; left; reflexivity).
  assert (0 <= findIndex p h) as Hfound.
  { destruct (findIndex_range p h) as [?|[Hnil _]]; [|rewrite Hnil in Hnow; destruct Hnow].
    destruct (Z.eq_dec (findIndex p h) (-1)) as [Hm|]; [|lia].
    rewrite findIndex_none in Hm. specialize (Hm now Hnow).
    unfold p, cutoff in Hm. rewrite Z.leb_gt in Hm. lia. }
  assert (forall time, In time (drop (Z.to_nat (findIndex p h)) h) -> cutoff <= time)
    as Hkept.
  { destruct (findIndex_found p h Hfound) as (x & rest & Hd & Hx).
    rewrite Hd. apply Z.leb_le in Hx.
    assert (StronglySorted Z.le (x :: rest)) as Hs.
    { rewrite <- Hd. apply StronglySorted_drop, Hsorted. }
    apply StronglySorted_inv in Hs as [_ Hall].
    rewrite List.Forall_forall in Hall.
    intros time [<-|Hin]; [exact Hx|]. specialize (Hall time Hin). lia. }
  assert (CircuitBreaker.failureHistory (CircuitBreaker.onFailure cb now)
          = if 0 <? findIndex p h then drop (Z.to_nat (findIndex p h)) h else h) as ->.
  { unfold CircuitBreaker.onFailure, CircuitBreaker.cleanupHistory. simpl.
    fold h cutoff p.
    destruct (0 <? findIndex p h); simpl;
      repeat match goal with |- context [if ?b then _ else _] => destruct b end;
      reflexivity. }
  destruct (0 <? findIndex p h) eqn:Hpos; [exact Hkept|].
  apply Z.ltb_ge in Hpos.
  replace (findIndex p h) with 0 in Hkept by lia. exact Hkept.
Qed.

(** C9 (the code departs from the claim on the success path).  A breaker with
    the options of the test file records a failure at clock reading 1000 and
    then executes a successful operation at 10000.  The cutoff is then 5000,
    no entry of the history reaches it, [findIndex] answers [-1] and the
    entry 1000, older than the monitoring window, stays in the history. *)
Theorem cleanupHistory_keeps_stale_entry_after_success :
  let cb := breaker_after (CircuitBreaker.new testBreakerOptions)
              [(failingOperation, 1000); (successfulOperation, 10000)] in
  CircuitBreaker.failureHistory cb = [1000] /\
  1000 < 10000 - monitoringWindow (CircuitBreaker.options cb) /\
  findIndex (fun time => 10000 - monitoringWindow (CircuitBreaker.options cb) <=? time)
            [1000] = -1.
Proof. vm_compute. repeat split. Qed.

(** ** The retry loop *)

(** One iteration of the loop, the recursive call read back as the loop. *)
Ltac sendWithRetry_loop_step :=
  unfold sendWithRetry_loop; cbn [sendWithRetry_while];
  change (sendWithRetry_while backoffDelay (fun _ => ?p) ?n ?a ?s ?m ?c ?w)
    with (sendWithRetry_loop n a s m p c w).

Lemma retrySteps_app (a b : list Event) : retrySteps (a ++ b) = retrySteps a ++ retrySteps b.
Proof. apply omap_app. Qed.

Lemma incrementAttemptCount_options svc messageId :
  options (incrementAttemptCount svc messageId) = options svc.
Proof. unfold incrementAttemptCount. destruct (_ !! _); reflexivity. Qed.

(** A try through the breaker adds at most the provider call to the trace. *)
Lemma execute_sendEmail_trace cb provider message w :
  let '(_, _, w') :=
    CircuitBreaker.execute clock cb (EmailProvider.sendEmail provider message) w in
  trace w' = trace w \/
  trace w' = trace w ++ [EvSend (EmailProvider.name provider) message].
Proof.
  unfold CircuitBreaker.execute. destruct (CircuitBreaker.gate cb (clock w)); [|left; reflexivity].
  unfold CircuitBreaker.settle, EmailProvider.sendEmail.
  destruct (EmailProvider.outcome _); right; reflexivity.
Qed.

Lemma sendWithRetry_loop_steps (remaining : nat) :
  forall attempt svc message provider cb w,
    (remaining <> 0%nat ->
     Z.of_nat (attempt + remaining) = maxAttempts (retry (options svc))) ->
    let '(r, svc', w') := sendWithRetry_loop remaining attempt svc message provider cb w in
    options svc' = options svc /\
    exists new failed,
      trace w' = trace w ++ new /\
      retrySteps new =
        flat_map
          (fun attempt =>
             if Z.of_nat attempt =? maxAttempts (retry (options svc))
             then [AttemptFailed attempt true]
             else [AttemptFailed attempt false;
                   Waited (backoffDelay (retry (options svc)) attempt)])
          (seq (S attempt) failed) /\
      match r with
      | Normal _ => (failed < remaining)%nat
      | Throw _ => failed = remaining
      end.
Proof.
  induction remaining as [|remaining IH]; intros attempt svc message provider cb w Hinv.
  - simpl. split; [reflexivity|]. exists [], 0%nat. rewrite app_nil_r. repeat split.
  - sendWithRetry_loop_step.
    pose proof (execute_sendEmail_trace cb provider message w) as Htry.
    destruct (CircuitBreaker.execute clock cb (EmailProvider.sendEmail provider message) w)
      as [[r cb'] w1].
    assert (exists sent, trace w1 = trace w ++ sent /\ retrySteps sent = []) as (sent & Hsent & Hnone).
    { destruct Htry as [H|H]; [exists []|eexists; split; [exact H|reflexivity]].
      rewrite app_nil_r. split; [exact H|reflexivity]. }
    destruct r as [result|error].
    + split; [cbn [options set_circuitBreakers]; apply incrementAttemptCount_options|].
      exists sent, 0%nat. split; [exact Hsent|]. split; [exact Hnone|lia].
    + cbn [options set_circuitBreakers]. rewrite incrementAttemptCount_options.
      destruct (Z.of_nat (S attempt) =? maxAttempts (retry (options svc))) eqn:Hlast.
      * split; [cbn [options set_circuitBreakers]; apply incrementAttemptCount_options|].
        apply Z.eqb_eq in Hlast. specialize (Hinv ltac:(discriminate)).
        assert (remaining = 0%nat) as -> by lia.
        eexists. exists 1%nat. split; [|split; [|reflexivity]].
        -- unfold log, emit. cbn [trace]. rewrite Hsent, <- app_assoc. reflexivity.
        -- rewrite retrySteps_app, Hnone. cbn [retrySteps omap list_omap retryStep String.eqb Ascii.eqb Bool.eqb app seq flat_map].
           rewrite (proj2 (Z.eqb_eq _ _) Hlast). rewrite Nat2Z.id. reflexivity.
      * apply Z.eqb_neq in Hlast. specialize (Hinv ltac:(discriminate)).
        match goal with |- context [sendWithRetry_loop remaining (S attempt) ?s message provider cb' ?ww] =>
          specialize (IH (S attempt) s message provider cb' ww);
          destruct (sendWithRetry_loop remaining (S attempt) s message provider cb' ww)
            as [[r' svc'] w'] eqn:Hrec
        end.
        cbn [options set_circuitBreakers] in IH. rewrite incrementAttemptCount_options in IH.
        destruct IH as (Hopt & new & failed & Htrace & Hsteps & Hcount); [intros _; lia|].
        split; [exact Hopt|].
        eexists. exists (S failed). split; [|split].
        -- rewrite Htrace. unfold delay, log, emit. cbn [trace]. rewrite Hsent.
           rewrite <- !app_assoc. reflexivity.
        -- rewrite !retrySteps_app, Hnone, Hsteps.
           cbn [retrySteps omap list_omap retryStep String.eqb Ascii.eqb Bool.eqb app seq flat_map].
           rewrite (proj2 (Z.eqb_neq _ _) Hlast). rewrite Nat2Z.id. reflexivity.
        -- destruct r'; lia.
Qed.







(** The loop only asks for the delays of the attempts that are not the last
    allowed one: two ways of computing the delays that agree on those give
    the same run. *)
Lemma sendWithRetry_while_same_delays computeDelay computeDelay'
    (provider : EmailService -> EmailProvider.t) (remaining : nat) :
  forall attempt svc message cb w,
    (remaining <> 0%nat ->
     Z.of_nat (attempt + remaining) = maxAttempts (retry (options svc))) ->
    (forall failed,
       (attempt < failed)%nat ->
       Z.of_nat failed < maxAttempts (retry (options svc)) ->
       computeDelay (retry (options svc)) failed = computeDelay' (retry (options svc)) failed) ->
    sendWithRetry_while computeDelay provider remaining attempt svc message cb w
    = sendWithRetry_while computeDelay' provider remaining attempt svc message cb w.
Proof.
  induction remaining as [|remaining IH]; intros attempt svc message cb w Hinv Hsame;
    [reflexivity|].
  cbn [sendWithRetry_while].
  destruct (CircuitBreaker.execute clock cb _ w) as [[r cb'] w1].
  destruct r as [result|error]; [reflexivity|].
  cbn [options set_circuitBreakers]. rewrite incrementAttemptCount_options.
  destruct (Z.of_nat (S attempt) =? maxAttempts (retry (options svc))) eqn:Hlast;
    [reflexivity|].
  apply Z.eqb_neq in Hlast. specialize (Hinv ltac:(discriminate)).
  rewrite (Hsame (S attempt)) by lia.
  apply IH; cbn [options set_circuitBreakers]; rewrite incrementAttemptCount_options.
  - intros _. lia.
  - intros failed Hlater Hbelow. apply Hsame; lia.
Qed.

(** Where the doubles hold the delays exactly, the code runs as in exact
    arithmetic. *)
Lemma sendWithRetry64_exact Math_pow svc message provider cb w :
  (forall failed,
     (0 < failed)%nat -> Z.of_nat failed < maxAttempts (retry (options svc)) ->
     Double.toQ (backoffDelay64 Math_pow (retry (options svc)) failed)
     = backoffDelay (retry (options svc)) failed) ->
  sendWithRetry64 Math_pow svc message (fun _ => provider) cb w
  = sendWithRetry svc message provider cb w.
Proof.
  intros Hexact. unfold sendWithRetry64, sendWithRetry, sendWithRetry_loop.
  apply sendWithRetry_while_same_delays; [lia|].
  intros failed Hfirst Hbelow. apply Hexact; assumption.
Qed.

(** So it is with the delays of the test file: 100 ms and 200 ms. *)
Lemma sendWithRetry64_testOptions svc message provider cb w :
  options svc = testOptions ->
  sendWithRetry64 roundedPow svc message (fun _ => provider) cb w
  = sendWithRetry svc message provider cb w.
Proof.
  intros Hoptions. apply sendWithRetry64_exact. rewrite Hoptions.
  intros failed Hfirst Hbelow. change (maxAttempts (retry testOptions)) with 3 in Hbelow.
  destruct failed as [|[|[|failed]]]; [lia|vm_compute; reflexivity..|lia].
Qed.




(** ** What one delivery does to the service *)

Lemma failedAttempts_app a b : failedAttempts (a ++ b) = (failedAttempts a + failedAttempts b)%nat.
Proof. unfold failedAttempts. rewrite List.filter_app, length_app. reflexivity. Qed.

Lemma successfulAttempts_app a b :
  successfulAttempts (a ++ b) = (successfulAttempts a + successfulAttempts b)%nat.
Proof. unfold successfulAttempts. rewrite List.filter_app, length_app. reflexivity. Qed.

Lemma lastAttemptError_app a b :
  lastAttemptError (a ++ b) =
    match lastAttemptError b with Some e => Some e | None => lastAttemptError a end.
Proof. unfold lastAttemptError. rewrite omap_app. apply last_app. Qed.

Lemma addAttempts_0 status : addAttempts 0 status = status.
Proof. destruct status; reflexivity. Qed.

Lemma addAttempts_add a b status :
  addAttempts a (addAttempts b status) = addAttempts (a + b) status.
Proof. unfold addAttempts; simpl. f_equal. lia. Qed.

Lemma sameBookkeeping_refl a : sameBookkeeping a a.
Proof. repeat split. Qed.

Lemma sameBookkeeping_trans a b c :
  sameBookkeeping a b -> sameBookkeeping b c -> sameBookkeeping a c.
Proof. unfold sameBookkeeping. intuition congruence. Qed.

Lemma incrementAttemptCount_alter svc messageId :
  incrementAttemptCount svc messageId =
  set_emailStatuses (alter (addAttempts 1) messageId (emailStatuses svc)) svc.
Proof.
  unfold incrementAttemptCount, updateStatus.
  destruct (emailStatuses svc !! messageId) as [status|] eqn:Hst.
  - f_equal. apply map_eq. intros k. rewrite lookup_insert, lookup_alter.
    case_decide; [subst; rewrite Hst|]; reflexivity.
  - rewrite alter_id' by exact Hst. destruct svc; reflexivity.
Qed.

Lemma alter_addAttempts a b messageId (statuses : gmap string EmailStatus.t) :
  alter (addAttempts a) messageId (alter (addAttempts b) messageId statuses)
  = alter (addAttempts (a + b)) messageId statuses.
Proof.
  rewrite alter_alter_eq. apply alter_ext. intros x _. apply addAttempts_add.
Qed.

Lemma alter_addAttempts_0 messageId (statuses : gmap string EmailStatus.t) :
  alter (addAttempts 0) messageId statuses = statuses.
Proof. apply alter_id. intros x _. apply addAttempts_0. Qed.

(** A try through the breaker is either rejected by the open breaker, with
    nothing done, or it is the provider's own answer to one call. *)
Lemma execute_sendEmail_cases cb provider message w :
  let '(r, cb', w') :=
    CircuitBreaker.execute clock cb (EmailProvider.sendEmail provider message) w in
  (r = Throw (JsError "Circuit breaker is OPEN") /\ cb' = cb /\ w' = w) \/
  (r = EmailProvider.outcome (EmailProvider.behaviour provider w message) /\
   trace w' = trace w ++ [EvSend (EmailProvider.name provider) message]).
Proof.
  unfold CircuitBreaker.execute.
  destruct (CircuitBreaker.gate cb (clock w)); [|left; repeat split].
  unfold CircuitBreaker.settle, EmailProvider.sendEmail.
  destruct (EmailProvider.outcome _); right; split; reflexivity.
Qed.

Lemma sendWithRetry_loop_spec (remaining : nat) :
  forall attempt svc message provider cb w,
    (remaining <> 0%nat ->
     Z.of_nat (attempt + remaining) = maxAttempts (retry (options svc))) ->
    let '(r, svc', w') := sendWithRetry_loop remaining attempt svc message provider cb w in
    sameBookkeeping svc svc' /\
    exists new,
      trace w' = trace w ++ new /\
      emailStatuses svc' =
        alter (addAttempts (failedAttempts new
                            + match r with Normal _ => 1 | Throw _ => 0 end))
              (EmailMessage.id message) (emailStatuses svc) /\
      successfulAttempts new = 0%nat /\
      match r with
      | Normal result =>
          exists w0,
            EmailProvider.outcome (EmailProvider.behaviour provider w0 message)
            = Normal result
      | Throw error =>
          remaining <> 0%nat -> lastAttemptError new = Some (errorMessageOf error)
      end.
Proof.
  induction remaining as [|remaining IH]; intros attempt svc message provider cb w Hinv.
  - sendWithRetry_loop_step. split; [apply sameBookkeeping_refl|].
    exists []. rewrite app_nil_r. split; [reflexivity|].
    split; [symmetry; apply alter_addAttempts_0|]. split; [reflexivity|]. intros []. reflexivity.
  - sendWithRetry_loop_step.
    pose proof (execute_sendEmail_cases cb provider message w) as Htry.
    destruct (CircuitBreaker.execute clock cb (EmailProvider.sendEmail provider message) w)
      as [[r cb'] w1].
    assert (exists sent, trace w1 = trace w ++ sent /\ failedAttempts sent = 0%nat /\
                         successfulAttempts sent = 0%nat /\ lastAttemptError sent = None)
      as (sent & Hsent & Hf0 & Hs0 & Hl0).
    { destruct Htry as [(_ & _ & ->)|[_ H]].
      - exists []. rewrite app_nil_r. repeat split.
      - eexists. split; [exact H|]. repeat split. }
    rewrite incrementAttemptCount_alter.
    set (svc1 := set_circuitBreakers _ _).
    assert (sameBookkeeping svc svc1) as Hsame1 by (repeat split).
    assert (emailStatuses svc1
            = alter (addAttempts 1) (EmailMessage.id message) (emailStatuses svc)) as Hst1
      by reflexivity.
    assert (options svc1 = options svc) as Hopt1 by reflexivity.
    destruct r as [result|error].
    + split; [exact Hsame1|]. exists sent. split; [exact Hsent|].
      rewrite Hf0. split; [exact Hst1|]. split; [exact Hs0|].
      destruct Htry as [(Habs & _)|[Hout _]]; [discriminate|]. exists w. symmetry. exact Hout.
    + rewrite Hopt1.
      destruct (Z.of_nat (S attempt) =? maxAttempts (retry (options svc))) eqn:Hlast.
      * split; [exact Hsame1|]. eexists. split; [|split; [|split]].
        -- unfold log, emit. cbn [trace]. rewrite Hsent, <- app_assoc. reflexivity.
        -- rewrite failedAttempts_app, Hf0. exact Hst1.
        -- rewrite successfulAttempts_app, Hs0. reflexivity.
        -- intros _. rewrite lastAttemptError_app. reflexivity.
      * apply Z.eqb_neq in Hlast. specialize (Hinv ltac:(discriminate)).
        match goal with |- context [sendWithRetry_loop remaining (S attempt) svc1 message provider cb' ?ww] =>
          specialize (IH (S attempt) svc1 message provider cb' ww);
          destruct (sendWithRetry_loop remaining (S attempt) svc1 message provider cb' ww)
            as [[r' svc'] w'] eqn:Hrec
        end.
        rewrite Hopt1 in IH.
        destruct IH as (Hsame & new & Htrace & Hst & Hsucc & Hres); [intros _; lia|].
        split; [exact (sameBookkeeping_trans _ _ _ Hsame1 Hsame)|].
        eexists. split; [|split; [|split]].
        -- rewrite Htrace. unfold delay, log, emit. cbn [trace]. rewrite Hsent.
           rewrite <- !app_assoc. reflexivity.
        -- rewrite Hst, Hst1, alter_addAttempts.
           rewrite !failedAttempts_app, Hf0. cbn [failedAttempts List.filter isFailedAttempt
             String.eqb Ascii.eqb Bool.eqb length app Nat.add].
           f_equal. f_equal. lia.
        -- rewrite !successfulAttempts_app, Hs0, Hsucc. reflexivity.
        -- destruct r' as [result|error'].
           ++ exact Hres.
           ++ intros _. assert (remaining <> 0%nat) as Hrem by lia.
              rewrite !lastAttemptError_app, (Hres Hrem). reflexivity.
Qed.

Lemma sendWithRetry_spec svc message provider cb w :
  let '(r, svc', w') := sendWithRetry svc message provider cb w in
  sameBookkeeping svc svc' /\
  exists new,
    trace w' = trace w ++ new /\
    emailStatuses svc' =
      alter (addAttempts (failedAttempts new
                          + match r with Normal _ => 1 | Throw _ => 0 end))
            (EmailMessage.id message) (emailStatuses svc) /\
    successfulAttempts new = 0%nat /\
    match r with
    | Normal result =>
        exists w0,
          EmailProvider.outcome (EmailProvider.behaviour provider w0 message)
          = Normal result
    | Throw error =>
        0 < maxAttempts (retry (options svc)) ->
        lastAttemptError new = Some (errorMessageOf error)
    end.
Proof.
  unfold sendWithRetry.
  pose proof (sendWithRetry_loop_spec (Z.to_nat (maxAttempts (retry (options svc)))) 0
                svc message provider cb w) as H.
  destruct (sendWithRetry_loop _ _ _ _ _ _ _) as [[r svc'] w'].
  destruct H as (Hsame & new & Htrace & Hst & Hsucc & Hres); [lia|].
  split; [exact Hsame|]. exists new. repeat (split; [assumption|]).
  destruct r; [exact Hres|]. intros Hpos. apply Hres. lia.
Qed.

(** [execute] runs the operation in the world it is given, and nowhere
    else. *)
Lemma execute_at {W T : Type} (clock : W -> Z) cb
    (operation1 operation2 : W -> Completion T * W) (w : W) :
  operation1 w = operation2 w ->
  CircuitBreaker.execute clock cb operation1 w = CircuitBreaker.execute clock cb operation2 w.
Proof.
  intros H. unfold CircuitBreaker.execute, CircuitBreaker.settle. rewrite H. reflexivity.
Qed.

Lemma incrementAttemptCount_attemptsOf svc messageId status :
  emailStatuses svc !! messageId = Some status ->
  attemptsOf (incrementAttemptCount svc messageId) messageId = S (attemptsOf svc messageId) /\
  is_Some (emailStatuses (incrementAttemptCount svc messageId) !! messageId).
Proof.
  intros Hst. unfold attemptsOf, incrementAttemptCount, updateStatus. rewrite Hst.
  cbn [emailStatuses set_emailStatuses]. rewrite lookup_insert_eq. split; [reflexivity|].
  eexists. reflexivity.
Qed.

(** The provider is only ever called in a state of the service in which the
    counter of the message already counts the try being made: two providers
    that answer alike in every such state cannot be told apart by the
    loop. *)
Lemma sendWithRetry_while_counts_first computeDelay
    (provider other : EmailService -> EmailProvider.t) message (w : World) (before : nat) :
  (forall svc0 w0 earlier,
     trace w0 = trace w ++ earlier ->
     attemptsOf svc0 (EmailMessage.id message) = S (before + failedAttempts earlier) ->
     EmailProvider.name (other svc0) = EmailProvider.name (provider svc0) /\
     EmailProvider.behaviour (other svc0) w0 message
     = EmailProvider.behaviour (provider svc0) w0 message) ->
  forall remaining attempt svc cb w1 earlier,
    trace w1 = trace w ++ earlier ->
    is_Some (emailStatuses svc !! EmailMessage.id message) ->
    attemptsOf svc (EmailMessage.id message) = (before + failedAttempts earlier)%nat ->
    sendWithRetry_while computeDelay other remaining attempt svc message cb w1
    = sendWithRetry_while computeDelay provider remaining attempt svc message cb w1.
Proof.
  intros Hsame.
  induction remaining as [|remaining IH]; intros attempt svc cb w1 earlier Htrace [status Hst]
    Hcount; [reflexivity|].
  cbn [sendWithRetry_while].
  destruct (incrementAttemptCount_attemptsOf svc _ status Hst) as [Hinc Hsome].
  set (svc1 := incrementAttemptCount svc (EmailMessage.id message)) in *.
  destruct (Hsame svc1 w1 earlier Htrace ltac:(rewrite Hinc, Hcount; reflexivity))
    as [Hname Hanswer].
  assert (EmailProvider.sendEmail (other svc1) message w1
          = EmailProvider.sendEmail (provider svc1) message w1) as Hcall.
  { unfold EmailProvider.sendEmail. rewrite Hname, Hanswer. reflexivity. }
  rewrite (execute_at clock cb _ _ w1 Hcall), Hname.
  pose proof (execute_sendEmail_trace cb (provider svc1) message w1) as Htry.
  destruct (CircuitBreaker.execute clock cb (EmailProvider.sendEmail (provider svc1) message) w1)
    as [[r cb'] w2].
  destruct r as [result|error]; [reflexivity|].
  destruct (Z.of_nat (S attempt) =? _); [reflexivity|].
  assert (exists sent, trace w2 = trace w1 ++ sent /\ failedAttempts sent = 0%nat)
    as (sent & Hsent & Hnone).
  { destruct Htry as [H|H]; [exists []|eexists; split; [exact H|reflexivity]].
    rewrite app_nil_r. split; [exact H|reflexivity]. }
  eapply IH.
  - unfold delay, log, emit. cbn [trace]. rewrite Hsent, Htrace, <- !app_assoc. reflexivity.
  - exact Hsome.
  - rewrite !failedAttempts_app, Hnone.
    cbn [failedAttempts List.filter isFailedAttempt String.eqb Ascii.eqb Bool.eqb length].
    change (attemptsOf (set_circuitBreakers _ svc1) (EmailMessage.id message))
      with (attemptsOf svc1 (EmailMessage.id message)).
    rewrite Hinc, Hcount. lia.
Qed.

(** What the loop does to the counter, whatever the provider reads: one more
    for every try, failed or not. *)
Lemma sendWithRetry_while_counts computeDelay (provider : EmailService -> EmailProvider.t)
    (remaining : nat) :
  forall attempt svc message cb w,
    (remaining <> 0%nat ->
     Z.of_nat (attempt + remaining) = maxAttempts (retry (options svc))) ->
    let '(r, svc', w') :=
      sendWithRetry_while computeDelay provider remaining attempt svc message cb w in
    options svc' = options svc /\
    exists new,
      trace w' = trace w ++ new /\
      emailStatuses svc' =
        alter (addAttempts (failedAttempts new + resolvedTry r))
              (EmailMessage.id message) (emailStatuses svc) /\
      match r with
      | Normal _ => (failedAttempts new < remaining)%nat
      | Throw _ => failedAttempts new = remaining
      end.
Proof.
  induction remaining as [|remaining IH]; intros attempt svc message cb w Hinv.
  - cbn [sendWithRetry_while]. split; [reflexivity|].
    exists []. rewrite app_nil_r. split; [reflexivity|].
    split; [symmetry; apply alter_addAttempts_0|reflexivity].
  - cbn [sendWithRetry_while].
    rewrite incrementAttemptCount_alter.
    set (svc1 := set_emailStatuses _ svc).
    pose proof (execute_sendEmail_trace cb (provider svc1) message w) as Htry.
    destruct (CircuitBreaker.execute clock cb (EmailProvider.sendEmail (provider svc1) message) w)
      as [[r cb'] w1].
    assert (exists sent, trace w1 = trace w ++ sent /\ failedAttempts sent = 0%nat)
      as (sent & Hsent & Hnone).
    { destruct Htry as [H|H]; [exists []|eexists; split; [exact H|reflexivity]].
      rewrite app_nil_r. split; [exact H|reflexivity]. }
    set (svc2 := set_circuitBreakers _ svc1).
    assert (emailStatuses svc2
            = alter (addAttempts 1) (EmailMessage.id message) (emailStatuses svc)) as Hst2
      by reflexivity.
    assert (options svc2 = options svc) as Hopt2 by reflexivity.
    destruct r as [result|error].
    + split; [exact Hopt2|]. exists sent. split; [exact Hsent|].
      rewrite Hnone. split; [exact Hst2|]. lia.
    + rewrite Hopt2.
      destruct (Z.of_nat (S attempt) =? maxAttempts (retry (options svc))) eqn:Hlast.
      * split; [exact Hopt2|].
        apply Z.eqb_eq in Hlast. specialize (Hinv ltac:(discriminate)).
        assert (remaining = 0%nat) as -> by lia.
        eexists. split; [|split].
        -- unfold log, emit. cbn [trace]. rewrite Hsent, <- app_assoc. reflexivity.
        -- rewrite failedAttempts_app, Hnone. exact Hst2.
        -- rewrite failedAttempts_app, Hnone. reflexivity.
      * apply Z.eqb_neq in Hlast. specialize (Hinv ltac:(discriminate)).
        match goal with
        |- context [sendWithRetry_while computeDelay provider remaining (S attempt) svc2
                      message cb' ?ww] =>
          specialize (IH (S attempt) svc2 message cb' ww);
          destruct (sendWithRetry_while computeDelay provider remaining (S attempt) svc2
                      message cb' ww)
            as [[r' svc'] w'] eqn:Hrec
        end.
        rewrite Hopt2 in IH.
        destruct IH as (Hopt & new & Htrace & Hst & Hcount); [intros _; lia|].
        split; [exact Hopt|].
        eexists. split; [|split].
        -- rewrite Htrace. unfold delay, log, emit. cbn [trace]. rewrite Hsent.
           rewrite <- !app_assoc. reflexivity.
        -- rewrite Hst, Hst2, alter_addAttempts.
           rewrite !failedAttempts_app, Hnone.
           cbn [failedAttempts List.filter isFailedAttempt
                String.eqb Ascii.eqb Bool.eqb length app Nat.add].
           f_equal. f_equal. lia.
        -- rewrite !failedAttempts_app, Hnone.
           cbn [failedAttempts List.filter isFailedAttempt
                String.eqb Ascii.eqb Bool.eqb length app Nat.add].
           destruct r'; lia.
Qed.

(** *** A provider that fails [k] times, then succeeds *)

Lemma sendWithRetry_loop_after_failures (k : nat) :
  forall remaining attempt svc message provider cb w,
    (k < remaining)%nat ->
    Z.of_nat (attempt + remaining) = maxAttempts (retry (options svc)) ->
    CircuitBreaker.state cb = CircuitBreaker.closed ->
    Z.of_nat (length (CircuitBreaker.failureHistory cb) + k)
      < failureThreshold (CircuitBreaker.options cb) ->
    failsUntil provider message (callsTo (EmailProvider.name provider) w + k) ->
    let '(r, _, w') := sendWithRetry_loop remaining attempt svc message provider cb w in
    exists result new,
      r = Normal result /\ EmailResult.success result = true /\
      trace w' = trace w ++ new /\ failedAttempts new = k.
Proof.
  induction k as [|k IH]; intros remaining attempt svc message provider cb w
    Hbudget Hinv Hclosed Hfew [Hfails Hsucceeds];
    (destruct remaining as [|remaining]; [lia|]); sendWithRetry_loop_step;
    rewrite execute_not_open by congruence;
    unfold CircuitBreaker.settle, EmailProvider.sendEmail.
  - destruct (Hsucceeds w ltac:(lia)) as (result & -> & Hsuccess).
    exists result. eexists. split; [reflexivity|]. split; [exact Hsuccess|].
    split; reflexivity.
  - destruct (Hfails w ltac:(lia)) as (error & ->).
    cbn [options set_circuitBreakers]. rewrite incrementAttemptCount_options.
    destruct (Z.eqb_spec (Z.of_nat (S attempt)) (maxAttempts (retry (options svc))))
      as [Hlast|_]; [lia|].
    match goal with |- context [CircuitBreaker.onFailure cb ?now] =>
      destruct (onFailure_stays_closed cb now Hclosed ltac:(lia)) as (Hclosed' & Hlen & Ho)
    end.
    match goal with
    |- context [sendWithRetry_loop remaining (S attempt) ?s message provider ?c ?ww] =>
      specialize (IH remaining (S attempt) s message provider c ww);
      destruct (sendWithRetry_loop remaining (S attempt) s message provider c ww)
        as [[r' svc'] w'] eqn:Hrec
    end.
    assert (forall level text context ms,
              callsTo (EmailProvider.name provider)
                (delay ms (log level text context
                   {| clock := clock w
                               + EmailProvider.latency
                                   (EmailProvider.behaviour provider w message);
                      trace := trace w ++ [EvSend (EmailProvider.name provider) message] |}))
              = S (callsTo (EmailProvider.name provider) w)) as Hcalls.
    { intros. unfold callsTo, delay, log, emit. cbn [trace].
      rewrite !List.filter_app, !length_app. cbn [List.filter length].
      rewrite String.eqb_refl. cbn [length]. lia. }
    destruct IH as (result & new & -> & Hsuccess & Htrace & Hfailed).
    + lia.
    + cbn [options set_circuitBreakers]. rewrite incrementAttemptCount_options. lia.
    + exact Hclosed'.
    + rewrite Ho. lia.
    + rewrite Hcalls. split.
      * intros w0 Hw0. apply Hfails. lia.
      * intros w0 Hw0. apply Hsucceeds. lia.
    + exists result. eexists. split; [reflexivity|]. split; [exact Hsuccess|].
      split; [rewrite Htrace; unfold delay, log, emit; cbn [trace];
              rewrite <- !app_assoc; reflexivity|].
      rewrite !failedAttempts_app, Hfailed. reflexivity.
Qed.

Lemma sendWithRetryAndFallback_loop_spec (rest : list EmailProvider.t) :
  forall lastError svc message w,
    let '(r, svc', w') := sendWithRetryAndFallback_loop rest lastError svc message w in
    sameBookkeeping svc svc' /\
    exists result new,
      r = Normal result /\
      trace w' = trace w ++ new /\
      emailStatuses svc' =
        alter (addAttempts (failedAttempts new + successfulAttempts new))
              (EmailMessage.id message) (emailStatuses svc) /\
      ((successfulAttempts new = 1%nat /\
        exists provider w0,
          In provider rest /\
          EmailProvider.outcome (EmailProvider.behaviour provider w0 message)
          = Normal result)
       \/
       (successfulAttempts new = 0%nat /\
        exists errorMessage,
          result = allProvidersFailed errorMessage (clock w') /\
          (0 < maxAttempts (retry (options svc)) ->
           errorMessage =
             or_string (match lastAttemptError new with
                        | Some e => Some e
                        | None => lastError
                        end) "All providers failed"))).
Proof.
  induction rest as [|provider rest IH]; intros lastError svc message w.
  - cbn [sendWithRetryAndFallback_loop]. split; [apply sameBookkeeping_refl|].
    eexists. eexists. split; [reflexivity|]. split; [reflexivity|].
    split; [symmetry; apply alter_addAttempts_0|].
    right. split; [reflexivity|]. eexists. split; [reflexivity|]. intros _. reflexivity.
  - cbn [sendWithRetryAndFallback_loop].
    destruct (circuitBreakers svc !! EmailProvider.name provider) as [cb|].
    + pose proof (sendWithRetry_spec svc message provider cb w) as Hretry.
      destruct (sendWithRetry svc message provider cb w) as [[r svc1] w1].
      destruct Hretry as (Hsame1 & new1 & Htrace1 & Hst1 & Hsucc1 & Hres1).
      destruct r as [result|error].
      * split; [exact Hsame1|]. exists result. eexists.
        split; [reflexivity|]. split; [|split].
        -- unfold log, emit. cbn [trace]. rewrite Htrace1, <- app_assoc. reflexivity.
        -- rewrite Hst1, failedAttempts_app, successfulAttempts_app, Hsucc1.
           f_equal. f_equal. cbn. lia.
        -- left. split; [rewrite successfulAttempts_app, Hsucc1; reflexivity|].
           destruct Hres1 as [w0 Hw0]. exists provider, w0. split; [left; reflexivity|exact Hw0].
      * match goal with |- context [sendWithRetryAndFallback_loop rest ?le svc1 message ?ww] =>
          specialize (IH le svc1 message ww);
          destruct (sendWithRetryAndFallback_loop rest le svc1 message ww)
            as [[r' svc'] w'] eqn:Hrec
        end.
        destruct IH as (Hsame & result & new & -> & Htrace & Hst & Hcases).
        split; [exact (sameBookkeeping_trans _ _ _ Hsame1 Hsame)|].
        exists result. eexists. split; [reflexivity|]. split; [|split].
        -- rewrite Htrace. unfold log, emit. cbn [trace]. rewrite Htrace1.
           rewrite <- !app_assoc. reflexivity.
        -- rewrite Hst, Hst1, alter_addAttempts.
           rewrite !failedAttempts_app, !successfulAttempts_app, Hsucc1.
           f_equal. f_equal. cbn. lia.
        -- destruct Hcases as [(Hone & p & w0 & Hin & Hw0)|(Hzero & msg & Hres & Hmsg)].
           ++ left. split; [rewrite !successfulAttempts_app, Hsucc1, Hone; reflexivity|].
              exists p, w0. split; [right; exact Hin|exact Hw0].
           ++ right. split; [rewrite !successfulAttempts_app, Hsucc1, Hzero; reflexivity|].
              exists msg. split; [exact Hres|]. intros Hpos.
              destruct Hsame1 as (_ & Hopt & _). rewrite Hopt in Hmsg.
              rewrite (Hmsg Hpos). rewrite !lastAttemptError_app.
              rewrite (Hres1 Hpos). cbn [lastAttemptError omap list_omap attemptError last].
              destruct (lastAttemptError new); reflexivity.
    + specialize (IH lastError svc message w).
      destruct (sendWithRetryAndFallback_loop rest lastError svc message w) as [[r' svc'] w'].
      destruct IH as (Hsame & result & new & -> & Htrace & Hst & Hcases).
      split; [exact Hsame|]. exists result, new. repeat (split; [assumption || reflexivity|]).
      destruct Hcases as [(Hone & p & w0 & Hin & Hw0)|Hfail]; [left|right; exact Hfail].
      split; [exact Hone|]. exists p, w0. split; [right; exact Hin|exact Hw0].
Qed.

(** ** Properties of [sendEmail] *)


Lemma or_string_some s fallback : s <> "" -> or_string (Some s) fallback = s.
Proof. intros Hs. unfold or_string. apply String.eqb_neq in Hs. rewrite Hs. reflexivity. Qed.

Lemma or_number_some n fallback : n <> 0 -> or_number (Some n) fallback = n.
Proof. intros Hn. unfold or_number. apply Z.eqb_neq in Hn. rewrite Hn. reflexivity. Qed.

Lemma status_eqb_eq a b : EmailStatus.status_eqb a b = true <-> a = b.
Proof. destruct a, b; simpl; split; congruence. Qed.

Lemma recordedSuccess_Some svc messageId status :
  recordedSuccess svc messageId = Some status <->
  messageId ∈ sentEmails svc /\ emailStatuses svc !! messageId = Some status /\
  EmailStatus.status status = EmailStatus.sent.
Proof.
  unfold recordedSuccess. destruct (decide (messageId ∈ sentEmails svc)) as [Hin|Hout].
  - destruct (emailStatuses svc !! messageId) as [st|].
    + destruct (EmailStatus.status_eqb (EmailStatus.status st) EmailStatus.sent) eqn:Hs.
      * apply status_eqb_eq in Hs. split.
        -- intros [= <-]. auto.
        -- intros (_ & [= <-] & _). reflexivity.
      * split; [discriminate|]. intros (_ & [= <-] & Hsent).
        apply status_eqb_eq in Hsent. congruence.
    + split; [discriminate|]. intros (_ & ? & _). discriminate.
  - split; [discriminate|]. intros (? & _). contradiction.
Qed.

(** C1, as the code has it.  When the identifier of the message is in
    [sentEmails] and its status is ['sent'], [sendEmail] returns a success
    and changes nothing in the service (so the attempt counter is unchanged);
    it only writes one log entry: the clock does not move and no provider is
    called.  The provider of the outcome is the recorded provider, except
    that a missing or empty recorded provider is reported as 'unknown'; its
    timestamp is the recorded time of the last attempt, except that a
    missing or zero recorded time is replaced by the current time. *)
Theorem resend_of_sent_message_short_circuits
    (svc : EmailService) (message : EmailMessage.t) (w : World) (status : EmailStatus.t) :
  EmailMessage.id message ∈ sentEmails svc ->
  emailStatuses svc !! EmailMessage.id message = Some status ->
  EmailStatus.status status = EmailStatus.sent ->
  exists result w',
    sendEmail svc message w = (Normal result, svc, w') /\
    EmailResult.success result = true /\
    EmailResult.provider result = or_string (EmailStatus.provider status) "unknown" /\
    EmailResult.timestamp result = or_number (EmailStatus.lastAttempt status) (clock w) /\
    (forall provider, EmailStatus.provider status = Some provider -> provider <> "" ->
       EmailResult.provider result = provider) /\
    (forall time, EmailStatus.lastAttempt status = Some time -> time <> 0 ->
       EmailResult.timestamp result = time) /\
    clock w' = clock w /\
    trace w' = trace w ++ [EvLog Logger.info "Email already sent (idempotency check)"
                             [("messageId", VString (EmailMessage.id message))]] /\
    providerCalls (trace w') = providerCalls (trace w) /\
    attemptsOf svc (EmailMessage.id message) = EmailStatus.attempts status.
Proof.
  intros Hin Hst Hsent.
  assert (recordedSuccess svc (EmailMessage.id message) = Some status) as Hrec
    by (apply recordedSuccess_Some; auto).
  eexists. eexists. split; [unfold sendEmail; rewrite Hrec; reflexivity|].
  cbn [EmailResult.success EmailResult.provider EmailResult.timestamp log emit clock trace].
  repeat split.
  - intros provider -> Hne. apply or_string_some, Hne.
  - intros time -> Hne. apply or_number_some, Hne.
  - unfold providerCalls. rewrite List.filter_app. cbn. apply app_nil_r.
  - unfold attemptsOf. rewrite Hst. reflexivity.
Qed.

(** C1 as stated fails: after a successful send whose result names the
    provider [""], that name is what the status records, and the second call
    for the same identifier answers 'unknown'. *)
Lemma resend_does_not_return_recorded_provider :
  let '(svc, w) := resendScenario in
  let '(second, _, _) := sendEmail svc (createTestMessage "test-1") w in
  "test-1" ∈ sentEmails svc /\
  (EmailStatus.status <$> emailStatuses svc !! "test-1") = Some EmailStatus.sent /\
  (EmailStatus.provider <$> emailStatuses svc !! "test-1") = Some (Some "") /\
  (exists result, second = Normal result /\ EmailResult.provider result = "unknown") /\
  ~ (forall result recorded,
       second = Normal result ->
       (EmailStatus.provider <$> emailStatuses svc !! "test-1") = Some (Some recorded) ->
       EmailResult.provider result = recorded).
Proof.
  vm_compute. split; [reflexivity|]. split; [reflexivity|]. split; [reflexivity|].
  split; [eexists; split; reflexivity|].
  intros H. specialize (H _ "" eq_refl eq_refl). discriminate.
Qed.

Lemma resend_of_sent_message_short_circuits_witness :
  exists result w',
    sendEmail (fst sentScenario) (createTestMessage "test-1") (snd sentScenario)
    = (Normal result, fst sentScenario, w') /\
    EmailResult.provider result = "Provider A" /\
    EmailResult.timestamp result = 1000100.
Proof.
  edestruct (resend_of_sent_message_short_circuits
               (fst sentScenario) (createTestMessage "test-1") (snd sentScenario))
    as (result & w' & Hsend & _ & _ & _ & Hprovider & Htime & _).
  - vm_compute. reflexivity.
  - vm_compute. reflexivity.
  - reflexivity.
  - exists result, w'. split; [exact Hsend|]. split.
    + apply Hprovider; [reflexivity|discriminate].
    + apply Htime; [reflexivity|discriminate].
Defined.

(** What [sendEmail] does once it dispatches the message. *)
Lemma sendEmail_delivery svc message w :
  dispatches svc message w ->
  let '(r, svc', w') := sendEmail svc message w in
  exists result new status,
    r = Normal result /\
    trace w' = trace w ++ new /\
    emailStatuses svc' !! EmailMessage.id message = Some status /\
    (forall other, other <> EmailMessage.id message ->
       emailStatuses svc' !! other = emailStatuses svc !! other) /\
    EmailStatus.attempts status = (failedAttempts new + successfulAttempts new)%nat /\
    EmailStatus.lastAttempt status = Some (clock w') /\
    ((EmailResult.success result = true /\
      successfulAttempts new = 1%nat /\
      EmailStatus.status status = EmailStatus.sent /\
      EmailStatus.provider status = Some (EmailResult.provider result) /\
      sentEmails svc' = {[EmailMessage.id message]} ∪ sentEmails svc /\
      exists provider w0,
        In provider (providers svc) /\
        EmailProvider.outcome (EmailProvider.behaviour provider w0 message) = Normal result)
     \/
     (EmailResult.success result = false /\
      EmailStatus.status status = EmailStatus.failed /\
      EmailStatus.error status = EmailResult.error result /\
      sentEmails svc' = sentEmails svc /\
      ((exists provider w0,
          In provider (providers svc) /\
          EmailProvider.outcome (EmailProvider.behaviour provider w0 message)
          = Normal result)
       \/
       (successfulAttempts new = 0%nat /\
        exists errorMessage,
          result = allProvidersFailed errorMessage (clock w') /\
          (0 < maxAttempts (retry (options svc)) ->
           errorMessage = or_string (lastAttemptError new) "All providers failed"))))).
Proof.
  intros (Hrec & Hopen & Hgranted). unfold sendEmail. rewrite Hrec, Hopen.
  destruct (RateLimiter.acquire (rateLimiter svc) (clock w)) as [granted limiter].
  simpl in Hgranted. subst granted. cbn [negb].
  set (status0 := {| EmailStatus.messageId := EmailMessage.id message;
                     EmailStatus.status := EmailStatus.sending |}).
  set (svc2 := updateStatus (set_rateLimiter limiter svc) (EmailMessage.id message) status0).
  unfold sendWithRetryAndFallback.
  pose proof (sendWithRetryAndFallback_loop_spec (providers svc2) None svc2 message w) as H.
  destruct (sendWithRetryAndFallback_loop (providers svc2) None svc2 message w)
    as [[r svc3] w3].
  destruct H as (Hsame & result & new & -> & Htrace & Hst & Hcases).
  destruct Hsame as (_ & _ & _ & Hsent & _).
  assert (emailStatuses svc3
          = <[EmailMessage.id message :=
                addAttempts (failedAttempts new + successfulAttempts new) status0]>
              (emailStatuses svc)) as Hst3.
  { rewrite Hst. unfold svc2, updateStatus. cbn [emailStatuses set_emailStatuses set_rateLimiter].
    apply alter_insert_eq. }
  assert (attemptsOf svc3 (EmailMessage.id message)
          = (failedAttempts new + successfulAttempts new)%nat) as Hattempts.
  { unfold attemptsOf. rewrite Hst3, lookup_insert_eq. cbn. lia. }
  exists result, new.
  destruct (EmailResult.success result) eqn:Hsuccess.
  - eexists. split; [reflexivity|]. split; [exact Htrace|].
    split; [unfold updateStatus; cbn [emailStatuses set_emailStatuses set_sentEmails];
            apply lookup_insert_eq|].
    split.
    { intros other Hother. unfold updateStatus.
      cbn [emailStatuses set_emailStatuses set_sentEmails].
      rewrite lookup_insert_ne by congruence. rewrite Hst3.
      apply lookup_insert_ne. congruence. }
    split; [exact Hattempts|]. split; [reflexivity|].
    left. split; [reflexivity|].
    destruct Hcases as [(Hone & p & w0 & Hin & Hw0)|(_ & msg & -> & _)]; [|discriminate].
    split; [exact Hone|]. split; [reflexivity|]. split; [reflexivity|].
    split; [cbn [sentEmails set_sentEmails updateStatus set_emailStatuses]; rewrite Hsent;
            reflexivity|].
    exists p, w0. split; [exact Hin|exact Hw0].
  - eexists. split; [reflexivity|]. split; [exact Htrace|].
    split; [unfold updateStatus; cbn [emailStatuses set_emailStatuses];
            apply lookup_insert_eq|].
    split.
    { intros other Hother. unfold updateStatus. cbn [emailStatuses set_emailStatuses].
      rewrite lookup_insert_ne by congruence. rewrite Hst3.
      apply lookup_insert_ne. congruence. }
    split; [exact Hattempts|]. split; [reflexivity|].
    right. split; [reflexivity|]. split; [reflexivity|]. split; [reflexivity|].
    split; [exact Hsent|].
    destruct Hcases as [(Hone & p & w0 & Hin & Hw0)|(Hzero & msg & Hres & Hmsg)].
    + left. exists p, w0. split; [exact Hin|exact Hw0].
    + right. split; [exact Hzero|]. exists msg. split; [exact Hres|].
      intros Hpos. rewrite (Hmsg Hpos). destruct (lastAttemptError new); reflexivity.
Qed.

(** A successful delivery is what records a success: the identifier enters
    [sentEmails] and the status becomes ['sent'], with the provider named by
    the result and the time at which the result was recorded. *)
Lemma successful_send_is_recorded svc message w :
  dispatches svc message w ->
  let '(r, svc', w') := sendEmail svc message w in
  forall result, r = Normal result -> EmailResult.success result = true ->
    exists status,
      recordedSuccess svc' (EmailMessage.id message) = Some status /\
      EmailStatus.provider status = Some (EmailResult.provider result) /\
      EmailStatus.lastAttempt status = Some (clock w').
Proof.
  intros Hdispatch. pose proof (sendEmail_delivery svc message w Hdispatch) as H.
  destruct (sendEmail svc message w) as [[r svc'] w'].
  destruct H as (result & new & status & -> & _ & Hst & _ & _ & Hlast & Hcases).
  intros result' [= <-] Hsuccess.
  destruct Hcases as [(_ & _ & Hsent & Hprovider & Hset & _)|(Hfalse & _)]; [|congruence].
  exists status. split; [|split; assumption].
  apply recordedSuccess_Some.
  split; [rewrite Hset; apply elem_of_union; left; apply elem_of_singleton; reflexivity|].
  split; assumption.
Qed.

(** The "retry count" property.  The first provider fails its next [k]
    calls and succeeds afterwards, [k] is below [maxAttempts], and its breaker
    is closed with room for [k] more failures: the message is sent and the
    attempt counter of its status is [k + 1]. *)
Lemma retry_count_after_k_failures svc message w provider rest cb k :
  dispatches svc message w ->
  providers svc = provider :: rest ->
  circuitBreakers svc !! EmailProvider.name provider = Some cb ->
  CircuitBreaker.state cb = CircuitBreaker.closed ->
  Z.of_nat (length (CircuitBreaker.failureHistory cb) + k)
    < failureThreshold (CircuitBreaker.options cb) ->
  Z.of_nat k < maxAttempts (retry (options svc)) ->
  failsUntil provider message (callsTo (EmailProvider.name provider) w + k) ->
  let '(r, svc', w') := sendEmail svc message w in
  exists result status,
    r = Normal result /\ EmailResult.success result = true /\
    getEmailStatus svc' (EmailMessage.id message) = Some status /\
    EmailStatus.status status = EmailStatus.sent /\
    EmailStatus.attempts status = (k + 1)%nat.
Proof.
  intros Hdispatch Hproviders Hbreaker Hclosed Hroom Hbudget Hprovider.
  pose proof (sendEmail_delivery svc message w Hdispatch) as H.
  destruct (sendEmail svc message w) as [[r svc'] w'] eqn:Hrun.
  destruct H as (result & new & status & -> & Htrace & Hst & _ & Hattempts & _ & Hcases).
  assert (exists result0 new0,
            EmailResult.success result0 = true /\ failedAttempts new0 = k /\
            Normal result = Normal result0 /\
            exists e, trace w' = trace w ++ new0 ++ [e] /\ failedAttempts [e] = 0%nat)
    as (result0 & new0 & Hsuccess & Hfailed & [= <-] & e & Htrace' & He).
  { destruct Hdispatch as (Hrec & Hopen & Hgranted).
    unfold sendEmail in Hrun. rewrite Hrec, Hopen in Hrun.
    destruct (RateLimiter.acquire (rateLimiter svc) (clock w)) as [granted limiter].
    cbn [fst] in Hgranted. subst granted. cbn [negb] in Hrun.
    match type of Hrun with
    | context [sendWithRetryAndFallback ?s message w] => set (svc2 := s) in Hrun
    end.
    assert (providers svc2 = provider :: rest) as Hproviders2 by exact Hproviders.
    assert (circuitBreakers svc2 !! EmailProvider.name provider = Some cb) as Hbreaker2
      by exact Hbreaker.
    assert (options svc2 = options svc) as Hoptions2 by reflexivity.
    unfold sendWithRetryAndFallback in Hrun. rewrite Hproviders2 in Hrun.
    cbn [sendWithRetryAndFallback_loop] in Hrun. rewrite Hbreaker2 in Hrun.
    unfold sendWithRetry in Hrun.
    match type of Hrun with
    | context [sendWithRetry_loop ?n 0 svc2 message provider cb w] =>
        pose proof (sendWithRetry_loop_after_failures k n 0 svc2 message provider cb w)
          as Hloop;
        destruct (sendWithRetry_loop n 0 svc2 message provider cb w) as [[r0 svc0] w0]
    end.
    rewrite Hoptions2 in Hloop.
    destruct Hloop as (result0 & new0 & -> & Hsuccess & Htrace0 & Hfailed);
      [lia|lia|exact Hclosed|exact Hroom|exact Hprovider|].
    rewrite Hsuccess in Hrun. injection Hrun as Hr _ Hw.
    exists result0, new0. split; [exact Hsuccess|]. split; [exact Hfailed|].
    split; [rewrite Hr; reflexivity|]. eexists. split.
    - rewrite <- Hw. unfold log, emit. cbn [trace]. rewrite Htrace0, <- app_assoc.
      reflexivity.
    - reflexivity. }
  rewrite Htrace in Htrace'. apply app_inv_head in Htrace'. subst new.
  exists result, status. split; [reflexivity|]. split; [exact Hsuccess|].
  split; [exact Hst|].
  destruct Hcases as [(_ & Hone & Hsent & _)|(Hfalse & _)]; [|congruence].
  split; [exact Hsent|].
  rewrite Hattempts, Hone, failedAttempts_app, Hfailed, He. lia.
Qed.

(** C7, as the code has it.  The counter belongs to the message, not to the
    provider, and every iteration of the retry loop increments it by one
    before the breaker and the provider run.

    - Before the try executes: the provider is only called in states of the
      service in which the counter already counts the try being made;
      providers that answer alike in those states (the counter reads its
      value at the start of the call, plus the failed tries logged since,
      plus one) give the same run.
    - Exactly once: [sendWithRetry] leaves the counter at what it found plus
      the number of tries made, failed (also those an open breaker turned
      away) or successful; fewer than [maxAttempts] tries fail when it
      returns, exactly [maxAttempts] when it throws.
    - For a dispatched message, whose counter [sendEmail] has set to 0, the
      status ends with the number of tries made through all the providers.
    - So [k] failures followed by a success give [k + 1] for the first
      provider: when it fails its next [k] calls and then succeeds, with [k]
      below [maxAttempts] and its breaker closed with room for [k] more
      failures, the message is sent with a counter of [k + 1]. *)
Theorem attempt_counter_counts_every_try
    (Math_pow : Double.t -> Double.t -> Double.t)
    (svc : EmailService) (message : EmailMessage.t) (w : World) :
  (forall (provider other : EmailService -> EmailProvider.t) circuitBreaker status,
     emailStatuses svc !! EmailMessage.id message = Some status ->
     (forall svc0 w0 earlier,
        trace w0 = trace w ++ earlier ->
        attemptsOf svc0 (EmailMessage.id message)
        = S (EmailStatus.attempts status + failedAttempts earlier) ->
        EmailProvider.name (other svc0) = EmailProvider.name (provider svc0) /\
        EmailProvider.behaviour (other svc0) w0 message
        = EmailProvider.behaviour (provider svc0) w0 message) ->
     sendWithRetry64 Math_pow svc message other circuitBreaker w
     = sendWithRetry64 Math_pow svc message provider circuitBreaker w)
  /\
  (forall (provider : EmailService -> EmailProvider.t) circuitBreaker status,
     emailStatuses svc !! EmailMessage.id message = Some status ->
     let '(r, svc', w') := sendWithRetry64 Math_pow svc message provider circuitBreaker w in
     exists new,
       trace w' = trace w ++ new /\
       attemptsOf svc' (EmailMessage.id message)
       = (EmailStatus.attempts status + failedAttempts new + resolvedTry r)%nat /\
       match r with
       | Normal _ => Z.of_nat (failedAttempts new) < maxAttempts (retry (options svc))
       | Throw _ => failedAttempts new = Z.to_nat (maxAttempts (retry (options svc)))
       end)
  /\
  (dispatches svc message w ->
   let '(r, svc', w') := sendEmail svc message w in
   exists result new status,
     r = Normal result /\
     trace w' = trace w ++ new /\
     getEmailStatus svc' (EmailMessage.id message) = Some status /\
     EmailStatus.attempts status = (failedAttempts new + successfulAttempts new)%nat /\
     (EmailResult.success result = true ->
      successfulAttempts new = 1%nat /\
      EmailStatus.attempts status = (failedAttempts new + 1)%nat))
  /\
  (forall provider rest cb k,
     dispatches svc message w ->
     providers svc = provider :: rest ->
     circuitBreakers svc !! EmailProvider.name provider = Some cb ->
     CircuitBreaker.state cb = CircuitBreaker.closed ->
     Z.of_nat (length (CircuitBreaker.failureHistory cb) + k)
       < failureThreshold (CircuitBreaker.options cb) ->
     Z.of_nat k < maxAttempts (retry (options svc)) ->
     failsUntil provider message (callsTo (EmailProvider.name provider) w + k) ->
     let '(r, svc', _) := sendEmail svc message w in
     exists result status,
       r = Normal result /\ EmailResult.success result = true /\
       getEmailStatus svc' (EmailMessage.id message) = Some status /\
       EmailStatus.status status = EmailStatus.sent /\
       EmailStatus.attempts status = (k + 1)%nat).
Proof.
  split; [|split; [|split]].
  - intros provider other cb status Hst Hsame. unfold sendWithRetry64.
    apply (sendWithRetry_while_counts_first _ provider other message w
             (EmailStatus.attempts status) Hsame _ _ svc cb w []).
    + symmetry. apply app_nil_r.
    + eexists. exact Hst.
    + unfold attemptsOf. rewrite Hst. cbn. lia.
  - intros provider cb status Hst. unfold sendWithRetry64.
    pose proof (sendWithRetry_while_counts
                  (fun r attempt => Double.toQ (backoffDelay64 Math_pow r attempt)) provider
                  (Z.to_nat (maxAttempts (retry (options svc)))) 0 svc message cb w) as H.
    destruct (sendWithRetry_while _ _ _ _ _ _ _ _) as [[r svc'] w'].
    destruct H as (_ & new & Htrace & Hstatuses & Hcount); [lia|].
    exists new. split; [exact Htrace|]. split.
    + unfold attemptsOf. rewrite Hstatuses, lookup_alter_eq, Hst. cbn. lia.
    + destruct r; lia.
  - intros Hdispatch.
    pose proof (sendEmail_delivery svc message w Hdispatch) as H.
    destruct (sendEmail svc message w) as [[r svc'] w'].
    destruct H as (result & new & status & -> & Htrace & Hst & _ & Hattempts & _ & Hcases).
    exists result, new, status. repeat (split; [assumption || reflexivity|]).
    intros Hsuccess.
    destruct Hcases as [(_ & Hone & _)|(Hfalse & _)]; [|congruence].
    split; [exact Hone|]. rewrite Hattempts, Hone. reflexivity.
  - intros provider rest cb k Hdispatch Hproviders Hbreaker Hclosed Hroom Hbudget Hprovider.
    pose proof (retry_count_after_k_failures svc message w provider rest cb k Hdispatch
                  Hproviders Hbreaker Hclosed Hroom Hbudget Hprovider) as H.
    destruct (sendEmail svc message w) as [[r svc'] w']. exact H.
Qed.

Lemma mockProvider_failsUntil name reported failures message :
  failsUntil (mockProvider name reported failures) message failures.
Proof.
  split; intros w Hcalls; cbn [mockProvider EmailProvider.behaviour EmailProvider.outcome
                               EmailProvider.name] in *.
  - apply Nat.ltb_lt in Hcalls. rewrite Hcalls. eexists. reflexivity.
  - apply Nat.ltb_ge in Hcalls. rewrite Hcalls. eexists. split; reflexivity.
Qed.

(** The retry test: two failures, then a success, and a counter of 3.  And a
    provider that reports the counter it reads as its error: its three tries
    read 1, 2 and 3. *)
Lemma attempt_counter_counts_every_try_witness :
  dispatches (fst retryScenario) (createTestMessage "test-1") (snd retryScenario) /\
  (let '(r, svc', _) :=
     sendEmail (fst retryScenario) (createTestMessage "test-1") (snd retryScenario) in
   exists result status,
     r = Normal result /\ EmailResult.success result = true /\
     getEmailStatus svc' "test-1" = Some status /\
     EmailStatus.status status = EmailStatus.sent /\
     EmailStatus.attempts status = 3%nat) /\
  (let '(_, svc', w') := probeRun in
   omap attemptError (trace w') = ["1"; "2"; "3"] /\
   attemptsOf svc' "test-1" = 3%nat).
Proof.
  assert (dispatches (fst retryScenario) (createTestMessage "test-1") (snd retryScenario))
    as Hdispatch by (vm_compute; repeat split).
  split; [exact Hdispatch|]. split.
  - destruct (attempt_counter_counts_every_try roundedPow (fst retryScenario)
                (createTestMessage "test-1") (snd retryScenario))
      as (_ & _ & _ & Hscenario).
    apply (Hscenario (mockProvider "Provider A" "Provider A" 2)
             [mockProvider "Provider B" "Provider B" 0]
             (CircuitBreaker.new (circuitBreaker testOptions)) 2%nat).
    + exact Hdispatch.
    + reflexivity.
    + vm_compute. reflexivity.
    + reflexivity.
    + vm_compute. reflexivity.
    + vm_compute. reflexivity.
    + apply mockProvider_failsUntil.
  - vm_compute. split; reflexivity.
Defined.

(** C7 as stated fails for a provider that is not the first to be tried:
    Provider A uses up its three attempts, Provider B then fails once and
    succeeds, and the counter of the delivered message is 5, not 1 + 1. *)
Lemma later_provider_does_not_count_from_zero :
  let '(r, svc', w') :=
    sendEmail (fst handoverScenario) (createTestMessage "test-1") (snd handoverScenario) in
  (exists result,
     r = Normal result /\ EmailResult.success result = true /\
     EmailResult.provider result = "Provider B") /\
  failsUntil (mockProvider "Provider B" "Provider B" 1) (createTestMessage "test-1") 1 /\
  callsTo "Provider B" w' = 2%nat /\
  (EmailStatus.attempts <$> getEmailStatus svc' "test-1") = Some 5%nat /\
  (EmailStatus.attempts <$> getEmailStatus svc' "test-1") <> Some (1 + 1)%nat.
Proof.
  pose proof (mockProvider_failsUntil "Provider B" "Provider B" 1 (createTestMessage "test-1"))
    as Hfails.
  vm_compute. split; [eexists; repeat split|]. split; [exact Hfails|].
  split; [reflexivity|]. split; [reflexivity|discriminate].
Qed.

(** *** The error caught last *)









(** ** The deferred queue *)

Lemma quiet_nil : quiet [].
Proof. repeat split. Qed.

Lemma quiet_app a b : quiet a -> quiet b -> quiet (a ++ b).
Proof.
  intros (Hf & Hs & Hp) (Hf' & Hs' & Hp'). unfold quiet, providerCalls in *.
  rewrite failedAttempts_app, successfulAttempts_app, List.filter_app, Hf, Hs, Hp, Hf', Hs', Hp'.
  repeat split.
Qed.

Lemma processQueue_loop_frame svc w :
  let '(svc', w') := processQueue_loop svc w in
  sameLedger svc svc' /\ emailQueue svc' = emailQueue svc /\
  exists new, trace w' = trace w ++ new /\ quiet new.
Proof.
  unfold processQueue_loop. destruct (emailQueue svc) as [|m rest] eqn:Hq.
  - split; [repeat split|]. split; [cbn; congruence|].
    eexists. split; [reflexivity|]. repeat split.
  - destruct (allCircuitBreakersOpen svc).
    + split; [repeat split|]. split; [cbn; congruence|].
      eexists. split; [unfold emit, log; cbn [trace emit]; rewrite <- app_assoc; reflexivity|].
      repeat split.
    + destruct (RateLimiter.acquire (rateLimiter svc) (clock w)) as [granted limiter].
      split; [repeat split|]. split; [cbn; congruence|].
      exists []. rewrite app_nil_r. split; [reflexivity|apply quiet_nil].
Qed.

Lemma processQueue_frame svc w :
  let '(svc', w') := processQueue svc w in
  sameLedger svc svc' /\ emailQueue svc' = emailQueue svc /\
  exists new, trace w' = trace w ++ new /\ quiet new.
Proof.
  unfold processQueue. destruct (isProcessingQueue svc || _).
  - split; [repeat split|]. split; [reflexivity|].
    exists []. rewrite app_nil_r. split; [reflexivity|apply quiet_nil].
  - match goal with |- context [processQueue_loop ?s ?ww] =>
      pose proof (processQueue_loop_frame s ww) as H;
      destruct (processQueue_loop s ww) as [svc' w']
    end.
    destruct H as (Hledger & Hqueue & new & Htrace & Hquiet).
    split; [exact Hledger|]. split; [exact Hqueue|].
    eexists. split; [rewrite Htrace; unfold log, emit; cbn [trace]; rewrite <- app_assoc;
                     reflexivity|].
    apply quiet_app; [repeat split|exact Hquiet].
Qed.

Lemma addToQueue_spec svc message w :
  let '(svc', w') := addToQueue svc message w in
  providers svc' = providers svc /\ options svc' = options svc /\
  circuitBreakers svc' = circuitBreakers svc /\ sentEmails svc' = sentEmails svc /\
  emailStatuses svc' =
    <[EmailMessage.id message := queuedStatus message (clock w)]> (emailStatuses svc) /\
  emailQueue svc' = emailQueue svc ++ [message] /\
  exists new, trace w' = trace w ++ new /\ quiet new.
Proof.
  unfold addToQueue.
  match goal with |- context [processQueue ?s ?ww] =>
    pose proof (processQueue_frame s ww) as H; destruct (processQueue s ww) as [svc' w']
  end.
  destruct H as ((Hp & Ho & Hc & Hs & Hsent) & Hqueue & new & Htrace & Hquiet).
  repeat (split; [assumption|]).
  eexists. split; [rewrite Htrace; unfold log, emit; cbn [trace]; rewrite <- app_assoc;
                   reflexivity|].
  apply quiet_app; [repeat split|exact Hquiet].
Qed.

(** A message that is not recorded as sent and does not pass the gates is
    queued: its status is replaced by a fresh ['queued'] one. *)
Lemma sendEmail_queues svc message w :
  recordedSuccess svc (EmailMessage.id message) = None ->
  allCircuitBreakersOpen svc = true \/
  fst (RateLimiter.acquire (rateLimiter svc) (clock w)) = false ->
  let '(r, svc', w') := sendEmail svc message w in
  exists result new,
    r = Normal result /\
    EmailResult.success result = false /\
    EmailResult.provider result = "queue" /\
    (allCircuitBreakersOpen svc = true ->
     EmailResult.error result
     = Some "All providers temporarily unavailable. Email queued for retry.") /\
    providers svc' = providers svc /\ options svc' = options svc /\
    circuitBreakers svc' = circuitBreakers svc /\
    sentEmails svc' = sentEmails svc /\
    emailStatuses svc' =
      <[EmailMessage.id message := queuedStatus message (clock w)]> (emailStatuses svc) /\
    emailQueue svc' = emailQueue svc ++ [message] /\
    trace w' = trace w ++ new /\ quiet new.
Proof.
  intros Hrec Hgate. unfold sendEmail. rewrite Hrec.
  destruct (allCircuitBreakersOpen svc) eqn:Hopen.
  - match goal with |- context [addToQueue svc message ?ww] =>
      pose proof (addToQueue_spec svc message ww) as H;
      destruct (addToQueue svc message ww) as [svc' w']
    end.
    destruct H as (Hp & Ho & Hc & Hs & Hst & Hq & new & Htrace & Hquiet).
    eexists. eexists. split; [reflexivity|]. split; [reflexivity|]. split; [reflexivity|].
    split; [reflexivity|]. repeat (split; [assumption|]).
    split; [rewrite Htrace; unfold log, emit; cbn [trace]; rewrite <- app_assoc; reflexivity|].
    apply quiet_app; [repeat split|exact Hquiet].
  - destruct Hgate as [|Hdenied]; [discriminate|].
    destruct (RateLimiter.acquire (rateLimiter svc) (clock w)) as [granted limiter].
    simpl in Hdenied. subst granted. cbn [negb].
    match goal with |- context [addToQueue ?s message ?ww] =>
      pose proof (addToQueue_spec s message ww) as H;
      destruct (addToQueue s message ww) as [svc' w']
    end.
    destruct H as (Hp & Ho & Hc & Hs & Hst & Hq & new & Htrace & Hquiet).
    eexists. eexists. split; [reflexivity|]. split; [reflexivity|]. split; [reflexivity|].
    split; [discriminate|]. repeat (split; [assumption|]).
    split; [rewrite Htrace; unfold log, emit; cbn [trace]; rewrite <- app_assoc; reflexivity|].
    apply quiet_app; [repeat split|exact Hquiet].
Qed.

(** Either a message is recorded as sent, or it is queued, or it is
    dispatched. *)
Lemma sendEmail_paths svc message w :
  (exists status, recordedSuccess svc (EmailMessage.id message) = Some status) \/
  (recordedSuccess svc (EmailMessage.id message) = None /\
   (allCircuitBreakersOpen svc = true \/
    fst (RateLimiter.acquire (rateLimiter svc) (clock w)) = false)) \/
  dispatches svc message w.
Proof.
  unfold dispatches.
  destruct (recordedSuccess svc (EmailMessage.id message)) as [status|]; [left; eauto|].
  right. destruct (allCircuitBreakersOpen svc); [left; auto|].
  destruct (fst (RateLimiter.acquire (rateLimiter svc) (clock w))); [right|left]; auto.
Qed.

Lemma sendEmail_recorded svc message w status :
  recordedSuccess svc (EmailMessage.id message) = Some status ->
  exists result,
    sendEmail svc message w
    = (Normal result, svc,
       log Logger.info "Email already sent (idempotency check)"
         [("messageId", VString (EmailMessage.id message))] w).
Proof. intros Hrec. unfold sendEmail. rewrite Hrec. eexists. reflexivity. Qed.

Lemma attemptsOf_alter svc svc' n messageId other :
  emailStatuses svc' = alter (addAttempts n) messageId (emailStatuses svc) ->
  (attemptsOf svc other <= attemptsOf svc' other)%nat.
Proof.
  intros H. unfold attemptsOf. rewrite H, lookup_alter.
  case_decide; [subst|reflexivity].
  destruct (emailStatuses svc !! other); cbn; lia.
Qed.

(** C8 as stated fails.  With two providers that always fail, the first
    submission of a message ends as ['failed'] after 6 attempts and leaves
    both breakers open; submitting the same message again queues it, and the
    status written by [addToQueue] has its attempt counter back at 0. *)
Lemma attempt_counter_is_reset_by_resubmission :
  let '(svc, w) := exhaustionScenario in
  let '(_, svc1, w1) := sendEmail svc (createTestMessage "test-1") w in
  let '(_, svc2, _) := sendEmail svc1 (createTestMessage "test-1") w1 in
  (EmailStatus.attempts <$> getEmailStatus svc1 "test-1") = Some 6%nat /\
  (EmailStatus.status <$> getEmailStatus svc2 "test-1") = Some EmailStatus.queued /\
  (EmailStatus.attempts <$> getEmailStatus svc2 "test-1") = Some 0%nat /\
  ~ (attemptsOf svc1 "test-1" <= attemptsOf svc2 "test-1")%nat.
Proof.
  vm_compute. split; [reflexivity|]. split; [reflexivity|]. split; [reflexivity|].
  intros H. inversion H.
Qed.

(** C8, as the code has it.  The attempt counter is kept per submission, not
    per identifier.  While a message is being delivered no counter decreases;
    a [sendEmail] call never touches the status of another identifier, and it
    leaves the counter of a message recorded as sent as it is.  Any other
    submission replaces the status by a fresh one, so that the counter ends at
    the number of tries made in this submission alone (0 when the message is
    queued), whatever it was before. *)
Theorem attempt_counter_counts_one_submission
    (svc : EmailService) (message : EmailMessage.t) (w : World) :
  (forall messageId,
     let '(_, svc', _) := sendWithRetryAndFallback svc message w in
     (attemptsOf svc messageId <= attemptsOf svc' messageId)%nat)
  /\
  (forall other, other <> EmailMessage.id message ->
     let '(_, svc', _) := sendEmail svc message w in
     getEmailStatus svc' other = getEmailStatus svc other)
  /\
  (forall status, recordedSuccess svc (EmailMessage.id message) = Some status ->
     let '(_, svc', _) := sendEmail svc message w in
     attemptsOf svc' (EmailMessage.id message) = attemptsOf svc (EmailMessage.id message))
  /\
  (recordedSuccess svc (EmailMessage.id message) = None ->
   let '(_, svc', w') := sendEmail svc message w in
   exists new,
     trace w' = trace w ++ new /\
     attemptsOf svc' (EmailMessage.id message)
     = (failedAttempts new + successfulAttempts new)%nat).
Proof.
  split; [|split; [|split]].
  - intros messageId. unfold sendWithRetryAndFallback.
    pose proof (sendWithRetryAndFallback_loop_spec (providers svc) None svc message w) as H.
    destruct (sendWithRetryAndFallback_loop _ _ _ _ _) as [[r svc'] w'].
    destruct H as (_ & _ & new & _ & _ & Hst & _).
    exact (attemptsOf_alter _ _ _ _ _ Hst).
  - intros other Hother. unfold getEmailStatus.
    destruct (sendEmail_paths svc message w) as [[status Hrec]|[[Hrec Hgate]|Hdispatch]].
    + destruct (sendEmail_recorded svc message w status Hrec) as [result ->]. reflexivity.
    + pose proof (sendEmail_queues svc message w Hrec Hgate) as H.
      destruct (sendEmail svc message w) as [[r svc'] w'].
      destruct H as (_ & _ & _ & _ & _ & _ & _ & _ & _ & _ & Hst & _).
      rewrite Hst. apply lookup_insert_ne. congruence.
    + pose proof (sendEmail_delivery svc message w Hdispatch) as H.
      destruct (sendEmail svc message w) as [[r svc'] w'].
      destruct H as (_ & _ & _ & _ & _ & _ & Hothers & _).
      apply Hothers, Hother.
  - intros status Hrec.
    destruct (sendEmail_recorded svc message w status Hrec) as [result ->]. reflexivity.
  - intros Hrec.
    destruct (sendEmail_paths svc message w) as [[status Hrec']|[[_ Hgate]|Hdispatch]];
      [congruence| |].
    + pose proof (sendEmail_queues svc message w Hrec Hgate) as H.
      destruct (sendEmail svc message w) as [[r svc'] w'].
      destruct H as (_ & new & _ & _ & _ & _ & _ & _ & _ & _ & Hst & _ & Htrace & Hquiet).
      exists new. split; [exact Htrace|].
      destruct Hquiet as (-> & -> & _).
      unfold attemptsOf. rewrite Hst, lookup_insert_eq. reflexivity.
    + pose proof (sendEmail_delivery svc message w Hdispatch) as H.
      destruct (sendEmail svc message w) as [[r svc'] w'].
      destruct H as (_ & new & status & _ & Htrace & Hst & _ & Hattempts & _).
      exists new. split; [exact Htrace|].
      unfold attemptsOf. rewrite Hst. exact Hattempts.
Qed.

Lemma attempt_counter_counts_one_submission_witness :
  recordedSuccess (fst failedScenario) "test-1" = None /\
  attemptsOf (fst failedScenario) "test-1" = 6%nat /\
  let '(_, svc', w') :=
    sendEmail (fst failedScenario) (createTestMessage "test-1") (snd failedScenario) in
  (exists new,
     trace w' = trace (snd failedScenario) ++ new /\
     attemptsOf svc' "test-1" = (failedAttempts new + successfulAttempts new)%nat) /\
  attemptsOf svc' "test-1" = 0%nat.
Proof.
  assert (recordedSuccess (fst failedScenario) "test-1" = None) as Hrec
    by (vm_compute; reflexivity).
  split; [exact Hrec|]. split; [vm_compute; reflexivity|].
  pose proof (proj2 (proj2 (proj2
    (attempt_counter_counts_one_submission (fst failedScenario)
       (createTestMessage "test-1") (snd failedScenario)))) Hrec) as H.
  destruct (sendEmail (fst failedScenario) (createTestMessage "test-1") (snd failedScenario))
    as [[r svc'] w'] eqn:Hrun.
  split; [exact H|].
  vm_compute in Hrun. injection Hrun as _ <- _. reflexivity.
Defined.

(** ** A service without providers *)

Lemma allCircuitBreakersOpen_no_providers svc :
  providers svc = [] -> allCircuitBreakersOpen svc = true.
Proof. intros H. unfold allCircuitBreakersOpen. rewrite H. reflexivity. Qed.

Lemma recordedSuccess_nothing_sent svc messageId :
  sentEmails svc = ∅ -> recordedSuccess svc messageId = None.
Proof.
  intros H. unfold recordedSuccess. rewrite H.
  destruct (decide (messageId ∈ (∅ : gset string))) as [Hin|]; [|reflexivity].
  exfalso. exact (not_elem_of_empty _ Hin).
Qed.

Lemma providerCalls_app a b : providerCalls (a ++ b) = providerCalls a ++ providerCalls b.
Proof. apply List.filter_app. Qed.

Lemma nothingSent_sendEmail before svc w message :
  nothingSent before (svc, w) ->
  let '(_, svc', w') := sendEmail svc message w in nothingSent before (svc', w').
Proof.
  intros (Hp & Hs & Hst & Hcalls). cbn [fst snd] in *.
  pose proof (sendEmail_queues svc message w (recordedSuccess_nothing_sent _ _ Hs)
                (or_introl (allCircuitBreakersOpen_no_providers _ Hp))) as H.
  destruct (sendEmail svc message w) as [[r svc'] w'].
  destruct H as (_ & new & _ & _ & _ & _ & Hp' & _ & _ & Hs' & Hst' & _ & Htrace & Hquiet).
  unfold nothingSent. cbn [fst snd].
  split; [congruence|]. split; [congruence|]. split.
  - intros messageId status. unfold getEmailStatus. rewrite Hst', lookup_insert.
    case_decide; [intros [= <-]; discriminate|]. apply Hst.
  - rewrite Htrace, providerCalls_app, Hcalls.
    destruct Hquiet as (_ & _ & ->). apply app_nil_r.
Qed.

Lemma nothingSent_frame before svc w svc' w' new :
  nothingSent before (svc, w) ->
  sameLedger svc svc' -> trace w' = trace w ++ new -> quiet new ->
  nothingSent before (svc', w').
Proof.
  intros (Hp & Hs & Hst & Hcalls) (Hp' & _ & _ & Hst' & Hs') Htrace (_ & _ & Hquiet).
  unfold nothingSent, getEmailStatus in *. cbn [fst snd] in *.
  split; [congruence|]. split; [congruence|]. split.
  - rewrite Hst'. exact Hst.
  - rewrite Htrace, providerCalls_app, Hcalls, Hquiet. apply app_nil_r.
Qed.

Lemma nothingSent_ledger before svc svc' w :
  sameLedger svc svc' -> nothingSent before (svc, w) -> nothingSent before (svc', w).
Proof.
  intros Hledger H.
  exact (nothingSent_frame _ _ _ _ _ [] H Hledger (eq_sym (app_nil_r _)) quiet_nil).
Qed.

Lemma nothingSent_emit before svc w e :
  quiet [e] -> nothingSent before (svc, w) -> nothingSent before (svc, emit e w).
Proof.
  intros Hquiet H.
  exact (nothingSent_frame _ svc w svc (emit e w) [e] H ltac:(repeat split) eq_refl Hquiet).
Qed.

Lemma nothingSent_processQueue_loop before svc w :
  nothingSent before (svc, w) -> nothingSent before (processQueue_loop svc w).
Proof.
  intros H. pose proof (processQueue_loop_frame svc w) as Hframe.
  destruct (processQueue_loop svc w) as [svc' w'].
  destruct Hframe as (Hledger & _ & new & Htrace & Hquiet).
  exact (nothingSent_frame _ _ _ _ _ _ H Hledger Htrace Hquiet).
Qed.

Lemma nothingSent_processQueue_resume before svc w :
  nothingSent before (svc, w) -> nothingSent before (processQueue_resume svc w).
Proof.
  intros H. unfold processQueue_resume.
  destruct (queueTask svc) as [|wake|[|]]; [exact H| | |].
  - destruct (clock w <? wake); [exact H|]. apply nothingSent_processQueue_loop, H.
  - destruct (emailQueue svc) as [|message rest] eqn:Hq;
      [apply nothingSent_processQueue_loop, H|].
    assert (nothingSent before (set_emailQueue rest svc, w)) as H'.
    { apply (nothingSent_ledger _ svc); [repeat split|exact H]. }
    pose proof (nothingSent_sendEmail before _ w message H') as Hsend.
    destruct (sendEmail (set_emailQueue rest svc) message w) as [[r svc'] w'].
    apply nothingSent_processQueue_loop.
    destruct r as [result|error]; [exact Hsend|].
    apply nothingSent_emit; [repeat split|exact Hsend].
  - apply nothingSent_emit; [repeat split|].
    apply (nothingSent_ledger _ svc); [repeat split|exact H].
Qed.

Lemma nothingSent_perform before op state :
  nothingSent before state -> nothingSent before (perform op state).
Proof.
  destruct state as [svc w]. intros H. destruct op as [message| |ms| |]; cbn [perform].
  - pose proof (nothingSent_sendEmail before svc w message H) as Hsend.
    destruct (sendEmail svc message w) as [[r svc'] w']. exact Hsend.
  - apply nothingSent_processQueue_resume, H.
  - exact (nothingSent_frame _ svc w svc _ [] H ltac:(repeat split)
             (eq_sym (app_nil_r _)) quiet_nil).
  - destruct H as (Hp & Hs & Hst & Hcalls). unfold nothingSent, resetCircuitBreakers.
    cbn [fst snd] in *. repeat (split; [assumption|]).
    unfold log, emit. cbn [trace]. rewrite providerCalls_app, Hcalls. apply app_nil_r.
  - destruct H as (Hp & Hs & Hst & Hcalls). unfold nothingSent, clear, resetCircuitBreakers.
    cbn [fst snd] in *. split; [exact Hp|]. split; [reflexivity|]. split.
    + intros messageId status. unfold getEmailStatus. cbn. rewrite lookup_empty. discriminate.
    + unfold log, emit. cbn [trace]. rewrite providerCalls_app, Hcalls. apply app_nil_r.
Qed.

Lemma nothingSent_performAll before ops : forall state,
  nothingSent before state -> nothingSent before (performAll ops state).
Proof.
  induction ops as [|op ops IH]; intros state H; [exact H|].
  apply IH, nothingSent_perform, H.
Qed.

Lemma nothingSent_newEmailService options w :
  nothingSent (trace w) (newEmailService [] options w).
Proof.
  unfold nothingSent, newEmailService, getEmailStatus. cbn [fst snd providers sentEmails emailStatuses].
  split; [reflexivity|]. split; [reflexivity|]. split.
  - intros messageId status. rewrite lookup_empty. discriminate.
  - destruct (enableLogging options); [|reflexivity].
    unfold log, emit. cbn [trace]. rewrite providerCalls_app. apply app_nil_r.
Qed.

(** C10.  Take a service built with an empty provider list and let it go
    through any sequence of operations.  Then nothing is recorded as sent, no
    status is ['sent'] and no provider was called; and [sendEmail], for any
    message, finds the check over all breakers vacuously true, queues the
    message with a fresh ['queued'] status and returns the non-success
    outcome of that branch, again without anything being sent. *)
Theorem no_providers_every_message_is_queued
    (options : EmailServiceOptions) (w0 : World) (ops : list Operation)
    (message : EmailMessage.t) :
  let '(svc, w) := performAll ops (newEmailService [] options w0) in
  (allCircuitBreakersOpen svc = true /\
   sentEmails svc = ∅ /\
   (forall messageId status,
      getEmailStatus svc messageId = Some status ->
      EmailStatus.status status <> EmailStatus.sent) /\
   providerCalls (trace w) = providerCalls (trace w0)) /\
  let '(r, svc', w') := sendEmail svc message w in
  exists result,
    r = Normal result /\
    EmailResult.success result = false /\
    EmailResult.provider result = "queue" /\
    EmailResult.error result
    = Some "All providers temporarily unavailable. Email queued for retry." /\
    getEmailStatus svc' (EmailMessage.id message) = Some (queuedStatus message (clock w)) /\
    emailQueue svc' = emailQueue svc ++ [message] /\
    sentEmails svc' = ∅ /\
    (forall messageId status,
       getEmailStatus svc' messageId = Some status ->
       EmailStatus.status status <> EmailStatus.sent) /\
    providerCalls (trace w') = providerCalls (trace w0).
Proof.
  pose proof (nothingSent_performAll (trace w0) ops _ (nothingSent_newEmailService options w0))
    as Hinv.
  destruct (performAll ops (newEmailService [] options w0)) as [svc w].
  pose proof Hinv as (Hp & Hs & Hst & Hcalls). cbn [fst snd] in *.
  split.
  { split; [apply allCircuitBreakersOpen_no_providers, Hp|]. auto. }
  pose proof (allCircuitBreakersOpen_no_providers _ Hp) as Hopen.
  pose proof (sendEmail_queues svc message w (recordedSuccess_nothing_sent _ _ Hs)
                (or_introl Hopen)) as Hqueue.
  pose proof (nothingSent_sendEmail _ svc w message Hinv) as Hinv'.
  destruct (sendEmail svc message w) as [[r svc'] w'].
  destruct Hqueue as (result & new & -> & Hfalse & Hprov & Herr & _ & _ & _ & _ & Hst' & Hq & _).
  destruct Hinv' as (_ & Hs' & Hstatus' & Hcalls'). cbn [fst snd] in *.
  exists result. split; [reflexivity|]. split; [exact Hfalse|]. split; [exact Hprov|].
  split; [exact (Herr Hopen)|].
  split; [unfold getEmailStatus; rewrite Hst'; apply lookup_insert_eq|].
  split; [exact Hq|]. split; [exact Hs'|]. split; [exact Hstatus'|exact Hcalls'].
Qed.

(** * Further properties *)

(** ** The rate limiter over time *)

Lemma Qle_bool_false (a b : Q) : Qle_bool a b = false <-> (b < a)%Q.
Proof.
  split.
  - intros H. apply Qnot_le_lt. intros Hle. apply Qle_bool_iff in Hle. congruence.
  - intros H. destruct (Qle_bool a b) eqn:Hb; [|reflexivity].
    apply Qle_bool_iff in Hb. exfalso. exact (Qlt_not_le _ _ H Hb).
Qed.

Lemma refill_in_range (rl : RateLimiter.t) (now : Z) :
  quotaInRange rl -> RateLimiter.lastRefill rl <= now ->
  quotaInRange (RateLimiter.refill rl now) /\
  (RateLimiter.tokens rl <= RateLimiter.tokens (RateLimiter.refill rl now))%Q.
Proof.
  intros (Hlow & Hhigh & Hrate) Hnow.
  assert (0 <= inject_Z (now - RateLimiter.lastRefill rl) * RateLimiter.refillRate rl)%Q
    as Hadd.
  { apply Qmult_le_0_compat; [|exact Hrate].
    change 0%Q with (inject_Z 0). rewrite <- Zle_Qle. lia. }
  unfold quotaInRange, RateLimiter.refill.
  cbn [RateLimiter.tokens RateLimiter.maxTokens RateLimiter.refillRate].
  split; [split; [|split]|].
  - apply Q.min_glb; lra.
  - apply Q.le_min_l.
  - exact Hrate.
  - apply Q.min_glb; lra.
Qed.

Lemma limiterStep_in_range (rl : RateLimiter.t) (call : LimiterCall) :
  quotaInRange rl -> RateLimiter.lastRefill rl <= callTime call ->
  quotaInRange (limiterStep rl call) /\
  RateLimiter.lastRefill (limiterStep rl call) = callTime call /\
  RateLimiter.maxTokens (limiterStep rl call) = RateLimiter.maxTokens rl.
Proof.
  intros Hrange Hnow.
  destruct call as [now|now]; cbn [limiterStep callTime] in *;
    destruct (refill_in_range rl now Hrange Hnow) as [(Hlow & Hhigh & Hrate) _].
  - unfold RateLimiter.acquire.
    destruct (Qle_bool 1 (RateLimiter.tokens (RateLimiter.refill rl now))) eqn:Hone;
      cbn [snd]; [|repeat split; assumption].
    apply Qle_bool_iff in Hone. unfold quotaInRange.
    cbn [RateLimiter.tokens RateLimiter.maxTokens RateLimiter.refillRate
         RateLimiter.lastRefill] in *.
    repeat split; try assumption; lra.
  - cbn [RateLimiter.getAvailableTokens snd]. repeat split; assumption.
Qed.

Lemma new_limiter_in_range (options : RateLimitOptions) (t0 : Z) :
  0 <= maxRequests options -> 0 < windowMs options ->
  quotaInRange (RateLimiter.new options t0).
Proof.
  intros Hcap Hwin. unfold quotaInRange, RateLimiter.new.
  cbn [RateLimiter.tokens RateLimiter.maxTokens RateLimiter.refillRate].
  assert (0 <= inject_Z (maxRequests options))%Q as Hq
    by (change 0%Q with (inject_Z 0); rewrite <- Zle_Qle; exact Hcap).
  split; [exact Hq|]. split; [apply Qle_refl|].
  apply Qmult_le_0_compat; [exact Hq|]. apply Qinv_le_0_compat.
  change 0%Q with (inject_Z 0). rewrite <- Zle_Qle. lia.
Qed.

Lemma limiterAfter_in_range (calls : list LimiterCall) :
  forall rl, quotaInRange rl ->
    inClockOrder (RateLimiter.lastRefill rl) (map callTime calls) ->
    quotaInRange (limiterAfter rl calls) /\
    RateLimiter.maxTokens (limiterAfter rl calls) = RateLimiter.maxTokens rl.
Proof.
  induction calls as [|call calls IH]; intros rl Hrange Horder; [split; [exact Hrange|reflexivity]|].
  cbn [map inClockOrder] in Horder. destruct Horder as [Hnow Horder].
  destruct (limiterStep_in_range rl call Hrange Hnow) as (Hrange' & Hlast & Hmax).
  cbn [limiterAfter fold_left]. specialize (IH (limiterStep rl call) Hrange').
  rewrite Hlast in IH. destruct (IH Horder) as [Hfinal Hmax'].
  split; [exact Hfinal|]. unfold limiterAfter in Hmax'. congruence.
Qed.

(** X1.  The quota of a limiter never leaves the range from 0 to its capacity,
    whatever calls are made, as long as the clock does not go back; and the
    number of tokens it reports is an integer in the same range. *)
Theorem limiter_quota_stays_in_range
    (options : RateLimitOptions) (t0 : Z) (calls : list LimiterCall) :
  0 <= maxRequests options -> 0 < windowMs options ->
  inClockOrder t0 (map callTime calls) ->
  let rl := limiterAfter (RateLimiter.new options t0) calls in
  (0 <= RateLimiter.tokens rl)%Q /\
  (RateLimiter.tokens rl <= inject_Z (maxRequests options))%Q /\
  forall now, RateLimiter.lastRefill rl <= now ->
    0 <= fst (RateLimiter.getAvailableTokens rl now) <= maxRequests options.
Proof.
  intros Hcap Hwin Horder rl.
  destruct (limiterAfter_in_range calls (RateLimiter.new options t0)
              (new_limiter_in_range options t0 Hcap Hwin) Horder) as [Hrange Hmax].
  fold rl in Hrange, Hmax. cbn [RateLimiter.new RateLimiter.maxTokens] in Hmax.
  pose proof Hrange as (Hlow & Hhigh & Hrate). rewrite Hmax in Hhigh.
  split; [exact Hlow|]. split; [exact Hhigh|].
  intros now Hnow.
  destruct (refill_in_range rl now Hrange Hnow) as [(Hlow' & Hhigh' & _) _].
  cbn [RateLimiter.getAvailableTokens fst].
  cbn [RateLimiter.refill RateLimiter.maxTokens] in Hhigh'. rewrite Hmax in Hhigh'.
  split.
  - rewrite <- (Qfloor_Z 0). apply Qfloor_resp_le. exact Hlow'.
  - rewrite <- (Qfloor_Z (maxRequests options)). apply Qfloor_resp_le. exact Hhigh'.
Qed.

Lemma limiter_quota_stays_in_range_witness :
  let rl := limiterAfter (RateLimiter.new testLimiterOptions 0)
              [CallAcquire 0; CallAcquire 10; CallGetAvailableTokens 300; CallAcquire 300] in
  (0 <= RateLimiter.tokens rl)%Q /\
  (RateLimiter.tokens rl <= inject_Z (maxRequests testLimiterOptions))%Q /\
  forall now, RateLimiter.lastRefill rl <= now ->
    0 <= fst (RateLimiter.getAvailableTokens rl now) <= maxRequests testLimiterOptions.
Proof.
  apply (limiter_quota_stays_in_range testLimiterOptions 0
           [CallAcquire 0; CallAcquire 10; CallGetAvailableTokens 300; CallAcquire 300]).
  - discriminate.
  - reflexivity.
  - cbn. repeat split; discriminate.
Defined.

(** A call made at the very time of the last refill finds the quota as it
    was left. *)
Lemma refill_at_once (rl : RateLimiter.t) :
  (RateLimiter.tokens rl <= RateLimiter.maxTokens rl)%Q ->
  (RateLimiter.tokens (RateLimiter.refill rl (RateLimiter.lastRefill rl))
   == RateLimiter.tokens rl)%Q.
Proof.
  intros Hhigh. unfold RateLimiter.refill. cbn [RateLimiter.tokens].
  rewrite Z.sub_diag.
  assert (RateLimiter.tokens rl + inject_Z 0 * RateLimiter.refillRate rl
          == RateLimiter.tokens rl)%Q as Hsame by (change (inject_Z 0) with 0%Q; ring).
  rewrite Hsame. apply Q.min_r. exact Hhigh.
Qed.

Lemma acquire_at_once (rl : RateLimiter.t) (c : Z) :
  (RateLimiter.tokens rl == inject_Z c)%Q ->
  (RateLimiter.tokens rl <= RateLimiter.maxTokens rl)%Q -> 0 <= c ->
  let '(granted, rl') := RateLimiter.acquire rl (RateLimiter.lastRefill rl) in
  granted = (1 <=? c) /\
  (RateLimiter.tokens rl' == inject_Z (Z.max (c - 1) 0))%Q /\
  RateLimiter.lastRefill rl' = RateLimiter.lastRefill rl /\
  RateLimiter.maxTokens rl' = RateLimiter.maxTokens rl.
Proof.
  intros Htokens Hhigh Hc. unfold RateLimiter.acquire.
  pose proof (refill_at_once rl Hhigh) as Hrefill. rewrite Htokens in Hrefill.
  destruct (Qle_bool 1 (RateLimiter.tokens
              (RateLimiter.refill rl (RateLimiter.lastRefill rl)))) eqn:Hone.
  - apply Qle_bool_iff in Hone. rewrite Hrefill in Hone.
    change 1%Q with (inject_Z 1) in Hone. rewrite <- Zle_Qle in Hone.
    split; [symmetry; apply Z.leb_le; exact Hone|].
    cbn [RateLimiter.tokens RateLimiter.lastRefill RateLimiter.maxTokens RateLimiter.refill].
    split; [|split; reflexivity].
    change (RateLimiter.tokens (RateLimiter.refill rl (RateLimiter.lastRefill rl)) - 1
            == inject_Z (Z.max (c - 1) 0))%Q.
    rewrite Hrefill, Z.max_l by lia. unfold Zminus. rewrite inject_Z_plus.
    change (inject_Z (- (1))) with (- (1))%Q. ring.
  - apply Qle_bool_false in Hone. rewrite Hrefill in Hone.
    change 1%Q with (inject_Z 1) in Hone. rewrite <- Zlt_Qlt in Hone.
    split; [symmetry; apply Z.leb_gt; exact Hone|].
    split; [|split; reflexivity].
    rewrite Hrefill. replace (Z.max (c - 1) 0) with c by lia. reflexivity.
Qed.

Lemma burst_tokens (k : nat) : forall (rl : RateLimiter.t) (c : Z),
  (RateLimiter.tokens rl == inject_Z c)%Q ->
  (RateLimiter.tokens rl <= RateLimiter.maxTokens rl)%Q -> 0 <= c ->
  let rl' := RateLimiter.after_calls rl (repeat (RateLimiter.lastRefill rl) k) in
  (RateLimiter.tokens rl' == inject_Z (Z.max (c - Z.of_nat k) 0))%Q /\
  RateLimiter.lastRefill rl' = RateLimiter.lastRefill rl /\
  RateLimiter.maxTokens rl' = RateLimiter.maxTokens rl.
Proof.
  induction k as [|k IH]; intros rl c Htokens Hhigh Hc.
  - cbn. rewrite Z.sub_0_r, Z.max_l by lia. repeat split. exact Htokens.
  - cbn [repeat]. unfold RateLimiter.after_calls. cbn [fold_left].
    pose proof (acquire_at_once rl c Htokens Hhigh Hc) as Hstep.
    destruct (RateLimiter.acquire rl (RateLimiter.lastRefill rl)) as [granted rl1].
    destruct Hstep as (_ & Htokens1 & Hlast1 & Hmax1). cbn [snd].
    specialize (IH rl1 (Z.max (c - 1) 0) Htokens1).
    rewrite Hlast1 in IH. unfold RateLimiter.after_calls in IH.
    destruct IH as (Ht & Hl & Hm).
    + rewrite Htokens1, Hmax1.
      apply Qle_trans with (RateLimiter.tokens rl); [|exact Hhigh].
      rewrite Htokens, <- Zle_Qle. lia.
    + lia.
    + split; [|split; congruence].
      rewrite Ht. replace (Z.max (Z.max (c - 1) 0 - Z.of_nat k) 0)
        with (Z.max (c - Z.of_nat (S k)) 0) by lia. reflexivity.
Qed.

(** X2.  A new limiter with a window that is not empty and a capacity of at
    most 2^53 grants exactly [maxRequests] calls made in the same millisecond
    as its construction: the call that follows [k] such calls is granted if
    and only if [k < maxRequests].  (The hypotheses are those under which the
    doubles of the code hold the numbers of this statement exactly: the
    refill rate is finite, so that an elapsed time of 0 adds 0 tokens, and
    the token counts are integers that a double represents.) *)
Theorem limiter_grants_a_burst_of_capacity
    (options : RateLimitOptions) (t0 : Z) (k : nat) :
  0 < windowMs options ->
  0 <= maxRequests options <= 2 ^ 53 ->
  fst (RateLimiter.acquire
         (RateLimiter.after_calls (RateLimiter.new options t0) (repeat t0 k)) t0) = true
  <-> Z.of_nat k < maxRequests options.
Proof.
  intros _ [Hcap _].
  destruct (burst_tokens k (RateLimiter.new options t0) (maxRequests options))
    as (Htokens & Hlast & Hmax); [reflexivity|apply Qle_refl|exact Hcap|].
  cbn [RateLimiter.new RateLimiter.lastRefill RateLimiter.maxTokens] in Htokens, Hlast, Hmax.
  set (rl := RateLimiter.after_calls (RateLimiter.new options t0) (repeat t0 k)) in *.
  pose proof (acquire_at_once rl (Z.max (maxRequests options - Z.of_nat k) 0) Htokens)
    as Hstep.
  rewrite Hlast in Hstep.
  destruct (RateLimiter.acquire rl t0) as [granted rl'].
  destruct Hstep as (-> & _).
  - rewrite Htokens, Hmax, <- Zle_Qle. lia.
  - lia.
  - cbn [fst]. rewrite Z.leb_le. lia.
Qed.

Lemma limiter_grants_a_burst_of_capacity_witness :
  fst (RateLimiter.acquire
         (RateLimiter.after_calls (RateLimiter.new testLimiterOptions 0) (repeat 0 4)) 0)
  = true /\
  fst (RateLimiter.acquire
         (RateLimiter.after_calls (RateLimiter.new testLimiterOptions 0) (repeat 0 5)) 0)
  = false.
Proof.
  assert (0 < windowMs testLimiterOptions) as Hwindow by reflexivity.
  assert (0 <= maxRequests testLimiterOptions <= 2 ^ 53) as Hcap
    by (split; discriminate).
  split.
  - apply (limiter_grants_a_burst_of_capacity testLimiterOptions 0 4 Hwindow Hcap).
    reflexivity.
  - destruct (fst (RateLimiter.acquire
         (RateLimiter.after_calls (RateLimiter.new testLimiterOptions 0) (repeat 0 5)) 0))
      eqn:H; [|reflexivity].
    apply (limiter_grants_a_burst_of_capacity testLimiterOptions 0 5 Hwindow Hcap) in H.
    discriminate H.
Defined.

(** ** The breaker as a state machine *)

Lemma onFailure_state (cb : CircuitBreaker.t) (now : Z) :
  CircuitBreaker.state (CircuitBreaker.onFailure cb now) = CircuitBreaker.open \/
  (CircuitBreaker.state cb <> CircuitBreaker.half_open /\
   CircuitBreaker.state (CircuitBreaker.onFailure cb now) = CircuitBreaker.state cb).
Proof.
  unfold CircuitBreaker.onFailure.
  match goal with |- context [CircuitBreaker.cleanupHistory ?c now] =>
    destruct (cleanupHistory_fields c now) as (Hs & _);
    cbn [CircuitBreaker.state] in Hs;
    generalize dependent (CircuitBreaker.cleanupHistory c now); intros pruned Hs
  end.
  destruct (CircuitBreaker.state_eqb (CircuitBreaker.state pruned) CircuitBreaker.half_open)
    eqn:Hhalf; [left; reflexivity|].
  destruct (_ <=? _); [left; reflexivity|].
  right. split; [|exact Hs]. intros Habs. rewrite Hs, Habs in Hhalf. discriminate.
Qed.

Lemma onFailure_options (cb : CircuitBreaker.t) (now : Z) :
  CircuitBreaker.options (CircuitBreaker.onFailure cb now) = CircuitBreaker.options cb.
Proof.
  unfold CircuitBreaker.onFailure.
  match goal with |- context [CircuitBreaker.cleanupHistory ?c now] =>
    destruct (cleanupHistory_fields c now) as (_ & _ & Ho & _);
    cbn [CircuitBreaker.options] in Ho;
    generalize dependent (CircuitBreaker.cleanupHistory c now); intros pruned Ho
  end.
  destruct (CircuitBreaker.state_eqb _ _); [exact Ho|].
  destruct (_ <=? _); exact Ho.
Qed.

(** X5.  The state machine of the breaker, read off one [execute] call with any
    operation.  A closed breaker stays closed or opens on a failure; it never
    becomes half-open.  An open breaker stays open (the call is rejected, or
    the probe fails) or becomes half-open after a successful probe made once
    [resetTimeout] has passed; it never closes in one call.  A half-open
    breaker reopens on a failure, closes on a success that follows an earlier
    one, and stays half-open on its first success. *)
Theorem breaker_state_machine {W T : Type} (clock : W -> Z)
    (cb : CircuitBreaker.t) (operation : W -> Completion T * W) (w : W) :
  let '(r, cb', _) := CircuitBreaker.execute clock cb operation w in
  match CircuitBreaker.state cb, CircuitBreaker.state cb' with
  | CircuitBreaker.closed, CircuitBreaker.closed => True
  | CircuitBreaker.closed, CircuitBreaker.open => exists error, r = Throw error
  | CircuitBreaker.closed, CircuitBreaker.half_open => False
  | CircuitBreaker.open, CircuitBreaker.open => exists error, r = Throw error
  | CircuitBreaker.open, CircuitBreaker.half_open =>
      (exists result, r = Normal result) /\
      resetTimeout (CircuitBreaker.options cb) < clock w - CircuitBreaker.lastFailureTime cb
  | CircuitBreaker.open, CircuitBreaker.closed => False
  | CircuitBreaker.half_open, CircuitBreaker.open => exists error, r = Throw error
  | CircuitBreaker.half_open, CircuitBreaker.half_open =>
      (exists result, r = Normal result) /\ CircuitBreaker.successCount cb = 0%nat
  | CircuitBreaker.half_open, CircuitBreaker.closed =>
      (exists result, r = Normal result) /\ (1 <= CircuitBreaker.successCount cb)%nat
  end.
Proof.
  unfold CircuitBreaker.execute, CircuitBreaker.gate, CircuitBreaker.settle.
  destruct (CircuitBreaker.state cb) eqn:Hstate; cbn [CircuitBreaker.state_eqb].
  - destruct (operation w) as [[result|error] w'].
    + rewrite onSuccess_state, Hstate. exact I.
    + destruct (onFailure_state cb (clock w')) as [->|[_ ->]].
      * eexists. reflexivity.
      * rewrite Hstate. exact I.
  - destruct (_ <? _) eqn:Hwait.
    + apply Z.ltb_lt in Hwait.
      destruct (operation w) as [[result|error] w'].
      * rewrite onSuccess_state. cbn. split; [eexists; reflexivity|exact Hwait].
      * rewrite onFailure_half_open by reflexivity. eexists. reflexivity.
    + rewrite Hstate. eexists. reflexivity.
  - destruct (operation w) as [[result|error] w'].
    + rewrite onSuccess_state, Hstate.
      destruct (CircuitBreaker.successCount cb) as [|n]; cbn.
      * split; [eexists; reflexivity|reflexivity].
      * split; [eexists; reflexivity|lia].
    + rewrite onFailure_half_open by exact Hstate. eexists. reflexivity.
Qed.

(** ** What every history of the service preserves *)

Lemma sentIsRecorded_sameLedger a b : sameLedger a b -> sentIsRecorded a -> sentIsRecorded b.
Proof.
  intros (_ & _ & _ & Hst & Hs) Hinv messageId. unfold getEmailStatus. rewrite Hst, Hs.
  exact (Hinv messageId).
Qed.

Lemma sendEmail_ledger svc message w :
  sentIsRecorded svc ->
  let '(_, svc', _) := sendEmail svc message w in sentIsRecorded svc'.
Proof.
  intros Hinv.
  destruct (sendEmail_paths svc message w) as [[status Hrec]|[[Hrec Hgate]|Hdispatch]].
  - destruct (sendEmail_recorded svc message w status Hrec) as [result ->]. exact Hinv.
  - pose proof (sendEmail_queues svc message w Hrec Hgate) as H.
    destruct (sendEmail svc message w) as [[r svc'] w'].
    destruct H as (_ & _ & _ & _ & _ & _ & _ & _ & _ & Hs & Hst & _).
    intros messageId status. unfold getEmailStatus. rewrite Hs, Hst.
    destruct (decide (messageId = EmailMessage.id message)) as [->|Hother].
    + rewrite lookup_insert_eq. intros [= <-]. split; discriminate.
    + rewrite lookup_insert_ne by congruence. exact (Hinv messageId status).
  - pose proof (sendEmail_delivery svc message w Hdispatch) as H.
    destruct (sendEmail svc message w) as [[r svc'] w'].
    destruct H as (result & new & status & _ & _ & Hst & Hothers & _ & _ & Hcases).
    intros messageId status'. unfold getEmailStatus.
    destruct (decide (messageId = EmailMessage.id message)) as [->|Hother].
    + rewrite Hst. intros [= <-].
      destruct Hcases as [(_ & _ & Hsent & _ & Hs & _)|(_ & Hfailed & _ & Hs & _)]; rewrite Hs.
      * split; [|rewrite Hsent; discriminate].
        intros _. apply elem_of_union. left. apply elem_of_singleton. reflexivity.
      * rewrite Hfailed. split; discriminate.
    + rewrite (Hothers messageId Hother). intros Hlookup.
      destruct (Hinv messageId status' Hlookup) as [Hin Hnot]. split; [|exact Hnot].
      intros Hsent. specialize (Hin Hsent).
      destruct Hcases as [(_ & _ & _ & _ & Hs & _)|(_ & _ & _ & Hs & _)]; rewrite Hs;
        [|exact Hin].
      apply elem_of_union. right. exact Hin.
Qed.

Lemma processQueue_loop_ledger svc w :
  sentIsRecorded svc -> sentIsRecorded (fst (processQueue_loop svc w)).
Proof.
  intros Hinv. pose proof (processQueue_loop_frame svc w) as H.
  destruct (processQueue_loop svc w) as [svc' w']. destruct H as (Hledger & _).
  exact (sentIsRecorded_sameLedger _ _ Hledger Hinv).
Qed.

Lemma processQueue_resume_ledger svc w :
  sentIsRecorded svc -> sentIsRecorded (fst (processQueue_resume svc w)).
Proof.
  intros Hinv. unfold processQueue_resume.
  destruct (queueTask svc) as [|wake|[|]]; [exact Hinv| | |].
  - destruct (clock w <? wake); [exact Hinv|]. apply processQueue_loop_ledger, Hinv.
  - destruct (emailQueue svc) as [|message rest]; [apply processQueue_loop_ledger, Hinv|].
    assert (sentIsRecorded (set_emailQueue rest svc)) as Hinv'
      by (apply (sentIsRecorded_sameLedger svc); [repeat split|exact Hinv]).
    pose proof (sendEmail_ledger _ message w Hinv') as Hsend.
    destruct (sendEmail (set_emailQueue rest svc) message w) as [[r svc'] w'].
    apply processQueue_loop_ledger, Hsend.
  - exact Hinv.
Qed.

Lemma perform_ledger op state :
  sentIsRecorded (fst state) -> sentIsRecorded (fst (perform op state)).
Proof.
  destruct state as [svc w]. cbn [fst]. intros Hinv.
  destruct op as [message| |ms| |]; cbn [perform].
  - pose proof (sendEmail_ledger svc message w Hinv) as Hsend.
    destruct (sendEmail svc message w) as [[r svc'] w']. exact Hsend.
  - apply processQueue_resume_ledger, Hinv.
  - exact Hinv.
  - exact Hinv.
  - intros messageId status. unfold clear, resetCircuitBreakers, getEmailStatus.
    cbn [fst sentEmails emailStatuses set_circuitBreakers set_emailQueue set_sentEmails
         set_emailStatuses].
    rewrite lookup_empty. discriminate.
Qed.

Lemma performAll_ledger ops : forall state,
  sentIsRecorded (fst state) -> sentIsRecorded (fst (performAll ops state)).
Proof.
  induction ops as [|op ops IH]; intros state H; [exact H|].
  apply IH, perform_ledger, H.
Qed.

Lemma newEmailService_ledger providers options w :
  sentIsRecorded (fst (newEmailService providers options w)).
Proof.
  intros messageId status. unfold newEmailService, getEmailStatus.
  cbn [fst emailStatuses]. rewrite lookup_empty. discriminate.
Qed.

(** X6.  Whatever the providers and the options, and whatever is done with the
    service, a message whose status is ['sent'] has its identifier in
    [sentEmails], so that it passes the idempotency check of [sendEmail], and
    no status is ever ['pending'].  (The status ['sent'] is written in the
    same synchronous step that adds the identifier, the set only shrinks when
    [clear] empties the statuses too, and nothing writes ['pending']: the
    property does not depend on calls running one after the other.) *)
Theorem sent_status_is_in_the_sent_set
    (providers : list EmailProvider.t) (options : EmailServiceOptions) (w0 : World)
    (ops : list Operation) (messageId : string) (status : EmailStatus.t) :
  let svc := fst (performAll ops (newEmailService providers options w0)) in
  getEmailStatus svc messageId = Some status ->
  (EmailStatus.status status = EmailStatus.sent ->
   messageId ∈ sentEmails svc /\ recordedSuccess svc messageId = Some status) /\
  EmailStatus.status status <> EmailStatus.pending.
Proof.
  intros svc Hst.
  assert (sentIsRecorded svc) as Hinv
    by (apply performAll_ledger, newEmailService_ledger).
  destruct (Hinv messageId status Hst) as [Hin Hnot].
  split; [|exact Hnot]. intros Hsent. split; [exact (Hin Hsent)|].
  apply recordedSuccess_Some. split; [exact (Hin Hsent)|]. split; assumption.
Qed.

(** A message delivered by the first provider, looked up afterwards. *)
Lemma sent_status_is_in_the_sent_set_witness :
  let svc :=
    fst (performAll [OpSendEmail (createTestMessage "test-1")]
           (newEmailService [mockProvider "Provider A" "Provider A" 0] testOptions
              startWorld)) in
  exists status,
    getEmailStatus svc "test-1" = Some status /\
    EmailStatus.status status = EmailStatus.sent /\
    "test-1" ∈ sentEmails svc /\ recordedSuccess svc "test-1" = Some status.
Proof.
  intros svc.
  destruct (getEmailStatus svc "test-1") as [status|] eqn:Hst; [|vm_compute in Hst; discriminate].
  exists status. split; [reflexivity|].
  destruct (sent_status_is_in_the_sent_set
              [mockProvider "Provider A" "Provider A" 0] testOptions startWorld
              [OpSendEmail (createTestMessage "test-1")] "test-1" status Hst) as [Hsent _].
  assert (EmailStatus.status status = EmailStatus.sent) as Hs
    by (vm_compute in Hst; injection Hst as <-; reflexivity).
  split; [exact Hs|]. exact (Hsent Hs).
Defined.

Lemma processQueue_loop_drain svc w :
  isProcessingQueue svc = true -> drainPending (fst (processQueue_loop svc w)).
Proof.
  intros Hflag. unfold processQueue_loop, drainPending, drainFlagged.
  destruct (emailQueue svc) as [|m rest] eqn:Hq.
  - cbn. rewrite Hq. split; [split; [discriminate|congruence]|congruence].
  - destruct (allCircuitBreakersOpen svc).
    + cbn. rewrite Hflag. split; [split; [discriminate|reflexivity]|reflexivity].
    + destruct (RateLimiter.acquire (rateLimiter svc) (clock w)) as [granted limiter].
      cbn. rewrite Hflag. split; [split; [discriminate|reflexivity]|reflexivity].
Qed.

Lemma processQueue_drain svc w :
  drainFlagged svc ->
  drainPending (fst (processQueue svc w)) /\
  (isProcessingQueue svc = true -> isProcessingQueue (fst (processQueue svc w)) = true).
Proof.
  intros Hflagged. unfold processQueue.
  destruct (isProcessingQueue svc) eqn:Hflag; cbn [orb fst].
  - split; [|intros _; exact Hflag]. split; [exact Hflagged|]. intros _. exact Hflag.
  - destruct (emailQueue svc) as [|m rest] eqn:Hq; cbn [length Nat.eqb fst].
    + split; [|discriminate]. split; [exact Hflagged|]. rewrite Hq. congruence.
    + split; [|discriminate]. apply processQueue_loop_drain. reflexivity.
Qed.

Lemma addToQueue_drain svc message w :
  drainFlagged svc ->
  drainPending (fst (addToQueue svc message w)) /\
  (isProcessingQueue svc = true -> isProcessingQueue (fst (addToQueue svc message w)) = true).
Proof.
  intros Hflagged. unfold addToQueue.
  match goal with |- context [processQueue ?s ?ww] =>
    exact (processQueue_drain s ww Hflagged)
  end.
Qed.

(** What [sendEmail] does to the queue: nothing, or it appends the message
    and makes sure that the drain loop is under way. *)
Lemma sendEmail_flags svc message w :
  let '(_, svc', _) := sendEmail svc message w in
  (emailQueue svc' = emailQueue svc /\ isProcessingQueue svc' = isProcessingQueue svc /\
   queueTask svc' = queueTask svc) \/
  (emailQueue svc' = emailQueue svc ++ [message] /\
   (drainFlagged svc ->
    drainPending svc' /\ (isProcessingQueue svc = true -> isProcessingQueue svc' = true))).
Proof.
  unfold sendEmail. destruct (recordedSuccess svc (EmailMessage.id message));
    [left; repeat split|].
  destruct (allCircuitBreakersOpen svc).
  { match goal with |- context [addToQueue ?s message ?ww] =>
      pose proof (addToQueue_spec s message ww) as Hspec;
      pose proof (addToQueue_drain s message ww) as Hdrain;
      destruct (addToQueue s message ww) as [svc' w']
    end.
    destruct Hspec as (_ & _ & _ & _ & _ & Hq & _). right. split; [exact Hq|exact Hdrain]. }
  destruct (RateLimiter.acquire (rateLimiter svc) (clock w)) as [granted limiter].
  destruct granted; cbn [negb].
  - unfold sendWithRetryAndFallback.
    match goal with |- context [sendWithRetryAndFallback_loop ?ps None ?s message w] =>
      pose proof (sendWithRetryAndFallback_loop_spec ps None s message w) as H;
      destruct (sendWithRetryAndFallback_loop ps None s message w) as [[r svc3] w3]
    end.
    destruct H as ((_ & _ & _ & _ & Hq & Hflag & Htask) & _).
    cbn [emailQueue isProcessingQueue queueTask updateStatus set_emailStatuses
         set_rateLimiter] in Hq, Hflag, Htask.
    destruct r as [result|error]; [destruct (EmailResult.success result)|];
      left; repeat split; assumption.
  - match goal with |- context [addToQueue ?s message ?ww] =>
      pose proof (addToQueue_spec s message ww) as Hspec;
      pose proof (addToQueue_drain s message ww) as Hdrain;
      destruct (addToQueue s message ww) as [svc' w']
    end.
    destruct Hspec as (_ & _ & _ & _ & _ & Hq & _). right. split; [exact Hq|exact Hdrain].
Qed.

Lemma sendEmail_drain svc message w :
  drainPending svc ->
  let '(_, svc', _) := sendEmail svc message w in
  drainPending svc' /\ (isProcessingQueue svc = true -> isProcessingQueue svc' = true).
Proof.
  intros [Hflagged Hqueue]. pose proof (sendEmail_flags svc message w) as H.
  destruct (sendEmail svc message w) as [[r svc'] w'].
  destruct H as [(Hq & Hflag & Htask)|(_ & H)]; [|exact (H Hflagged)].
  unfold drainPending, drainFlagged. rewrite Hq, Hflag, Htask.
  split; [split; assumption|auto].
Qed.

Lemma sendEmail_queued svc message w :
  (forall messageId, messageId <> EmailMessage.id message -> queuedIsInQueue svc messageId) ->
  let '(_, svc', _) := sendEmail svc message w in
  forall messageId, queuedIsInQueue svc' messageId.
Proof.
  intros Hinv.
  destruct (sendEmail_paths svc message w) as [[status Hrec]|[[Hrec Hgate]|Hdispatch]].
  - destruct (sendEmail_recorded svc message w status Hrec) as [result ->].
    intros messageId. destruct (decide (messageId = EmailMessage.id message)) as [->|Hother];
      [|exact (Hinv messageId Hother)].
    apply recordedSuccess_Some in Hrec. destruct Hrec as (_ & Hst & Hsent).
    intros status'. unfold getEmailStatus. rewrite Hst. intros [= <-]. congruence.
  - pose proof (sendEmail_queues svc message w Hrec Hgate) as H.
    destruct (sendEmail svc message w) as [[r svc'] w'].
    destruct H as (_ & _ & _ & _ & _ & _ & _ & _ & _ & _ & Hst & Hq & _).
    intros messageId status. unfold getEmailStatus. rewrite Hst, Hq.
    destruct (decide (messageId = EmailMessage.id message)) as [->|Hother].
    + intros _ _. exists message. split; [apply in_or_app; right; left|]; reflexivity.
    + rewrite lookup_insert_ne by congruence. intros Hlookup Hqueued.
      destruct (Hinv messageId Hother status Hlookup Hqueued) as (m & Hin & Hid).
      exists m. split; [apply in_or_app; left; exact Hin|exact Hid].
  - pose proof (sendEmail_delivery svc message w Hdispatch) as H.
    pose proof (sendEmail_flags svc message w) as Hflags.
    destruct (sendEmail svc message w) as [[r svc'] w'].
    destruct H as (result & new & status & _ & _ & Hst & Hothers & _ & _ & Hcases).
    intros messageId status'. unfold getEmailStatus.
    destruct (decide (messageId = EmailMessage.id message)) as [->|Hother].
    + rewrite Hst. intros [= <-] Hqueued.
      destruct Hcases as [(_ & _ & Hsent & _)|(_ & Hfailed & _)]; congruence.
    + rewrite (Hothers messageId Hother). intros Hlookup Hqueued.
      destruct (Hinv messageId Hother status' Hlookup Hqueued) as (m & Hin & Hid).
      exists m. split; [|exact Hid].
      destruct Hflags as [(-> & _)|(-> & _)]; [exact Hin|apply in_or_app; left; exact Hin].
Qed.

Lemma processQueue_loop_queued svc w messageId :
  queuedIsInQueue svc messageId -> queuedIsInQueue (fst (processQueue_loop svc w)) messageId.
Proof.
  intros Hinv. pose proof (processQueue_loop_frame svc w) as H.
  destruct (processQueue_loop svc w) as [svc' w'].
  destruct H as ((_ & _ & _ & Hst & _) & Hq & _).
  unfold queuedIsInQueue, getEmailStatus. cbn [fst]. rewrite Hst, Hq. exact Hinv.
Qed.

Lemma processQueue_resume_queue svc w :
  drainPending svc -> (forall messageId, queuedIsInQueue svc messageId) ->
  drainPending (fst (processQueue_resume svc w)) /\
  forall messageId, queuedIsInQueue (fst (processQueue_resume svc w)) messageId.
Proof.
  intros Hdrain Hqueued. pose proof Hdrain as [Hflagged Hnonempty].
  unfold processQueue_resume.
  destruct (queueTask svc) as [|wake|[|]] eqn:Htask; [split; assumption| | |].
  - assert (isProcessingQueue svc = true) as Hflag
      by (apply Hflagged; rewrite Htask; discriminate).
    destruct (clock w <? wake); [split; assumption|].
    split; [apply processQueue_loop_drain, Hflag|].
    intros messageId. apply processQueue_loop_queued, Hqueued.
  - assert (isProcessingQueue svc = true) as Hflag
      by (apply Hflagged; rewrite Htask; discriminate).
    destruct (emailQueue svc) as [|message rest] eqn:Hq.
    { split; [apply processQueue_loop_drain, Hflag|].
      intros messageId. apply processQueue_loop_queued, Hqueued. }
    assert (drainPending (set_emailQueue rest svc)) as Hdrain'
      by (split; [exact Hflagged|intros _; exact Hflag]).
    assert (forall messageId, messageId <> EmailMessage.id message ->
              queuedIsInQueue (set_emailQueue rest svc) messageId) as Hqueued'.
    { intros messageId Hother status Hlookup Hstatus.
      destruct (Hqueued messageId status Hlookup Hstatus) as (m & Hin & Hid).
      rewrite Hq in Hin. destruct Hin as [<-|Hin]; [congruence|].
      exists m. split; assumption. }
    pose proof (sendEmail_drain _ message w Hdrain') as Hsend.
    pose proof (sendEmail_queued _ message w Hqueued') as Hsend'.
    destruct (sendEmail (set_emailQueue rest svc) message w) as [[r svc'] w'].
    destruct Hsend as [_ Hkept].
    split; [apply processQueue_loop_drain, Hkept, Hflag|].
    intros messageId. apply processQueue_loop_queued, Hsend'.
  - cbn [fst]. split; [|exact Hqueued].
    assert (isProcessingQueue svc = true) as Hflag
      by (apply Hflagged; rewrite Htask; discriminate).
    split; [split; [discriminate|intros _; exact Hflag]|exact Hnonempty].
Qed.

Lemma perform_queue op state :
  drainPending (fst state) -> (forall messageId, queuedIsInQueue (fst state) messageId) ->
  drainPending (fst (perform op state)) /\
  forall messageId, queuedIsInQueue (fst (perform op state)) messageId.
Proof.
  destruct state as [svc w]. cbn [fst]. intros Hdrain Hqueued.
  destruct op as [message| |ms| |]; cbn [perform].
  - pose proof (sendEmail_drain svc message w Hdrain) as Hsend.
    pose proof (sendEmail_queued svc message w (fun id _ => Hqueued id)) as Hsend'.
    destruct (sendEmail svc message w) as [[r svc'] w'].
    split; [exact (proj1 Hsend)|exact Hsend'].
  - apply processQueue_resume_queue; assumption.
  - split; assumption.
  - split; assumption.
  - destruct Hdrain as [Hflagged _]. split.
    + split; [exact Hflagged|]. intros Habs. contradiction.
    + intros messageId status. unfold getEmailStatus. cbn. rewrite lookup_empty. discriminate.
Qed.

Lemma performAll_queue ops : forall state,
  drainPending (fst state) -> (forall messageId, queuedIsInQueue (fst state) messageId) ->
  drainPending (fst (performAll ops state)) /\
  forall messageId, queuedIsInQueue (fst (performAll ops state)) messageId.
Proof.
  induction ops as [|op ops IH]; intros state Hdrain Hqueued; [split; assumption|].
  destruct (perform_queue op state Hdrain Hqueued) as [Hdrain' Hqueued'].
  exact (IH _ Hdrain' Hqueued').
Qed.

(** X7.  No queued message is stranded.  Whatever is done with a service, a
    status ['queued'] means that a message with that identifier is in the
    queue, and a queue that is not empty means that the drain loop has been
    started and is suspended at one of its [await]s. *)
Theorem queued_messages_are_not_stranded
    (providers : list EmailProvider.t) (options : EmailServiceOptions) (w0 : World)
    (ops : list Operation) :
  let svc := fst (performAll ops (newEmailService providers options w0)) in
  (forall messageId status,
     getEmailStatus svc messageId = Some status ->
     EmailStatus.status status = EmailStatus.queued ->
     exists message, In message (emailQueue svc) /\ EmailMessage.id message = messageId) /\
  (emailQueue svc <> [] -> isProcessingQueue svc = true /\ queueTask svc <> NotRunning) /\
  (queueTask svc = NotRunning -> isProcessingQueue svc = false /\ emailQueue svc = []).
Proof.
  intros svc.
  destruct (performAll_queue ops (newEmailService providers options w0))
    as [[Hflagged Hnonempty] Hqueued].
  - split; [split; [discriminate|intros H; contradiction]|intros H; contradiction].
  - intros messageId status. unfold getEmailStatus. cbn. rewrite lookup_empty. discriminate.
  - fold svc in Hflagged, Hnonempty, Hqueued. split; [exact Hqueued|]. split.
    + intros Hq. split; [exact (Hnonempty Hq)|]. apply Hflagged, Hnonempty, Hq.
    + intros Htask.
      assert (isProcessingQueue svc <> true) as Hflag
        by (intros Hflag; exact (proj1 Hflagged Hflag Htask)).
      split; [apply not_true_is_false, Hflag|].
      destruct (emailQueue svc) as [|m rest] eqn:Hq; [reflexivity|].
      exfalso. apply Hflag, Hnonempty. discriminate.
Qed.

(** ** The breakers of the service *)

Lemma execute_options {W T : Type} (clock : W -> Z) (cb : CircuitBreaker.t)
    (operation : W -> Completion T * W) (w : W) :
  CircuitBreaker.options (snd (fst (CircuitBreaker.execute clock cb operation w)))
  = CircuitBreaker.options cb.
Proof.
  unfold CircuitBreaker.execute, CircuitBreaker.gate, CircuitBreaker.settle.
  destruct (CircuitBreaker.state_eqb _ _).
  - destruct (_ <? _); [|reflexivity].
    destruct (operation w) as [[result|error] w']; cbn [fst snd].
    + rewrite onSuccess_options. reflexivity.
    + rewrite onFailure_options. reflexivity.
  - destruct (operation w) as [[result|error] w']; cbn [fst snd].
    + apply onSuccess_options.
    + apply onFailure_options.
Qed.

Lemma incrementAttemptCount_circuitBreakers svc messageId :
  circuitBreakers (incrementAttemptCount svc messageId) = circuitBreakers svc.
Proof. unfold incrementAttemptCount. destruct (_ !! _); reflexivity. Qed.

(** A retry sequence writes one entry of the breaker map: the one of its
    provider, whose options stay. *)
Lemma sendWithRetry_loop_breakers (remaining : nat) :
  forall attempt svc message provider cb w,
    circuitBreakers svc !! EmailProvider.name provider = Some cb ->
    let '(_, svc', _) := sendWithRetry_loop remaining attempt svc message provider cb w in
    exists cb',
      circuitBreakers svc' = <[EmailProvider.name provider := cb']> (circuitBreakers svc) /\
      CircuitBreaker.options cb' = CircuitBreaker.options cb.
Proof.
  induction remaining as [|remaining IH]; intros attempt svc message provider cb w Hcb.
  - sendWithRetry_loop_step. exists cb. split; [|reflexivity].
    symmetry. apply insert_id. exact Hcb.
  - sendWithRetry_loop_step.
    pose proof (execute_options clock cb (EmailProvider.sendEmail provider message) w) as Ho.
    destruct (CircuitBreaker.execute clock cb (EmailProvider.sendEmail provider message) w)
      as [[r cb1] w1].
    cbn [fst snd] in Ho. rewrite incrementAttemptCount_circuitBreakers.
    destruct r as [result|error].
    + exists cb1. split; [reflexivity|exact Ho].
    + destruct (_ =? _).
      * exists cb1. split; [reflexivity|exact Ho].
      * match goal with
        |- context [sendWithRetry_loop remaining (S attempt) ?s message provider cb1 ?ww] =>
          specialize (IH (S attempt) s message provider cb1 ww);
          destruct (sendWithRetry_loop remaining (S attempt) s message provider cb1 ww)
            as [[r' svc'] w']
        end.
        destruct IH as (cb' & Hmap & Ho').
        { cbn [circuitBreakers set_circuitBreakers]. apply lookup_insert_eq. }
        exists cb'. split; [|congruence].
        rewrite Hmap. cbn [circuitBreakers set_circuitBreakers]. apply insert_insert_eq.
Qed.

(** The tries of a retry sequence: at most [remaining], each with at most
    one provider call; a sequence that throws used them all. *)
Lemma sendWithRetry_loop_tries (remaining : nat) :
  forall attempt svc message provider cb w,
    let '(r, _, w') := sendWithRetry_loop remaining attempt svc message provider cb w in
    exists new,
      trace w' = trace w ++ new /\
      successfulAttempts new = 0%nat /\
      (failedAttempts new + resolvedTry r <= remaining)%nat /\
      (length (providerCalls new) <= failedAttempts new + resolvedTry r)%nat /\
      (Z.of_nat (attempt + remaining) = maxAttempts (retry (options svc)) ->
       resolvedTry r = 0%nat -> failedAttempts new = remaining).
Proof.
  induction remaining as [|remaining IH]; intros attempt svc message provider cb w.
  - sendWithRetry_loop_step. exists []. rewrite app_nil_r. repeat split; cbn; lia.
  - sendWithRetry_loop_step.
    pose proof (execute_sendEmail_trace cb provider message w) as Htry.
    destruct (CircuitBreaker.execute clock cb (EmailProvider.sendEmail provider message) w)
      as [[r cb1] w1].
    assert (exists sent, trace w1 = trace w ++ sent /\ failedAttempts sent = 0%nat /\
                         successfulAttempts sent = 0%nat /\
                         (length (providerCalls sent) <= 1)%nat)
      as (sent & Hsent & Hf0 & Hs0 & Hc0).
    { destruct Htry as [->| ->].
      - exists []. rewrite app_nil_r. repeat split. cbn. lia.
      - eexists. split; [reflexivity|]. repeat split. cbn. lia. }
    destruct r as [result|error].
    + exists sent. split; [exact Hsent|]. split; [exact Hs0|].
      rewrite Hf0. cbn [resolvedTry]. repeat split; lia.
    + cbn [options set_circuitBreakers]. rewrite incrementAttemptCount_options.
      destruct (Z.of_nat (S attempt) =? maxAttempts (retry (options svc))) eqn:Hlast.
      * eexists. split; [unfold log, emit; cbn [trace]; rewrite Hsent, <- app_assoc;
                         reflexivity|].
        rewrite successfulAttempts_app, failedAttempts_app, providerCalls_app, length_app,
          Hf0, Hs0.
        cbn [resolvedTry successfulAttempts failedAttempts providerCalls List.filter
             isSuccessfulAttempt isFailedAttempt isProviderCall String.eqb Ascii.eqb
             Bool.eqb length Nat.add].
        apply Z.eqb_eq in Hlast. repeat split; lia.
      * apply Z.eqb_neq in Hlast.
        match goal with
        |- context [sendWithRetry_loop remaining (S attempt) ?s message provider cb1 ?ww] =>
          specialize (IH (S attempt) s message provider cb1 ww);
          destruct (sendWithRetry_loop remaining (S attempt) s message provider cb1 ww)
            as [[r' svc'] w']
        end.
        cbn [options set_circuitBreakers] in IH. rewrite incrementAttemptCount_options in IH.
        destruct IH as (new & Htrace & Hs & Hbound & Hcalls & Hall).
        eexists. split; [rewrite Htrace; unfold delay, log, emit; cbn [trace];
                         rewrite Hsent, <- !app_assoc; reflexivity|].
        rewrite !successfulAttempts_app, !failedAttempts_app, !providerCalls_app, !length_app,
          Hf0, Hs0, Hs.
        cbn [successfulAttempts failedAttempts providerCalls List.filter
             isSuccessfulAttempt isFailedAttempt isProviderCall String.eqb Ascii.eqb
             Bool.eqb length Nat.add].
        split; [reflexivity|]. split; [lia|]. split; [lia|].
        intros Hinv Hthrow. rewrite Hall; [lia|lia|exact Hthrow].
Qed.

Lemma sameGuards_refl a : sameGuards a a.
Proof. intros name. reflexivity. Qed.

Lemma sameGuards_trans a b c : sameGuards a b -> sameGuards b c -> sameGuards a c.
Proof. intros Hab Hbc name. rewrite Hbc. apply Hab. Qed.

Lemma sameGuards_insert (breakers : gmap string CircuitBreaker.t) name cb cb' :
  breakers !! name = Some cb -> CircuitBreaker.options cb' = CircuitBreaker.options cb ->
  sameGuards breakers (<[name := cb']> breakers).
Proof.
  intros Hcb Ho other. destruct (decide (other = name)) as [->|Hother].
  - rewrite lookup_insert_eq, Hcb. cbn. congruence.
  - rewrite lookup_insert_ne by congruence. reflexivity.
Qed.

(** The fallback loop: the breakers stay registered with their options, at
    most [maxAttempts] tries are made per provider, and no try calls a
    provider more than once. *)
Lemma sendWithRetryAndFallback_loop_tries (rest : list EmailProvider.t) :
  forall lastError svc message w,
    let '(_, svc', w') := sendWithRetryAndFallback_loop rest lastError svc message w in
    sameGuards (circuitBreakers svc) (circuitBreakers svc') /\
    exists new,
      trace w' = trace w ++ new /\
      (failedAttempts new + successfulAttempts new
       <= Z.to_nat (maxAttempts (retry (options svc))) * length rest)%nat /\
      (length (providerCalls new) <= failedAttempts new + successfulAttempts new)%nat.
Proof.
  induction rest as [|provider rest IH]; intros lastError svc message w.
  - cbn [sendWithRetryAndFallback_loop]. split; [apply sameGuards_refl|].
    eexists. split; [unfold log, emit; cbn [trace]; reflexivity|]. cbn. lia.
  - cbn [sendWithRetryAndFallback_loop length].
    destruct (circuitBreakers svc !! EmailProvider.name provider) as [cb|] eqn:Hcb.
    + unfold sendWithRetry.
      pose proof (sendWithRetry_loop_tries (Z.to_nat (maxAttempts (retry (options svc)))) 0
                    svc message provider cb w) as Htries.
      pose proof (sendWithRetry_loop_breakers (Z.to_nat (maxAttempts (retry (options svc)))) 0
                    svc message provider cb w Hcb) as Hbreakers.
      pose proof (sendWithRetry_loop_steps (Z.to_nat (maxAttempts (retry (options svc)))) 0
                    svc message provider cb w) as Hoptions.
      destruct (sendWithRetry_loop _ 0 svc message provider cb w) as [[r svc1] w1].
      destruct Htries as (new1 & Htrace1 & Hs1 & Hbound1 & Hcalls1 & _).
      destruct Hbreakers as (cb' & Hmap & Ho).
      destruct Hoptions as [Hopt _]; [lia|].
      assert (sameGuards (circuitBreakers svc) (circuitBreakers svc1)) as Hguards
        by (rewrite Hmap; exact (sameGuards_insert _ _ _ _ Hcb Ho)).
      destruct r as [result|error]; cbn [resolvedTry] in *.
      * split; [exact Hguards|].
        eexists. split; [unfold log, emit; cbn [trace]; rewrite Htrace1, <- app_assoc;
                         reflexivity|].
        rewrite successfulAttempts_app, failedAttempts_app, providerCalls_app, length_app, Hs1.
        cbn [successfulAttempts failedAttempts providerCalls List.filter
             isSuccessfulAttempt isFailedAttempt isProviderCall String.eqb Ascii.eqb
             Bool.eqb length Nat.add].
        split; nia.
      * match goal with
        |- context [sendWithRetryAndFallback_loop rest ?e svc1 message ?ww] =>
          specialize (IH e svc1 message ww);
          destruct (sendWithRetryAndFallback_loop rest e svc1 message ww) as [[r' svc'] w']
        end.
        destruct IH as (Hguards' & new & Htrace & Hbound & Hcalls). rewrite Hopt in Hbound.
        split; [exact (sameGuards_trans _ _ _ Hguards Hguards')|].
        eexists. split; [rewrite Htrace; unfold log, emit; cbn [trace];
                         rewrite Htrace1, <- !app_assoc; reflexivity|].
        rewrite !successfulAttempts_app, !failedAttempts_app, !providerCalls_app, !length_app,
          Hs1.
        cbn [successfulAttempts failedAttempts providerCalls List.filter
             isSuccessfulAttempt isFailedAttempt isProviderCall String.eqb Ascii.eqb
             Bool.eqb length Nat.add].
        split; nia.
    + specialize (IH lastError svc message w).
      destruct (sendWithRetryAndFallback_loop rest lastError svc message w) as [[r' svc'] w'].
      destruct IH as (Hguards' & new & Htrace & Hbound & Hcalls).
      split; [exact Hguards'|]. exists new. split; [exact Htrace|]. split; nia.
Qed.

(** A dispatched [sendEmail] is a run of the fallback loop on the service
    with the token taken and the ['sending'] status written; the result and
    the world of the loop are those of the call. *)
Lemma sendEmail_dispatch_run svc message w :
  dispatches svc message w ->
  exists svc2,
    providers svc2 = providers svc /\ options svc2 = options svc /\
    circuitBreakers svc2 = circuitBreakers svc /\
    let '(r3, svc3, w3) :=
      sendWithRetryAndFallback_loop (providers svc) None svc2 message w in
    let '(r, svc', w') := sendEmail svc message w in
    providers svc' = providers svc /\ options svc' = options svc /\
    circuitBreakers svc' = circuitBreakers svc3 /\
    forall result, r3 = Normal result -> r = Normal result /\ w' = w3.
Proof.
  intros (Hrec & Hopen & Hgranted). unfold sendEmail. rewrite Hrec, Hopen.
  destruct (RateLimiter.acquire (rateLimiter svc) (clock w)) as [granted limiter].
  simpl in Hgranted. subst granted. cbn [negb]. unfold sendWithRetryAndFallback.
  match goal with |- context [sendWithRetryAndFallback_loop _ None ?s message w] =>
    exists s; set (svc2 := s)
  end.
  split; [reflexivity|]. split; [reflexivity|]. split; [reflexivity|].
  change (providers svc2) with (providers svc).
  pose proof (sendWithRetryAndFallback_loop_spec (providers svc) None svc2 message w) as H.
  destruct (sendWithRetryAndFallback_loop (providers svc) None svc2 message w)
    as [[r3 svc3] w3].
  destruct H as ((Hp & Ho & _) & _).
  destruct r3 as [result|error].
  - destruct (EmailResult.success result); (split; [exact Hp|]); (split; [exact Ho|]);
      (split; [reflexivity|]); intros result' [= <-]; split; reflexivity.
  - split; [exact Hp|]. split; [exact Ho|]. split; [reflexivity|]. discriminate.
Qed.

Lemma sendEmail_guards svc message w :
  let '(_, svc', _) := sendEmail svc message w in
  providers svc' = providers svc /\ options svc' = options svc /\
  sameGuards (circuitBreakers svc) (circuitBreakers svc').
Proof.
  destruct (sendEmail_paths svc message w) as [[status Hrec]|[[Hrec Hgate]|Hdispatch]].
  - destruct (sendEmail_recorded svc message w status Hrec) as [result ->].
    split; [reflexivity|]. split; [reflexivity|]. apply sameGuards_refl.
  - pose proof (sendEmail_queues svc message w Hrec Hgate) as H.
    destruct (sendEmail svc message w) as [[r svc'] w'].
    destruct H as (_ & _ & _ & _ & _ & _ & Hp & Ho & Hc & _).
    split; [exact Hp|]. split; [exact Ho|]. rewrite Hc. apply sameGuards_refl.
  - destruct (sendEmail_dispatch_run svc message w Hdispatch) as (svc2 & _ & _ & Hc2 & H).
    pose proof (sendWithRetryAndFallback_loop_tries (providers svc) None svc2 message w)
      as Htries.
    destruct (sendWithRetryAndFallback_loop (providers svc) None svc2 message w)
      as [[r3 svc3] w3].
    destruct (sendEmail svc message w) as [[r svc'] w'].
    destruct H as (Hp & Ho & Hc & _). destruct Htries as (Hguards & _).
    split; [exact Hp|]. split; [exact Ho|]. rewrite Hc, <- Hc2. exact Hguards.
Qed.

Lemma guardsKept_step providers0 options0 breakers0 a b :
  providers b = providers a -> options b = options a ->
  sameGuards (circuitBreakers a) (circuitBreakers b) ->
  guardsKept providers0 options0 breakers0 a -> guardsKept providers0 options0 breakers0 b.
Proof.
  intros Hp Ho Hguards (Hp0 & Ho0 & Hguards0).
  split; [congruence|]. split; [congruence|].
  exact (sameGuards_trans _ _ _ Hguards0 Hguards).
Qed.

Lemma guardsKept_sameLedger providers0 options0 breakers0 a b :
  sameLedger a b ->
  guardsKept providers0 options0 breakers0 a -> guardsKept providers0 options0 breakers0 b.
Proof.
  intros (Hp & Ho & Hc & _). apply guardsKept_step; [exact Hp|exact Ho|].
  rewrite Hc. apply sameGuards_refl.
Qed.

Lemma sameGuards_reset (breakers : gmap string CircuitBreaker.t) :
  sameGuards breakers (CircuitBreaker.reset <$> breakers).
Proof. intros name. rewrite lookup_fmap. destruct (breakers !! name); reflexivity. Qed.

Lemma perform_guards providers0 options0 breakers0 op state :
  guardsKept providers0 options0 breakers0 (fst state) ->
  guardsKept providers0 options0 breakers0 (fst (perform op state)).
Proof.
  destruct state as [svc w]. cbn [fst]. intros Hinv.
  destruct op as [message| |ms| |]; cbn [perform].
  - pose proof (sendEmail_guards svc message w) as Hsend.
    destruct (sendEmail svc message w) as [[r svc'] w'].
    destruct Hsend as (Hp & Ho & Hguards).
    exact (guardsKept_step _ _ _ _ _ Hp Ho Hguards Hinv).
  - unfold processQueue_resume.
    destruct (queueTask svc) as [|wake|[|]]; [exact Hinv| | |].
    + destruct (clock w <? wake); [exact Hinv|].
      pose proof (processQueue_loop_frame svc w) as H.
      destruct (processQueue_loop svc w) as [svc' w']. destruct H as (Hledger & _).
      exact (guardsKept_sameLedger _ _ _ _ _ Hledger Hinv).
    + assert (forall svc1 w1, guardsKept providers0 options0 breakers0 svc1 ->
                guardsKept providers0 options0 breakers0 (fst (processQueue_loop svc1 w1)))
        as Hloop.
      { intros svc1 w1 H1. pose proof (processQueue_loop_frame svc1 w1) as H.
        destruct (processQueue_loop svc1 w1) as [svc' w']. destruct H as (Hledger & _).
        exact (guardsKept_sameLedger _ _ _ _ _ Hledger H1). }
      destruct (emailQueue svc) as [|message rest]; [apply Hloop, Hinv|].
      pose proof (sendEmail_guards (set_emailQueue rest svc) message w) as Hsend.
      destruct (sendEmail (set_emailQueue rest svc) message w) as [[r svc'] w'].
      destruct Hsend as (Hp & Ho & Hguards). apply Hloop.
      exact (guardsKept_step _ _ _ _ _ Hp Ho Hguards Hinv).
    + exact Hinv.
  - exact Hinv.
  - apply (guardsKept_step _ _ _ svc); [reflexivity|reflexivity| |exact Hinv].
    apply sameGuards_reset.
  - apply (guardsKept_step _ _ _ svc); [reflexivity|reflexivity| |exact Hinv].
    apply sameGuards_reset.
Qed.

Lemma performAll_guards providers0 options0 breakers0 ops : forall state,
  guardsKept providers0 options0 breakers0 (fst state) ->
  guardsKept providers0 options0 breakers0 (fst (performAll ops state)).
Proof.
  induction ops as [|op ops IH]; intros state H; [exact H|].
  apply IH, perform_guards, H.
Qed.

(** The breakers that the constructor registers. *)
Lemma registered_breakers (options0 : CircuitBreakerOptions) (providers0 : list EmailProvider.t) :
  forall (breakers : gmap string CircuitBreaker.t) (name : string),
    fold_left
      (fun breakers provider =>
         <[EmailProvider.name provider := CircuitBreaker.new options0]> breakers)
      providers0 breakers !! name
    = if existsb (fun provider => String.eqb (EmailProvider.name provider) name) providers0
      then Some (CircuitBreaker.new options0)
      else breakers !! name.
Proof.
  induction providers0 as [|provider providers0 IH]; intros breakers name; [reflexivity|].
  cbn [fold_left existsb]. rewrite IH.
  destruct (existsb _ providers0); [rewrite orb_true_r; reflexivity|].
  rewrite orb_false_r. destruct (String.eqb_spec (EmailProvider.name provider) name) as [->|Hne].
  - apply lookup_insert_eq.
  - apply lookup_insert_ne. exact Hne.
Qed.

(** X8.  Every provider is guarded at all times.  Whatever is done with a
    service, it keeps the providers and options it was built with, a breaker
    carrying the configured options is registered under the name of each
    provider, and no breaker is registered under any other name: the fallback
    loop never skips a provider for want of a breaker. *)
Theorem every_provider_keeps_its_breaker
    (providers0 : list EmailProvider.t) (options0 : EmailServiceOptions) (w0 : World)
    (ops : list Operation) :
  let svc := fst (performAll ops (newEmailService providers0 options0 w0)) in
  providers svc = providers0 /\ options svc = options0 /\
  (forall provider, In provider providers0 ->
     exists cb,
       circuitBreakers svc !! EmailProvider.name provider = Some cb /\
       CircuitBreaker.options cb = circuitBreaker options0) /\
  (forall name cb, circuitBreakers svc !! name = Some cb ->
     exists provider, In provider providers0 /\ EmailProvider.name provider = name).
Proof.
  intros svc.
  pose proof (performAll_guards providers0 options0
                (circuitBreakers (fst (newEmailService providers0 options0 w0))) ops
                (newEmailService providers0 options0 w0)) as Hinv.
  fold svc in Hinv. destruct Hinv as (Hp & Ho & Hguards).
  { split; [reflexivity|]. split; [reflexivity|]. apply sameGuards_refl. }
  cbn [newEmailService fst circuitBreakers] in Hguards.
  split; [exact Hp|]. split; [exact Ho|]. split.
  - intros provider Hin. specialize (Hguards (EmailProvider.name provider)).
    rewrite registered_breakers in Hguards.
    replace (existsb _ providers0) with true in Hguards.
    + destruct (circuitBreakers svc !! EmailProvider.name provider) as [cb|];
        [|discriminate].
      exists cb. split; [reflexivity|]. cbn in Hguards. congruence.
    + symmetry. apply existsb_exists. exists provider. split; [exact Hin|].
      apply String.eqb_refl.
  - intros name cb Hcb. specialize (Hguards name).
    rewrite registered_breakers, Hcb, lookup_empty in Hguards.
    destruct (existsb _ providers0) eqn:Hex; [|discriminate].
    apply existsb_exists in Hex. destruct Hex as (provider & Hin & Hname).
    exists provider. split; [exact Hin|]. apply String.eqb_eq. exact Hname.
Qed.

Lemma triesThrough_app name a b :
  triesThrough name (a ++ b) = (triesThrough name a + triesThrough name b)%nat.
Proof. unfold triesThrough. rewrite List.filter_app, length_app. reflexivity. Qed.

Lemma callsIn_app name a b : callsIn name (a ++ b) = (callsIn name a + callsIn name b)%nat.
Proof. unfold callsIn. rewrite List.filter_app, length_app. reflexivity. Qed.

(** The tries of a retry sequence, provider by provider: they all go through
    the provider of the sequence, at most [remaining] of them, and each calls
    it at most once. *)
Lemma sendWithRetry_loop_tries_through (name : string) (remaining : nat) :
  forall attempt svc message provider cb w,
    let '(r, _, w') := sendWithRetry_loop remaining attempt svc message provider cb w in
    let mine (n : nat) : nat :=
      if String.eqb (EmailProvider.name provider) name then n else 0%nat in
    exists new,
      trace w' = trace w ++ new /\
      (triesThrough name new + mine (resolvedTry r) <= mine remaining)%nat /\
      (callsIn name new <= triesThrough name new + mine (resolvedTry r))%nat.
Proof.
  induction remaining as [|remaining IH]; intros attempt svc message provider cb w.
  - sendWithRetry_loop_step. exists []. rewrite app_nil_r.
    cbn. destruct (String.eqb _ name); repeat split; lia.
  - sendWithRetry_loop_step.
    pose proof (execute_sendEmail_trace cb provider message w) as Htry.
    destruct (CircuitBreaker.execute clock cb (EmailProvider.sendEmail provider message) w)
      as [[r cb1] w1].
    assert (exists sent, trace w1 = trace w ++ sent /\ triesThrough name sent = 0%nat /\
                         (callsIn name sent
                          <= if String.eqb (EmailProvider.name provider) name
                             then 1 else 0)%nat)
      as (sent & Hsent & Ht0 & Hc0).
    { destruct Htry as [->| ->].
      - exists []. rewrite app_nil_r. repeat split. cbn. lia.
      - eexists. split; [reflexivity|]. split; [reflexivity|].
        unfold callsIn. cbn [List.filter isCallTo].
        destruct (String.eqb _ name); cbn; lia. }
    destruct r as [result|error].
    + exists sent. split; [exact Hsent|]. rewrite Ht0. cbn [resolvedTry]. revert Hc0.
      destruct (String.eqb _ name); intros Hc0; split; lia.
    + cbn [options set_circuitBreakers]. rewrite incrementAttemptCount_options.
      destruct (Z.of_nat (S attempt) =? maxAttempts (retry (options svc))) eqn:Hlast.
      * eexists. split; [unfold log, emit; cbn [trace]; rewrite Hsent, <- app_assoc;
                         reflexivity|].
        rewrite triesThrough_app, callsIn_app, Ht0. revert Hc0.
        unfold triesThrough, callsIn.
        cbn [resolvedTry List.filter isTryThrough isCallTo String.eqb Ascii.eqb Bool.eqb
             andb length Nat.add].
        destruct (String.eqb _ name); cbn [length]; intros Hc0; split; lia.
      * match goal with
        |- context [sendWithRetry_loop remaining (S attempt) ?s message provider cb1 ?ww] =>
          specialize (IH (S attempt) s message provider cb1 ww);
          destruct (sendWithRetry_loop remaining (S attempt) s message provider cb1 ww)
            as [[r' svc'] w']
        end.
        destruct IH as (new & Htrace & Hbound & Hcalls).
        eexists. split; [rewrite Htrace; unfold delay, log, emit; cbn [trace];
                         rewrite Hsent, <- !app_assoc; reflexivity|].
        rewrite !triesThrough_app, !callsIn_app, Ht0. revert Hc0 Hbound Hcalls.
        unfold triesThrough, callsIn.
        cbn [List.filter isTryThrough isCallTo String.eqb Ascii.eqb Bool.eqb
             andb length Nat.add].
        destruct (String.eqb _ name); cbn [length]; intros Hc0 Hbound Hcalls; split; lia.
Qed.

(** The same for the fallback loop: the provider of a given name is tried at
    most [maxAttempts] times for each time it is configured. *)
Lemma sendWithRetryAndFallback_loop_tries_through (name : string)
    (rest : list EmailProvider.t) :
  forall lastError svc message w,
    let '(_, _, w') := sendWithRetryAndFallback_loop rest lastError svc message w in
    exists new,
      trace w' = trace w ++ new /\
      (triesThrough name new
       <= Z.to_nat (maxAttempts (retry (options svc))) * configured name rest)%nat /\
      (callsIn name new <= triesThrough name new)%nat.
Proof.
  induction rest as [|provider rest IH]; intros lastError svc message w.
  - cbn [sendWithRetryAndFallback_loop].
    eexists. split; [unfold log, emit; cbn [trace]; reflexivity|]. cbn. lia.
  - cbn [sendWithRetryAndFallback_loop]. unfold configured in *. cbn [List.filter].
    destruct (circuitBreakers svc !! EmailProvider.name provider) as [cb|] eqn:Hcb.
    + unfold sendWithRetry.
      pose proof (sendWithRetry_loop_tries_through name
                    (Z.to_nat (maxAttempts (retry (options svc)))) 0
                    svc message provider cb w) as Htries.
      pose proof (sendWithRetry_loop_steps (Z.to_nat (maxAttempts (retry (options svc)))) 0
                    svc message provider cb w) as Hoptions.
      destruct (sendWithRetry_loop _ 0 svc message provider cb w) as [[r svc1] w1].
      destruct Htries as (new1 & Htrace1 & Hbound1 & Hcalls1).
      destruct Hoptions as [Hopt _]; [lia|].
      destruct r as [result|error]; cbn [resolvedTry] in *.
      * eexists. split; [unfold log, emit; cbn [trace]; rewrite Htrace1, <- app_assoc;
                         reflexivity|].
        rewrite triesThrough_app, callsIn_app. revert Hbound1 Hcalls1.
        unfold triesThrough, callsIn.
        cbn [List.filter isTryThrough isCallTo String.eqb Ascii.eqb Bool.eqb andb
             length Nat.add].
        destruct (String.eqb (EmailProvider.name provider) name); cbn [length];
          intros Hbound1 Hcalls1; split; nia.
      * match goal with
        |- context [sendWithRetryAndFallback_loop rest ?e svc1 message ?ww] =>
          specialize (IH e svc1 message ww);
          destruct (sendWithRetryAndFallback_loop rest e svc1 message ww) as [[r' svc'] w']
        end.
        destruct IH as (new & Htrace & Hbound & Hcalls). rewrite Hopt in Hbound.
        eexists. split; [rewrite Htrace; unfold log, emit; cbn [trace];
                         rewrite Htrace1, <- !app_assoc; reflexivity|].
        rewrite !triesThrough_app, !callsIn_app. revert Hbound1 Hcalls1 Hbound Hcalls.
        unfold triesThrough, callsIn.
        cbn [List.filter isTryThrough isCallTo String.eqb Ascii.eqb Bool.eqb andb
             length Nat.add].
        destruct (String.eqb (EmailProvider.name provider) name); cbn [length];
          intros Hbound1 Hcalls1 Hbound Hcalls; split; nia.
    + specialize (IH lastError svc message w).
      destruct (sendWithRetryAndFallback_loop rest lastError svc message w) as [[r' svc'] w'].
      destruct IH as (new & Htrace & Hbound & Hcalls).
      exists new. split; [exact Htrace|].
      destruct (String.eqb (EmailProvider.name provider) name); cbn [length]; split; nia.
Qed.

(** X9.  One submission is bounded, provider by provider.  Whatever the state
    of the service, one [sendEmail] call tries the provider of any given name
    at most [maxAttempts] times for each time that name is configured (so at
    most [maxAttempts] times when the names are distinct), and each try calls
    that provider at most once; in all, at most [maxAttempts] tries per
    configured provider are made.  Unless the message was already recorded as
    sent, the attempt counter left in its status is the number of tries
    made. *)
Theorem one_submission_is_bounded
    (svc : EmailService) (message : EmailMessage.t) (w : World) :
  let '(_, svc', w') := sendEmail svc message w in
  exists new,
    trace w' = trace w ++ new /\
    (forall name,
       (callsIn name new <= triesThrough name new)%nat /\
       (triesThrough name new
        <= Z.to_nat (maxAttempts (retry (options svc))) * configured name (providers svc))%nat) /\
    (length (providerCalls new) <= failedAttempts new + successfulAttempts new)%nat /\
    (failedAttempts new + successfulAttempts new
     <= Z.to_nat (maxAttempts (retry (options svc))) * length (providers svc))%nat /\
    (recordedSuccess svc (EmailMessage.id message) = None ->
     exists status,
       getEmailStatus svc' (EmailMessage.id message) = Some status /\
       EmailStatus.attempts status = (failedAttempts new + successfulAttempts new)%nat).
Proof.
  destruct (sendEmail_paths svc message w) as [[status Hrec]|[[Hrec Hgate]|Hdispatch]].
  - destruct (sendEmail_recorded svc message w status Hrec) as [result ->].
    eexists. split; [unfold log, emit; cbn [trace]; reflexivity|].
    split; [intros name; cbn; lia|].
    cbn. split; [lia|]. split; [lia|]. congruence.
  - pose proof (sendEmail_queues svc message w Hrec Hgate) as H.
    destruct (sendEmail svc message w) as [[r svc'] w'].
    destruct H as (_ & new & _ & _ & _ & _ & _ & _ & _ & _ & Hst & _ & Htrace & Hquiet).
    destruct Hquiet as (Hf & Hs & Hcalls).
    exists new. split; [exact Htrace|].
    split.
    { intros name.
      assert (callsIn name new = 0%nat) as ->.
      { unfold callsIn. apply length_zero_iff_nil.
        assert (forall events, providerCalls events = [] ->
                  List.filter (isCallTo name) events = []) as Hnone.
        { induction events as [|e events IH]; [reflexivity|].
          unfold providerCalls. cbn [List.filter]. destruct e; cbn [isProviderCall isCallTo].
          - exact IH.
          - discriminate.
          - exact IH. }
        apply Hnone, Hcalls. }
      assert (triesThrough name new = 0%nat) as ->; [|lia].
      unfold triesThrough. apply length_zero_iff_nil.
      assert (forall events, failedAttempts events = 0%nat -> successfulAttempts events = 0%nat ->
                List.filter (isTryThrough name) events = []) as Hnone.
      { induction events as [|e events IH]; [reflexivity|].
        unfold failedAttempts, successfulAttempts. cbn [List.filter].
        destruct (isTryThrough name e) eqn:Htry.
        - assert (isFailedAttempt e = true \/ isSuccessfulAttempt e = true) as [He|He].
          { destruct e as [[| |] text context| |]; try discriminate;
              cbn [isTryThrough isFailedAttempt isSuccessfulAttempt] in *.
            - right.
              destruct context as [|? [|[? [| | | |]] [|? [|]]]]; try discriminate.
              apply andb_true_iff in Htry. apply Htry.
            - left.
              destruct context as [|? [|[? [| | | |]] [|? [|? [|? [|]]]]]]; try discriminate.
              apply andb_true_iff in Htry. apply Htry. }
          + rewrite He. discriminate.
          + intros _. rewrite He. discriminate.
        - intros H1 H2. apply IH.
          + destruct (isFailedAttempt e); [discriminate|exact H1].
          + destruct (isSuccessfulAttempt e); [discriminate|exact H2]. }
      apply Hnone; assumption. }
    rewrite Hf, Hs, Hcalls. cbn [length].
    split; [lia|]. split; [lia|]. intros _. eexists.
    split; [unfold getEmailStatus; rewrite Hst; apply lookup_insert_eq|reflexivity].
  - destruct (sendEmail_dispatch_run svc message w Hdispatch) as (svc2 & _ & Ho2 & _ & H).
    pose proof (sendWithRetryAndFallback_loop_tries (providers svc) None svc2 message w)
      as Htries.
    pose proof (fun name =>
                  sendWithRetryAndFallback_loop_tries_through name (providers svc) None svc2
                    message w) as Hthrough.
    pose proof (sendWithRetryAndFallback_loop_spec (providers svc) None svc2 message w)
      as Hspec.
    pose proof (sendEmail_delivery svc message w Hdispatch) as Hdelivery.
    destruct (sendWithRetryAndFallback_loop (providers svc) None svc2 message w)
      as [[r3 svc3] w3].
    destruct (sendEmail svc message w) as [[r svc'] w'].
    destruct Hspec as (_ & result3 & _ & -> & _).
    destruct H as (_ & _ & _ & Hsame). destruct (Hsame result3 eq_refl) as [_ ->].
    destruct Htries as (_ & new & Htrace & Hbound & Hcalls). rewrite Ho2 in Hbound.
    destruct Hdelivery as (result & new' & status & _ & Htrace' & Hst & _ & Hattempts & _).
    assert (new' = new) as -> by (apply (app_inv_head (trace w)); congruence).
    exists new. split; [exact Htrace|].
    split.
    { intros name. destruct (Hthrough name) as (new' & Htrace'' & Hbound' & Hcalls').
      assert (new' = new) as -> by (apply (app_inv_head (trace w)); congruence).
      rewrite Ho2 in Hbound'. split; assumption. }
    split; [exact Hcalls|]. split; [exact Hbound|].
    intros _. exists status. split; [exact Hst|exact Hattempts].
Qed.

(** ** Fallback *)

Lemma onSuccess_failures (cb : CircuitBreaker.t) (now : Z) :
  CircuitBreaker.failures (CircuitBreaker.onSuccess cb now) = 0%nat.
Proof.
  unfold CircuitBreaker.onSuccess.
  match goal with |- context [CircuitBreaker.cleanupHistory ?c now] =>
    destruct (cleanupHistory_fields c now) as (_ & _ & _ & _ & Hf);
    cbn [CircuitBreaker.failures] in Hf;
    generalize dependent (CircuitBreaker.cleanupHistory c now); intros pruned Hf
  end.
  destruct (CircuitBreaker.state_eqb _ _); [|exact Hf].
  destruct (2 <=? _)%nat; exact Hf.
Qed.

(** A first try that the breaker lets through and the provider answers ends
    the fallback loop at once. *)
Lemma fallback_first_try svc message w provider rest cb result lastError :
  0 < maxAttempts (retry (options svc)) ->
  circuitBreakers svc !! EmailProvider.name provider = Some cb ->
  CircuitBreaker.state cb <> CircuitBreaker.open ->
  EmailProvider.outcome (EmailProvider.behaviour provider w message) = Normal result ->
  let '(r, svc', w') :=
    sendWithRetryAndFallback_loop (provider :: rest) lastError svc message w in
  r = Normal result /\
  (exists new,
     trace w' = trace w ++ new /\
     providerCalls new = [EvSend (EmailProvider.name provider) message] /\
     failedAttempts new = 0%nat /\ successfulAttempts new = 1%nat) /\
  exists cb',
    circuitBreakers svc' !! EmailProvider.name provider = Some cb' /\
    CircuitBreaker.getFailureCount cb' = 0%nat.
Proof.
  intros Hpos Hcb Hstate Hout. cbn [sendWithRetryAndFallback_loop]. rewrite Hcb.
  unfold sendWithRetry.
  destruct (Z.to_nat (maxAttempts (retry (options svc)))) as [|n] eqn:Hn; [lia|].
  sendWithRetry_loop_step. rewrite execute_not_open by exact Hstate.
  unfold CircuitBreaker.settle, EmailProvider.sendEmail. rewrite Hout.
  split; [reflexivity|]. split.
  - eexists. split; [unfold log, emit; cbn [trace]; rewrite <- app_assoc; reflexivity|].
    repeat split.
  - eexists. split; [cbn [circuitBreakers set_circuitBreakers]; apply lookup_insert_eq|].
    apply onSuccess_failures.
Qed.

(** A provider that never resolves uses all its tries and leaves the
    breakers of the other names as they were. *)
Lemma sendWithRetry_rejected svc message provider cb w :
  0 < maxAttempts (retry (options svc)) ->
  rejects provider message ->
  circuitBreakers svc !! EmailProvider.name provider = Some cb ->
  let '(r, svc', w') := sendWithRetry svc message provider cb w in
  (exists error, r = Throw error) /\
  options svc' = options svc /\
  (forall name, name <> EmailProvider.name provider ->
     circuitBreakers svc' !! name = circuitBreakers svc !! name) /\
  is_Some (circuitBreakers svc' !! EmailProvider.name provider) /\
  exists new,
    trace w' = trace w ++ new /\
    failedAttempts new = Z.to_nat (maxAttempts (retry (options svc))) /\
    successfulAttempts new = 0%nat.
Proof.
  intros Hpos Hrejects Hcb.
  pose proof (sendWithRetry_spec svc message provider cb w) as Hspec.
  unfold sendWithRetry in *.
  pose proof (sendWithRetry_loop_tries (Z.to_nat (maxAttempts (retry (options svc)))) 0
                svc message provider cb w) as Htries.
  pose proof (sendWithRetry_loop_breakers (Z.to_nat (maxAttempts (retry (options svc)))) 0
                svc message provider cb w Hcb) as Hbreakers.
  destruct (sendWithRetry_loop _ 0 svc message provider cb w) as [[r svc1] w1].
  destruct Hspec as ((_ & Ho & _) & new0 & _ & _ & _ & Hres).
  destruct Htries as (new & Htrace & Hs & _ & _ & Hall).
  destruct Hbreakers as (cb' & Hmap & _).
  destruct r as [result|error].
  { destruct Hres as [w0 Hw0]. exfalso. exact (Hrejects w0 result Hw0). }
  split; [eexists; reflexivity|]. split; [exact Ho|]. split.
  { intros name Hname. rewrite Hmap. apply lookup_insert_ne. congruence. }
  split; [rewrite Hmap, lookup_insert_eq; eexists; reflexivity|].
  exists new. split; [exact Htrace|]. split; [|exact Hs].
  apply Hall; [lia|reflexivity].
Qed.

Lemma fallback_after_rejections (failing : list EmailProvider.t) :
  forall lastError svc message w provider rest cb,
    0 < maxAttempts (retry (options svc)) ->
    (forall other, In other failing ->
       rejects other message /\
       EmailProvider.name other <> EmailProvider.name provider /\
       is_Some (circuitBreakers svc !! EmailProvider.name other)) ->
    circuitBreakers svc !! EmailProvider.name provider = Some cb ->
    CircuitBreaker.state cb <> CircuitBreaker.open ->
    (forall w0, exists result,
       EmailProvider.outcome (EmailProvider.behaviour provider w0 message) = Normal result) ->
    let '(r, _, w') :=
      sendWithRetryAndFallback_loop (failing ++ provider :: rest) lastError svc message w in
    exists result w0 new,
      r = Normal result /\
      EmailProvider.outcome (EmailProvider.behaviour provider w0 message) = Normal result /\
      trace w' = trace w ++ new /\
      failedAttempts new
      = (Z.to_nat (maxAttempts (retry (options svc))) * length failing)%nat /\
      successfulAttempts new = 1%nat.
Proof.
  induction failing as [|other failing IH];
    intros lastError svc message w provider rest cb Hpos Hfailing Hcb Hstate Hanswers.
  - cbn [app length]. destruct (Hanswers w) as [result Hout].
    pose proof (fallback_first_try svc message w provider rest cb result lastError
                  Hpos Hcb Hstate Hout) as H.
    destruct (sendWithRetryAndFallback_loop (provider :: rest) lastError svc message w)
      as [[r svc'] w'].
    destruct H as (-> & (new & Htrace & _ & Hf & Hs) & _).
    exists result, w, new. repeat (split; [assumption || reflexivity|]).
    split; [rewrite Hf; lia|exact Hs].
  - cbn [app length sendWithRetryAndFallback_loop].
    destruct (Hfailing other (or_introl eq_refl)) as (Hrejects & Hname & [cbo Hcbo]).
    rewrite Hcbo.
    pose proof (sendWithRetry_rejected svc message other cbo w Hpos Hrejects Hcbo) as Hone.
    destruct (sendWithRetry svc message other cbo w) as [[r1 svc1] w1].
    destruct Hone as ([error ->] & Ho & Hothers & Hstill & new1 & Htrace1 & Hf1 & Hs1).
    match goal with
    |- context [sendWithRetryAndFallback_loop _ ?e svc1 message ?ww] =>
      specialize (IH e svc1 message ww provider rest cb);
      destruct (sendWithRetryAndFallback_loop (failing ++ provider :: rest) e svc1 message ww)
        as [[r' svc'] w']
    end.
    destruct IH as (result & w0 & new & -> & Hout & Htrace & Hf & Hs).
    + rewrite Ho. exact Hpos.
    + intros q Hq. destruct (Hfailing q (or_intror Hq)) as (Hr & Hn & Hsome).
      split; [exact Hr|]. split; [exact Hn|].
      destruct (decide (EmailProvider.name q = EmailProvider.name other)) as [->|Hne];
        [exact Hstill|]. rewrite (Hothers _ Hne). exact Hsome.
    + rewrite Hothers by congruence. exact Hcb.
    + exact Hstate.
    + exact Hanswers.
    + exists result, w0. eexists. split; [reflexivity|]. split; [exact Hout|].
      split; [rewrite Htrace; unfold log, emit; cbn [trace]; rewrite Htrace1, <- !app_assoc;
              reflexivity|].
      rewrite !failedAttempts_app, !successfulAttempts_app, Hf1, Hs1, Hf, Hs, Ho.
      cbn [successfulAttempts failedAttempts List.filter isSuccessfulAttempt isFailedAttempt
           String.eqb Ascii.eqb Bool.eqb length Nat.add].
      split; lia.
Qed.

(** X10.  Fallback follows the order of the provider list.  When the providers
    listed before [provider] never resolve for the message, each under a
    name other than its own, and [provider] always delivers behind a breaker
    that is not open, a dispatched message is delivered by [provider]: the
    call returns its result, the status is ['sent'] with the provider that
    the result names, and the attempt counter is [maxAttempts] for each
    provider tried in vain plus one. *)
Theorem fallback_reaches_the_first_willing_provider
    (svc : EmailService) (message : EmailMessage.t) (w : World)
    (failing rest : list EmailProvider.t) (provider : EmailProvider.t)
    (cb : CircuitBreaker.t) :
  dispatches svc message w ->
  0 < maxAttempts (retry (options svc)) ->
  providers svc = failing ++ provider :: rest ->
  (forall other, In other failing ->
     rejects other message /\
     EmailProvider.name other <> EmailProvider.name provider /\
     is_Some (circuitBreakers svc !! EmailProvider.name other)) ->
  circuitBreakers svc !! EmailProvider.name provider = Some cb ->
  CircuitBreaker.state cb <> CircuitBreaker.open ->
  delivers provider message ->
  let '(r, svc', w') := sendEmail svc message w in
  exists result w0 status,
    r = Normal result /\
    EmailProvider.outcome (EmailProvider.behaviour provider w0 message) = Normal result /\
    EmailResult.success result = true /\
    getEmailStatus svc' (EmailMessage.id message) = Some status /\
    EmailStatus.status status = EmailStatus.sent /\
    EmailStatus.provider status = Some (EmailResult.provider result) /\
    EmailStatus.attempts status
    = (Z.to_nat (maxAttempts (retry (options svc))) * length failing + 1)%nat /\
    EmailMessage.id message ∈ sentEmails svc'.
Proof.
  intros Hdispatch Hpos Hproviders Hfailing Hcb Hstate Hdelivers.
  destruct (sendEmail_dispatch_run svc message w Hdispatch) as (svc2 & _ & Ho2 & Hc2 & H).
  pose proof (fallback_after_rejections failing None svc2 message w provider rest cb) as Hloop.
  pose proof (sendEmail_delivery svc message w Hdispatch) as Hdelivery.
  rewrite Hproviders in H.
  destruct (sendWithRetryAndFallback_loop (failing ++ provider :: rest) None svc2 message w)
    as [[r3 svc3] w3].
  destruct (sendEmail svc message w) as [[r svc'] w'].
  destruct Hloop as (result & w0 & new & -> & Hout & Htrace & Hf & Hs).
  { rewrite Ho2. exact Hpos. }
  { rewrite Hc2. exact Hfailing. }
  { rewrite Hc2. exact Hcb. }
  { exact Hstate. }
  { intros w1. destruct (Hdelivers w1) as (result & Hout & _). exists result. exact Hout. }
  destruct H as (_ & _ & _ & Hsame). destruct (Hsame result eq_refl) as [-> ->].
  destruct Hdelivery as (result' & new' & status & [= <-] & Htrace' & Hst & _ & Hattempts
                         & _ & Hcases).
  assert (new' = new) as -> by (apply (app_inv_head (trace w)); congruence).
  assert (EmailResult.success result = true) as Hsuccess.
  { destruct (Hdelivers w0) as (result' & Hout' & Hsuccess). congruence. }
  destruct Hcases as [(_ & _ & Hsent & Hprovider & Hset & _)|(Hfalse & _)]; [|congruence].
  exists result, w0, status. split; [reflexivity|]. split; [exact Hout|].
  split; [exact Hsuccess|]. split; [exact Hst|]. split; [exact Hsent|].
  split; [exact Hprovider|]. split; [rewrite Hattempts, Hf, Hs, Ho2; reflexivity|].
  rewrite Hset. apply elem_of_union. left. apply elem_of_singleton. reflexivity.
Qed.

Lemma fallback_reaches_the_first_willing_provider_witness :
  let '(r, svc', w') :=
    sendEmail (fst fallbackScenario) (createTestMessage "test-1") (snd fallbackScenario) in
  exists result w0 status,
    r = Normal result /\
    EmailProvider.outcome
      (EmailProvider.behaviour (mockProvider "Provider B" "Provider B" 0) w0
         (createTestMessage "test-1")) = Normal result /\
    EmailResult.success result = true /\
    getEmailStatus svc' "test-1" = Some status /\
    EmailStatus.status status = EmailStatus.sent /\
    EmailStatus.provider status = Some (EmailResult.provider result) /\
    EmailStatus.attempts status = 4%nat /\
    "test-1" ∈ sentEmails svc'.
Proof.
  apply (fallback_reaches_the_first_willing_provider
           (fst fallbackScenario) (createTestMessage "test-1") (snd fallbackScenario)
           [failingProvider "Provider A"] [] (mockProvider "Provider B" "Provider B" 0)
           (CircuitBreaker.new (circuitBreaker testOptions))).
  - vm_compute. repeat split.
  - reflexivity.
  - reflexivity.
  - intros other [<-|[]]. split; [intros w0 result; discriminate|].
    split; [discriminate|]. vm_compute. eexists. reflexivity.
  - reflexivity.
  - discriminate.
  - intros w0. eexists. split; reflexivity.
Defined.

(** X11.  The first answer is final.  When the first provider, behind a breaker
    that is not open, resolves its first call, [sendEmail] returns that
    result after this one provider call, whatever the result says: a result
    with [success: false] is neither retried nor handed to the next provider.
    The status is ['sent'] or ['failed'] after the [success] field, with one
    attempt, and the breaker of the provider has counted a success. *)
Theorem first_answer_ends_the_submission
    (svc : EmailService) (message : EmailMessage.t) (w : World)
    (provider : EmailProvider.t) (rest : list EmailProvider.t)
    (cb : CircuitBreaker.t) (result : EmailResult.t) :
  dispatches svc message w ->
  0 < maxAttempts (retry (options svc)) ->
  providers svc = provider :: rest ->
  circuitBreakers svc !! EmailProvider.name provider = Some cb ->
  CircuitBreaker.state cb <> CircuitBreaker.open ->
  EmailProvider.outcome (EmailProvider.behaviour provider w message) = Normal result ->
  let '(r, svc', w') := sendEmail svc message w in
  r = Normal result /\
  (exists new,
     trace w' = trace w ++ new /\
     providerCalls new = [EvSend (EmailProvider.name provider) message]) /\
  exists status cb',
    getEmailStatus svc' (EmailMessage.id message) = Some status /\
    EmailStatus.attempts status = 1%nat /\
    EmailStatus.status status
    = (if EmailResult.success result then EmailStatus.sent else EmailStatus.failed) /\
    (EmailResult.success result = false ->
     EmailStatus.error status = EmailResult.error result /\
     sentEmails svc' = sentEmails svc) /\
    circuitBreakers svc' !! EmailProvider.name provider = Some cb' /\
    CircuitBreaker.getFailureCount cb' = 0%nat.
Proof.
  intros Hdispatch Hpos Hproviders Hcb Hstate Hout.
  destruct (sendEmail_dispatch_run svc message w Hdispatch) as (svc2 & _ & Ho2 & Hc2 & H).
  pose proof (fallback_first_try svc2 message w provider rest cb result None) as Hloop.
  pose proof (sendEmail_delivery svc message w Hdispatch) as Hdelivery.
  rewrite Hproviders in H.
  destruct (sendWithRetryAndFallback_loop (provider :: rest) None svc2 message w)
    as [[r3 svc3] w3].
  destruct (sendEmail svc message w) as [[r svc'] w'].
  destruct Hloop as (-> & (new & Htrace & Hcalls & Hf & Hs) & cb' & Hcb' & Hcount).
  { rewrite Ho2. exact Hpos. }
  { rewrite Hc2. exact Hcb. }
  { exact Hstate. }
  { exact Hout. }
  destruct H as (_ & _ & Hc & Hsame). destruct (Hsame result eq_refl) as [-> ->].
  destruct Hdelivery as (result' & new' & status & [= <-] & Htrace' & Hst & _ & Hattempts
                         & _ & Hcases).
  assert (new' = new) as -> by (apply (app_inv_head (trace w)); congruence).
  split; [reflexivity|]. split; [exists new; split; assumption|].
  exists status, cb'. split; [exact Hst|]. split; [rewrite Hattempts, Hf, Hs; reflexivity|].
  split; [|split; [|split; [rewrite Hc; exact Hcb'|exact Hcount]]].
  - destruct Hcases as [(-> & _ & Hsent & _)|(-> & Hfailed & _)]; assumption.
  - intros Hfalse.
    destruct Hcases as [(Htrue & _)|(_ & _ & Herror & Hset & _)]; [congruence|].
    split; assumption.
Qed.

Lemma first_answer_ends_the_submission_witness :
  let '(r, svc', w') :=
    sendEmail (fst declinedScenario) (createTestMessage "test-1") (snd declinedScenario) in
  (exists result, r = Normal result /\ EmailResult.success result = false) /\
  (exists new,
     trace w' = trace (snd declinedScenario) ++ new /\
     providerCalls new = [EvSend "Provider A" (createTestMessage "test-1")]) /\
  exists status,
    getEmailStatus svc' "test-1" = Some status /\
    EmailStatus.attempts status = 1%nat /\
    EmailStatus.status status = EmailStatus.failed /\
    EmailStatus.error status = Some "Mailbox full".
Proof.
  pose proof (first_answer_ends_the_submission
                (fst declinedScenario) (createTestMessage "test-1") (snd declinedScenario)
                (decliningProvider "Provider A") [mockProvider "Provider B" "Provider B" 0]
                (CircuitBreaker.new (circuitBreaker testOptions))
                {| EmailResult.success := false;
                   EmailResult.messageId := None;
                   EmailResult.error := Some "Mailbox full";
                   EmailResult.provider := "Provider A";
                   EmailResult.timestamp := 1000100 |}) as H.
  destruct (sendEmail (fst declinedScenario) (createTestMessage "test-1")
              (snd declinedScenario)) as [[r svc'] w'].
  destruct H as (-> & Hcalls & status & cb' & Hst & Hattempts & Hstatus & Hfailed & _).
  - vm_compute. repeat split.
  - reflexivity.
  - reflexivity.
  - reflexivity.
  - discriminate.
  - reflexivity.
  - split; [eexists; split; reflexivity|]. split; [exact Hcalls|].
    exists status. split; [exact Hst|]. split; [exact Hattempts|]. split; [exact Hstatus|].
    exact (proj1 (Hfailed eq_refl)).
Defined.

(** ** Draining the queue *)

(** X12.  Draining one message takes two tokens.  The drain loop wakes up, finds
    that not every breaker is open and takes a token; it then hands the
    message at the head of the queue to [sendEmail], which asks the limiter
    again.  When the limiter grants one call at that time but not two, no
    provider is called: the message goes back to the end of the queue with a
    fresh ['queued'] status. *)
Theorem draining_one_message_takes_two_tokens
    (svc : EmailService) (w : World) (message : EmailMessage.t)
    (rest : list EmailMessage.t) (wake : Z) :
  queueTask svc = AwaitingDelay wake -> wake <= clock w ->
  emailQueue svc = message :: rest ->
  allCircuitBreakersOpen svc = false ->
  recordedSuccess svc (EmailMessage.id message) = None ->
  fst (RateLimiter.acquire (rateLimiter svc) (clock w)) = true ->
  fst (RateLimiter.acquire (snd (RateLimiter.acquire (rateLimiter svc) (clock w))) (clock w))
  = false ->
  let '(svc', w') := performAll [OpResumeQueue; OpResumeQueue] (svc, w) in
  emailQueue svc' = rest ++ [message] /\
  getEmailStatus svc' (EmailMessage.id message) = Some (queuedStatus message (clock w)) /\
  sentEmails svc' = sentEmails svc /\
  providerCalls (trace w') = providerCalls (trace w).
Proof.
  intros Htask Hwake Hq Hopen Hrec Hfirst Hsecond.
  cbn [performAll fold_left perform].
  assert (processQueue_resume svc w
          = (set_queueTask (AwaitingAcquire true)
               (set_rateLimiter (snd (RateLimiter.acquire (rateLimiter svc) (clock w))) svc),
             w)) as ->.
  { unfold processQueue_resume. rewrite Htask.
    destruct (Z.ltb_spec (clock w) wake) as [Habs|_]; [lia|].
    unfold processQueue_loop. rewrite Hq, Hopen.
    destruct (RateLimiter.acquire (rateLimiter svc) (clock w)) as [granted limiter].
    cbn [fst snd] in *. subst granted. reflexivity. }
  set (limiter := snd (RateLimiter.acquire (rateLimiter svc) (clock w))) in *.
  cbn [perform]. unfold processQueue_resume.
  cbn [queueTask set_queueTask emailQueue set_rateLimiter]. rewrite Hq.
  match goal with |- context [sendEmail ?s message w] =>
    pose proof (sendEmail_queues s message w Hrec (or_intror Hsecond)) as Hsend;
    destruct (sendEmail s message w) as [[r svc1] w1]
  end.
  destruct Hsend as (result & new & -> & _ & _ & _ & _ & _ & _ & Hs & Hst & Hq1 & Htrace
                     & Hquiet).
  cbn [sentEmails emailStatuses emailQueue set_emailQueue set_queueTask set_rateLimiter]
    in Hs, Hst, Hq1.
  pose proof (processQueue_loop_frame svc1 w1) as Hloop.
  destruct (processQueue_loop svc1 w1) as [svc' w'].
  destruct Hloop as ((_ & _ & _ & Hst' & Hs') & Hq' & new' & Htrace' & Hquiet').
  split; [congruence|].
  split; [unfold getEmailStatus; rewrite Hst', Hst; apply lookup_insert_eq|].
  split; [congruence|].
  rewrite Htrace', Htrace, !providerCalls_app.
  destruct Hquiet as (_ & _ & ->), Hquiet' as (_ & _ & ->). rewrite !app_nil_r. reflexivity.
Qed.

Lemma draining_one_message_takes_two_tokens_witness :
  RateLimiter.getAvailableTokens (rateLimiter (fst drainScenario)) (clock (snd drainScenario))
    = (1, RateLimiter.refill (rateLimiter (fst drainScenario)) (clock (snd drainScenario))) /\
  let '(svc', w') :=
    performAll [OpResumeQueue; OpResumeQueue] (fst drainScenario, snd drainScenario) in
  emailQueue svc' = [] ++ [createTestMessage "test-3"] /\
  getEmailStatus svc' "test-3"
  = Some (queuedStatus (createTestMessage "test-3") (clock (snd drainScenario))) /\
  sentEmails svc' = sentEmails (fst drainScenario) /\
  providerCalls (trace w') = providerCalls (trace (snd drainScenario)).
Proof.
  split; [vm_compute; reflexivity|].
  apply (draining_one_message_takes_two_tokens (fst drainScenario) (snd drainScenario)
           (createTestMessage "test-3") [] 1005000);
    vm_compute; congruence.
Defined.

(** ** The back-off delays *)



(** ** Recovery of the breaker *)

Lemma cleanupHistory_all_recent (cb : CircuitBreaker.t) (now : Z) :
  (forall time, In time (CircuitBreaker.failureHistory cb) ->
     now - monitoringWindow (CircuitBreaker.options cb) <= time) ->
  CircuitBreaker.cleanupHistory cb now = cb.
Proof.
  intros Hrecent. unfold CircuitBreaker.cleanupHistory.
  destruct (CircuitBreaker.failureHistory cb) as [|time history]; [reflexivity|].
  cbn [findIndex].
  rewrite (proj2 (Z.leb_le _ _) (Hrecent time (or_introl eq_refl))). reflexivity.
Qed.

Lemma recentFailures_all_recent (history : list Z) (window now : Z) :
  (forall time, In time history -> now - time < window) ->
  CircuitBreaker.recentFailures history window now = history.
Proof.
  intros Hrecent. unfold CircuitBreaker.recentFailures. induction history as [|time history IH];
    [reflexivity|].
  cbn [List.filter]. rewrite (proj2 (Z.ltb_lt _ _) (Hrecent time (or_introl eq_refl))).
  f_equal. apply IH. intros other Hin. apply Hrecent. right. exact Hin.
Qed.

(** X14.  Recovery does not clear the failure history.  An open breaker that is
    probed after [resetTimeout] and sees two successes is closed again, but
    the failures recorded before are still in its history: if they are still
    within the monitoring window when the next failure comes, that single
    failure opens the breaker again. *)
Theorem recovery_does_not_clear_the_failure_history
    (cb : CircuitBreaker.t) (t1 t2 t3 : Z) :
  CircuitBreaker.state cb = CircuitBreaker.open ->
  resetTimeout (CircuitBreaker.options cb) < t1 - CircuitBreaker.lastFailureTime cb ->
  t1 <= t2 -> t2 <= t3 ->
  0 < monitoringWindow (CircuitBreaker.options cb) ->
  (forall time, In time (CircuitBreaker.failureHistory cb) ->
     t3 - time < monitoringWindow (CircuitBreaker.options cb)) ->
  failureThreshold (CircuitBreaker.options cb)
    <= Z.of_nat (length (CircuitBreaker.failureHistory cb)) + 1 ->
  let recovered := breaker_after cb [(successfulOperation, t1); (successfulOperation, t2)] in
  CircuitBreaker.state recovered = CircuitBreaker.closed /\
  CircuitBreaker.getFailureCount recovered = 0%nat /\
  CircuitBreaker.failureHistory recovered = CircuitBreaker.failureHistory cb /\
  CircuitBreaker.state (breaker_after recovered [(failingOperation, t3)])
  = CircuitBreaker.open.
Proof.
  intros Hstate Htimeout H12 H23 Hwindow Hrecent Hthreshold recovered.
  destruct cb as [failures lastFailureTime state successCount history options].
  cbn [CircuitBreaker.state CircuitBreaker.lastFailureTime CircuitBreaker.failureHistory
       CircuitBreaker.options] in *. subst state.
  assert (recovered
          = {| CircuitBreaker.failures := 0;
               CircuitBreaker.lastFailureTime := lastFailureTime;
               CircuitBreaker.state := CircuitBreaker.closed;
               CircuitBreaker.successCount := 2;
               CircuitBreaker.failureHistory := history;
               CircuitBreaker.options := options |}) as ->.
  { unfold recovered, breaker_after. cbn [fold_left fst snd].
    unfold CircuitBreaker.execute at 2, CircuitBreaker.gate.
    cbn [CircuitBreaker.state CircuitBreaker.state_eqb CircuitBreaker.options
         CircuitBreaker.lastFailureTime].
    rewrite (proj2 (Z.ltb_lt _ _) Htimeout).
    unfold CircuitBreaker.settle, successfulOperation. cbn [fst snd].
    unfold CircuitBreaker.onSuccess.
    rewrite cleanupHistory_all_recent
      by (cbn; intros time Hin; specialize (Hrecent time Hin); lia).
    cbn [CircuitBreaker.state CircuitBreaker.set_state CircuitBreaker.set_successCount
         CircuitBreaker.state_eqb CircuitBreaker.successCount Nat.leb].
    unfold CircuitBreaker.execute, CircuitBreaker.gate.
    cbn [CircuitBreaker.state CircuitBreaker.state_eqb CircuitBreaker.set_successCount].
    unfold CircuitBreaker.settle. cbn [fst snd].
    unfold CircuitBreaker.onSuccess.
    rewrite cleanupHistory_all_recent
      by (cbn; intros time Hin; specialize (Hrecent time Hin); lia).
    reflexivity. }
  split; [reflexivity|]. split; [reflexivity|]. split; [reflexivity|].
  unfold breaker_after. cbn [fold_left fst snd].
  unfold CircuitBreaker.execute, CircuitBreaker.gate.
  cbn [CircuitBreaker.state CircuitBreaker.state_eqb].
  unfold CircuitBreaker.settle, failingOperation. cbn [fst snd].
  unfold CircuitBreaker.onFailure.
  assert (forall time, In time (history ++ [t3]) -> t3 - time < monitoringWindow options)
    as Hall.
  { intros time Hin. apply in_app_or in Hin. destruct Hin as [Hin|[<-|[]]];
      [exact (Hrecent time Hin)|lia]. }
  rewrite cleanupHistory_all_recent
    by (cbn; intros time Hin; specialize (Hall time Hin); lia).
  cbn [CircuitBreaker.state CircuitBreaker.state_eqb CircuitBreaker.failureHistory
       CircuitBreaker.options].
  rewrite (recentFailures_all_recent _ _ _ Hall), length_app. cbn [length].
  destruct (Z.leb_spec (failureThreshold options) (Z.of_nat (length history + 1)));
    [reflexivity|lia].
Qed.

Lemma recovery_does_not_clear_the_failure_history_witness :
  CircuitBreaker.state trippedBreaker = CircuitBreaker.open /\
  let recovered :=
    breaker_after trippedBreaker [(successfulOperation, 1100); (successfulOperation, 1200)] in
  CircuitBreaker.state recovered = CircuitBreaker.closed /\
  CircuitBreaker.getFailureCount recovered = 0%nat /\
  CircuitBreaker.failureHistory recovered = CircuitBreaker.failureHistory trippedBreaker /\
  CircuitBreaker.state (breaker_after recovered [(failingOperation, 1300)])
  = CircuitBreaker.open.
Proof.
  split; [reflexivity|].
  apply (recovery_does_not_clear_the_failure_history trippedBreaker 1100 1200 1300);
    try (vm_compute; congruence).
  intros time [<-|[<-|[<-|[]]]]; reflexivity.
Defined.

(** ** The buffer of the logger *)

Lemma slice_last {A : Type} (n : nat) (l : list A) :
  (0 < n)%nat -> slice (- Z.of_nat n) l = lastN n l.
Proof.
  intros Hn. unfold slice, lastN.
  destruct (Z.ltb_spec (- Z.of_nat n) 0) as [_|Habs]; [|lia].
  f_equal. lia.
Qed.

Lemma lastN_all {A : Type} (n : nat) (l : list A) :
  (length l <= n)%nat -> lastN n l = l.
Proof. intros Hlen. unfold lastN. replace (length l - n)%nat with 0%nat by lia. reflexivity. Qed.

Lemma lastN_length {A : Type} (n : nat) (l : list A) :
  length (lastN n l) = Nat.min n (length l).
Proof. unfold lastN. rewrite length_drop. lia. Qed.

Lemma lastN_app {A : Type} (n m : nat) (l k : list A) :
  (m <= n)%nat -> lastN m (lastN n l ++ k) = lastN m (l ++ k).
Proof.
  intros Hmn. unfold lastN. rewrite !length_app, length_drop.
  destruct (Nat.le_gt_cases (length l) n) as [Hshort|Hlong].
  - replace (length l - n)%nat with 0%nat by lia. cbn [drop]. f_equal. lia.
  - replace (length l - (length l - n) + length k - m)%nat
      with (n + length k - m)%nat by lia.
    replace (length l + length k - m)%nat
      with ((length l - n) + (n + length k - m))%nat by lia.
    rewrite <- drop_drop. f_equal. rewrite drop_app_le by lia. reflexivity.
Qed.

Lemma log_lastN (logger : LogBuffer.t) (entry : LogBuffer.LogEntry) :
  LogBuffer.logs
    (LogBuffer.log logger (LogBuffer.level entry) (LogBuffer.message entry)
       (LogBuffer.context entry) (LogBuffer.timestamp entry))
  = lastN 1000 (LogBuffer.logs logger ++ [entry]).
Proof.
  unfold LogBuffer.log. destruct entry as [level message timestamp context].
  cbn [LogBuffer.level LogBuffer.message LogBuffer.context LogBuffer.timestamp].
  set (entry := LogBuffer.Build_LogEntry level message timestamp context).
  destruct (Z.ltb_spec LogBuffer.maxLogs
              (Z.of_nat (length (LogBuffer.logs logger ++ [entry]))))
    as [Hlong|Hshort]; cbn [LogBuffer.logs].
  - change (- LogBuffer.maxLogs) with (- Z.of_nat 1000). apply slice_last. lia.
  - symmetry. apply lastN_all. unfold LogBuffer.maxLogs in Hshort. lia.
Qed.

Lemma logAll_lastN (entries : list LogBuffer.LogEntry) : forall logger,
  LogBuffer.logs (logAll logger entries) = lastN 1000 (LogBuffer.logs logger ++ entries) \/
  (1000 < length (LogBuffer.logs logger))%nat.
Proof.
  induction entries as [|entry entries IH]; intros logger.
  - cbn [logAll fold_left]. rewrite app_nil_r.
    destruct (Nat.le_gt_cases (length (LogBuffer.logs logger)) 1000) as [Hshort|Hlong];
      [left; symmetry; apply lastN_all, Hshort|right; exact Hlong].
  - cbn [logAll fold_left]. left.
    match goal with |- context [fold_left ?f entries ?logger'] =>
      change (fold_left f entries logger') with (logAll logger' entries);
      destruct (IH logger') as [->|Hlong]
    end.
    + rewrite log_lastN, lastN_app by lia. rewrite <- app_assoc. reflexivity.
    + rewrite log_lastN, lastN_length in Hlong. lia.
Qed.

(** X15.  The logger keeps the most recent entries, at most 1000 of them: after
    any number of [log] calls on a new logger, the buffer holds the last
    1000 entries logged, in the order they were logged, or all of them if
    there were fewer. *)
Theorem logger_keeps_the_most_recent_entries (entries : list LogBuffer.LogEntry) :
  let logger := logAll LogBuffer.new entries in
  LogBuffer.getLogs logger None = lastN 1000 entries /\
  (length (LogBuffer.getLogs logger None) <= 1000)%nat.
Proof.
  intros logger. unfold LogBuffer.getLogs.
  destruct (logAll_lastN entries LogBuffer.new) as [H|Habs]; [|cbn in Habs; lia].
  fold logger in H. cbn [LogBuffer.new LogBuffer.logs app] in H.
  rewrite H, lastN_length. split; [reflexivity|lia].
Qed.

(** X16.  [getRecentLogs(count)] on a logger that went through any number of [log]
    calls: with a count between 1 and 1000 it returns the last [count]
    entries logged (all of them if there were fewer); with a count of 0 it
    returns not nothing but the whole buffer, since [slice(-0)] is
    [slice(0)]; and without a count it returns the last 50. *)
Theorem getRecentLogs_returns_the_last_entries
    (entries : list LogBuffer.LogEntry) (count : nat) :
  (1 <= count <= 1000)%nat ->
  let logger := logAll LogBuffer.new entries in
  LogBuffer.getRecentLogs logger (Some (Z.of_nat count)) = lastN count entries /\
  LogBuffer.getRecentLogs logger (Some 0) = lastN 1000 entries /\
  LogBuffer.getRecentLogs logger None = lastN 50 entries.
Proof.
  intros Hcount logger. unfold LogBuffer.getRecentLogs. cbv beta iota zeta.
  destruct (logAll_lastN entries LogBuffer.new) as [H|Habs]; [|cbn in Habs; lia].
  fold logger in H. cbn [LogBuffer.new LogBuffer.logs app] in H. rewrite H.
  split; [|split].
  - rewrite slice_last by lia.
    rewrite <- (app_nil_r (lastN 1000 entries)), lastN_app, app_nil_r by lia. reflexivity.
  - unfold slice. cbn [Z.opp Z.ltb Z.compare]. rewrite Z.min_l by lia. reflexivity.
  - change (slice (- Z.of_nat 50) (lastN 1000 entries) = lastN 50 entries).
    rewrite slice_last by lia.
    rewrite <- (app_nil_r (lastN 1000 entries)), lastN_app, app_nil_r by lia. reflexivity.
Qed.

Lemma getRecentLogs_returns_the_last_entries_witness :
  let entry := fun message =>
    {| LogBuffer.level := Logger.info; LogBuffer.message := message;
       LogBuffer.timestamp := 0; LogBuffer.context := None |} in
  let logger := logAll LogBuffer.new [entry "a"; entry "b"; entry "c"] in
  LogBuffer.getRecentLogs logger (Some 2) = [entry "b"; entry "c"] /\
  LogBuffer.getRecentLogs logger (Some 0) = [entry "a"; entry "b"; entry "c"].
Proof.
  intros entry logger.
  destruct (getRecentLogs_returns_the_last_entries [entry "a"; entry "b"; entry "c"] 2)
    as (Hcount & Hzero & _); [lia|].
  split; [exact Hcount|exact Hzero].
Defined.

(** ** The mock providers *)

Lemma clamped_rate_high (rate draw : Q) :
  (1 <= rate)%Q -> inUnitInterval draw ->
  negb (Qle_bool (Qmax 0 (Qmin 1 rate)) draw) = true.
Proof.
  intros Hrate [_ Hdraw]. apply negb_true_iff, Qle_bool_false.
  apply Qlt_le_trans with 1%Q; [exact Hdraw|].
  rewrite (Q.min_l 1 rate Hrate). apply Q.le_max_r.
Qed.

Lemma clamped_rate_low (rate draw : Q) :
  (rate <= 0)%Q -> inUnitInterval draw ->
  negb (Qle_bool (Qmax 0 (Qmin 1 rate)) draw) = false.
Proof.
  intros Hrate [Hdraw _]. apply negb_false_iff, Qle_bool_iff.
  apply Q.max_lub; [exact Hdraw|].
  apply Qle_trans with rate; [apply Q.le_min_r|].
  apply Qle_trans with 0%Q; assumption.
Qed.

(** X17.  [setFailureRate] at its extremes, as the tests use it.  The rate is
    clamped to the interval from 0 to 1 and [Math.random()] is below 1, so
    after [setFailureRate(rate)] with [rate >= 1] no call of the mock ever
    resolves, whatever the message; and after [setFailureRate(rate)] with
    [rate <= 0] every call resolves with a success naming the provider,
    unless the recipient contains the word that the mock refuses ('invalid'
    for Provider A, 'blocked' for Provider B). *)
Theorem mock_failure_rate_extremes
    (a : MockProviderA.t) (b : MockProviderB.t) (rate : Q) (draws : World -> Draws)
    (message : EmailMessage.t) :
  (forall w, inUnitInterval (failureDraw (draws w))) ->
  ((1 <= rate)%Q ->
   rejects (MockProviderA.provider (MockProviderA.setFailureRate a rate) draws) message /\
   rejects (MockProviderB.provider (MockProviderB.setFailureRate b rate) draws) message) /\
  ((rate <= 0)%Q ->
   (includes (EmailMessage.to message) "invalid" = false ->
    delivers (MockProviderA.provider (MockProviderA.setFailureRate a rate) draws) message) /\
   (includes (EmailMessage.to message) "blocked" = false ->
    delivers (MockProviderB.provider (MockProviderB.setFailureRate b rate) draws) message) /\
   (includes (EmailMessage.to message) "invalid" = true ->
    rejects (MockProviderA.provider (MockProviderA.setFailureRate a rate) draws) message) /\
   (includes (EmailMessage.to message) "blocked" = true ->
    rejects (MockProviderB.provider (MockProviderB.setFailureRate b rate) draws) message)).
Proof.
  intros Hdraws. split.
  - intros Hrate. split; intros w result;
      cbn [MockProviderA.provider MockProviderB.provider EmailProvider.behaviour
           MockProviderA.sendEmail MockProviderB.sendEmail EmailProvider.outcome
           MockProviderA.setFailureRate MockProviderB.setFailureRate
           MockProviderA.failureRate MockProviderB.failureRate];
      rewrite (clamped_rate_high rate _ Hrate (Hdraws w)); discriminate.
  - intros Hrate. repeat split.
    + intros Hword w.
      cbn [MockProviderA.provider EmailProvider.behaviour MockProviderA.sendEmail
           EmailProvider.outcome MockProviderA.setFailureRate MockProviderA.failureRate].
      rewrite (clamped_rate_low rate _ Hrate (Hdraws w)), Hword.
      eexists. split; reflexivity.
    + intros Hword w.
      cbn [MockProviderB.provider EmailProvider.behaviour MockProviderB.sendEmail
           EmailProvider.outcome MockProviderB.setFailureRate MockProviderB.failureRate].
      rewrite (clamped_rate_low rate _ Hrate (Hdraws w)), Hword.
      eexists. split; reflexivity.
    + intros Hword w result.
      cbn [MockProviderA.provider EmailProvider.behaviour MockProviderA.sendEmail
           EmailProvider.outcome MockProviderA.setFailureRate MockProviderA.failureRate].
      rewrite (clamped_rate_low rate _ Hrate (Hdraws w)), Hword. discriminate.
    + intros Hword w result.
      cbn [MockProviderB.provider EmailProvider.behaviour MockProviderB.sendEmail
           EmailProvider.outcome MockProviderB.setFailureRate MockProviderB.failureRate].
      rewrite (clamped_rate_low rate _ Hrate (Hdraws w)), Hword. discriminate.
Qed.

Lemma mock_failure_rate_extremes_witness :
  rejects (MockProviderA.provider (MockProviderA.setFailureRate MockProviderA.new 5)
             (steadyDraws (9 # 10)))
          (createTestMessage "test-1") /\
  delivers (MockProviderB.provider (MockProviderB.setFailureRate MockProviderB.new 0)
              (steadyDraws 0))
           (createTestMessage "test-1").
Proof.
  split.
  - assert (forall w, inUnitInterval (failureDraw (steadyDraws (9 # 10) w))) as Hdraws
      by (intros w; split; vm_compute; congruence).
    destruct (mock_failure_rate_extremes MockProviderA.new MockProviderB.new 5
                (steadyDraws (9 # 10)) (createTestMessage "test-1") Hdraws) as [Hhigh _].
    apply Hhigh. vm_compute. congruence.
  - assert (forall w, inUnitInterval (failureDraw (steadyDraws 0 w))) as Hdraws
      by (intros w; split; vm_compute; congruence).
    destruct (mock_failure_rate_extremes MockProviderA.new MockProviderB.new 0
                (steadyDraws 0) (createTestMessage "test-1") Hdraws) as [_ Hlow].
    destruct Hlow as (_ & Hdelivers & _); [vm_compute; congruence|].
    apply Hdelivers. reflexivity.
Defined.

(** ** What [sendEmail] answers *)

(** X18.  [sendEmail] never rejects, in any state of the service, and its answer
    agrees with the status it leaves: after a success the message passes the
    idempotency check; after a failure the status is either ['queued'], the
    message being in the queue and the result naming the provider ['queue'],
    or ['failed'] with the error text of the result. *)
Theorem sendEmail_never_rejects_and_reports_its_status
    (svc : EmailService) (message : EmailMessage.t) (w : World) :
  let '(r, svc', _) := sendEmail svc message w in
  exists result,
    r = Normal result /\
    if EmailResult.success result
    then exists status, recordedSuccess svc' (EmailMessage.id message) = Some status
    else exists status,
      getEmailStatus svc' (EmailMessage.id message) = Some status /\
      ((EmailStatus.status status = EmailStatus.queued /\
        EmailStatus.attempts status = 0%nat /\
        EmailResult.provider result = "queue" /\
        In message (emailQueue svc')) \/
       (EmailStatus.status status = EmailStatus.failed /\
        EmailStatus.error status = EmailResult.error result)).
Proof.
  destruct (sendEmail_paths svc message w) as [[status Hrec]|[[Hrec Hgate]|Hdispatch]].
  - unfold sendEmail. rewrite Hrec. eexists. split; [reflexivity|].
    cbn [EmailResult.success]. exists status. exact Hrec.
  - pose proof (sendEmail_queues svc message w Hrec Hgate) as H.
    destruct (sendEmail svc message w) as [[r svc'] w'].
    destruct H as (result & new & -> & Hfalse & Hprovider & _ & _ & _ & _ & _ & Hst & Hq & _).
    exists result. split; [reflexivity|]. rewrite Hfalse.
    exists (queuedStatus message (clock w)).
    split; [unfold getEmailStatus; rewrite Hst; apply lookup_insert_eq|].
    left. split; [reflexivity|]. split; [reflexivity|]. split; [exact Hprovider|].
    rewrite Hq. apply in_or_app. right. left. reflexivity.
  - pose proof (sendEmail_delivery svc message w Hdispatch) as H.
    pose proof (successful_send_is_recorded svc message w Hdispatch) as Hrecorded.
    destruct (sendEmail svc message w) as [[r svc'] w'].
    destruct H as (result & new & status & -> & _ & Hst & _ & _ & _ & Hcases).
    exists result. split; [reflexivity|].
    destruct (EmailResult.success result) eqn:Hsuccess.
    + destruct (Hrecorded result eq_refl Hsuccess) as (status' & Hrec' & _).
      exists status'. exact Hrec'.
    + destruct Hcases as [(Habs & _)|(_ & Hfailed & Herror & _)]; [discriminate|].
      exists status. split; [exact Hst|]. right. split; assumption.
Qed.

(** ** A retry budget of zero *)

Lemma fallback_without_attempts (rest : list EmailProvider.t) :
  forall lastError svc message w,
    maxAttempts (retry (options svc)) <= 0 ->
    (forall provider, In provider rest ->
       is_Some (circuitBreakers svc !! EmailProvider.name provider)) ->
    let '(r, svc', w') := sendWithRetryAndFallback_loop rest lastError svc message w in
    svc' = svc /\
    (exists new, trace w' = trace w ++ new /\ quiet new) /\
    r = Normal (allProvidersFailed
                  (match rest with
                   | [] => or_string lastError "All providers failed"
                   | _ :: _ => maxAttemptsExceeded svc
                   end) (clock w')).
Proof.
  induction rest as [|provider rest IH]; intros lastError svc message w Hmax Hguarded.
  - cbn [sendWithRetryAndFallback_loop]. split; [reflexivity|]. split; [|reflexivity].
    eexists. split; [unfold log, emit; cbn [trace]; reflexivity|]. repeat split.
  - cbn [sendWithRetryAndFallback_loop].
    destruct (Hguarded provider (or_introl eq_refl)) as [cb ->].
    unfold sendWithRetry. replace (Z.to_nat (maxAttempts (retry (options svc)))) with 0%nat by lia.
    sendWithRetry_loop_step; cbn [errorMessageOf].
    match goal with
    |- context [sendWithRetryAndFallback_loop rest ?e svc message ?ww] =>
      specialize (IH e svc message ww Hmax (fun p Hp => Hguarded p (or_intror Hp)));
      destruct (sendWithRetryAndFallback_loop rest e svc message ww) as [[r' svc'] w']
    end.
    destruct IH as (-> & (new & Htrace & Hquiet) & ->).
    split; [reflexivity|]. split.
    + eexists. split; [rewrite Htrace; unfold log, emit; cbn [trace]; rewrite <- app_assoc;
                       reflexivity|].
      apply quiet_app; [repeat split|exact Hquiet].
    + destruct rest as [|next rest]; reflexivity.
Qed.

(** X19.  With [maxAttempts] at zero or below nothing is ever delivered.  A
    dispatched message is handed to no provider: each retry sequence ends at
    once with 'Max attempts (n) exceeded', and [sendEmail] returns a failure
    with that text and the provider ['none'], leaving a ['failed'] status
    with no attempt. *)
Theorem no_attempt_allowed_means_no_delivery
    (svc : EmailService) (message : EmailMessage.t) (w : World) :
  dispatches svc message w ->
  maxAttempts (retry (options svc)) <= 0 ->
  providers svc <> [] ->
  (forall provider, In provider (providers svc) ->
     is_Some (circuitBreakers svc !! EmailProvider.name provider)) ->
  let '(r, svc', w') := sendEmail svc message w in
  exists result status,
    r = Normal result /\
    EmailResult.success result = false /\
    EmailResult.error result = Some (maxAttemptsExceeded svc) /\
    EmailResult.provider result = "none" /\
    getEmailStatus svc' (EmailMessage.id message) = Some status /\
    EmailStatus.status status = EmailStatus.failed /\
    EmailStatus.error status = Some (maxAttemptsExceeded svc) /\
    EmailStatus.attempts status = 0%nat /\
    providerCalls (trace w') = providerCalls (trace w).
Proof.
  intros Hdispatch Hmax Hproviders Hguarded.
  destruct (sendEmail_dispatch_run svc message w Hdispatch) as (svc2 & _ & Ho2 & Hc2 & H).
  pose proof (fallback_without_attempts (providers svc) None svc2 message w) as Hloop.
  pose proof (sendEmail_delivery svc message w Hdispatch) as Hdelivery.
  destruct (sendWithRetryAndFallback_loop (providers svc) None svc2 message w)
    as [[r3 svc3] w3].
  destruct (sendEmail svc message w) as [[r svc'] w'].
  destruct Hloop as (_ & (new & Htrace & Hquiet) & ->).
  { rewrite Ho2. exact Hmax. }
  { rewrite Hc2. exact Hguarded. }
  destruct H as (_ & _ & _ & Hsame). destruct (Hsame _ eq_refl) as [-> ->].
  destruct Hdelivery as (result' & new' & status & [= <-] & Htrace' & Hst & _ & Hattempts
                         & _ & Hcases).
  assert (new' = new) as -> by (apply (app_inv_head (trace w)); congruence).
  destruct Hquiet as (Hf & Hs & Hcalls).
  destruct Hcases as [(Habs & _)|(_ & Hfailed & Herror & _)]; [discriminate|].
  assert (maxAttemptsExceeded svc2 = maxAttemptsExceeded svc) as Htext
    by (unfold maxAttemptsExceeded; rewrite Ho2; reflexivity).
  destruct (providers svc) as [|provider rest]; [contradiction|].
  eexists. exists status. split; [reflexivity|]. split; [reflexivity|].
  cbn [allProvidersFailed EmailResult.error EmailResult.provider] in *.
  split; [rewrite Htext; reflexivity|]. split; [reflexivity|]. split; [exact Hst|].
  split; [exact Hfailed|]. split; [rewrite Herror, Htext; reflexivity|].
  split; [rewrite Hattempts, Hf, Hs; reflexivity|].
  rewrite Htrace, providerCalls_app, Hcalls. apply app_nil_r.
Qed.

Lemma no_attempt_allowed_means_no_delivery_witness :
  let '(r, svc', w') :=
    sendEmail (fst noAttemptScenario) (createTestMessage "test-1") (snd noAttemptScenario) in
  exists result status,
    r = Normal result /\
    EmailResult.success result = false /\
    EmailResult.error result = Some "Max attempts (0) exceeded" /\
    EmailResult.provider result = "none" /\
    getEmailStatus svc' "test-1" = Some status /\
    EmailStatus.status status = EmailStatus.failed /\
    EmailStatus.error status = Some "Max attempts (0) exceeded" /\
    EmailStatus.attempts status = 0%nat /\
    providerCalls (trace w') = providerCalls (trace (snd noAttemptScenario)).
Proof.
  apply (no_attempt_allowed_means_no_delivery
           (fst noAttemptScenario) (createTestMessage "test-1") (snd noAttemptScenario)).
  - vm_compute. repeat split.
  - discriminate.
  - discriminate.
  - intros provider [<-|[]]. vm_compute. eexists. reflexivity.
Defined.

(** ** Logging *)

Lemma logged_app_r (a b : list Event) : logged b -> logged (a ++ b).
Proof.
  intros (level & message & context & Hin). exists level, message, context.
  apply in_or_app. right. exact Hin.
Qed.

Lemma logged_app_l (a b : list Event) : logged a -> logged (a ++ b).
Proof.
  intros (level & message & context & Hin). exists level, message, context.
  apply in_or_app. left. exact Hin.
Qed.

Lemma logged_one level message context : logged [EvLog level message context].
Proof. exists level, message, context. left. reflexivity. Qed.

Lemma sendWithRetryAndFallback_loop_logs (rest : list EmailProvider.t) :
  forall lastError svc message w,
    let '(_, _, w') := sendWithRetryAndFallback_loop rest lastError svc message w in
    exists new, trace w' = trace w ++ new /\ logged new.
Proof.
  induction rest as [|provider rest IH]; intros lastError svc message w.
  - cbn [sendWithRetryAndFallback_loop].
    eexists. split; [unfold log, emit; cbn [trace]; reflexivity|apply logged_one].
  - cbn [sendWithRetryAndFallback_loop].
    destruct (circuitBreakers svc !! EmailProvider.name provider) as [cb|]; [|apply IH].
    unfold sendWithRetry.
    pose proof (sendWithRetry_loop_tries (Z.to_nat (maxAttempts (retry (options svc)))) 0
                  svc message provider cb w) as Htries.
    destruct (sendWithRetry_loop _ 0 svc message provider cb w) as [[r svc1] w1].
    destruct Htries as (new1 & Htrace1 & _).
    destruct r as [result|error].
    + eexists. split; [unfold log, emit; cbn [trace]; rewrite Htrace1, <- app_assoc;
                       reflexivity|].
      apply logged_app_r, logged_one.
    + match goal with
      |- context [sendWithRetryAndFallback_loop rest ?e svc1 message ?ww] =>
        specialize (IH e svc1 message ww);
        destruct (sendWithRetryAndFallback_loop rest e svc1 message ww) as [[r' svc'] w']
      end.
      destruct IH as (new & Htrace & Hlogged).
      eexists. split; [rewrite Htrace; unfold log, emit; cbn [trace];
                       rewrite Htrace1, <- !app_assoc; reflexivity|].
      apply logged_app_r, logged_app_r, Hlogged.
Qed.

(** X20.  Every submission is logged, whatever [enableLogging] says: the option
    guards the entry that the constructor writes and nothing else, and each
    [sendEmail] call, on each of its paths, adds at least one entry to the
    log. *)
Theorem every_submission_writes_a_log_entry
    (providers0 : list EmailProvider.t) (options0 : EmailServiceOptions)
    (svc : EmailService) (message : EmailMessage.t) (w : World) :
  (trace (snd (newEmailService providers0 options0 w)) = trace w <->
   enableLogging options0 = false) /\
  let '(_, _, w') := sendEmail svc message w in
  exists new, trace w' = trace w ++ new /\ logged new.
Proof.
  split.
  { unfold newEmailService. cbn [snd]. destruct (enableLogging options0).
    - unfold log, emit. cbn [trace]. split; [|discriminate].
      intros Habs. rewrite <- (app_nil_r (trace w)) in Habs at 2.
      apply app_inv_head in Habs. discriminate.
    - split; reflexivity. }
  destruct (sendEmail_paths svc message w) as [[status Hrec]|[[Hrec Hgate]|Hdispatch]].
  - destruct (sendEmail_recorded svc message w status Hrec) as [result ->].
    eexists. split; [unfold log, emit; cbn [trace]; reflexivity|apply logged_one].
  - unfold sendEmail. rewrite Hrec.
    destruct (allCircuitBreakersOpen svc).
    + match goal with |- context [addToQueue svc message ?ww] =>
        pose proof (addToQueue_spec svc message ww) as H;
        destruct (addToQueue svc message ww) as [svc' w']
      end.
      destruct H as (_ & _ & _ & _ & _ & _ & new & Htrace & _).
      eexists. split; [rewrite Htrace; unfold log, emit; cbn [trace]; rewrite <- app_assoc;
                       reflexivity|].
      apply logged_app_l, logged_one.
    + destruct Hgate as [Habs|Hdenied]; [discriminate|].
      destruct (RateLimiter.acquire (rateLimiter svc) (clock w)) as [granted limiter].
      cbn [fst] in Hdenied. subst granted. cbn [negb].
      match goal with |- context [addToQueue ?s message ?ww] =>
        pose proof (addToQueue_spec s message ww) as H;
        destruct (addToQueue s message ww) as [svc' w']
      end.
      destruct H as (_ & _ & _ & _ & _ & _ & new & Htrace & _).
      eexists. split; [rewrite Htrace; unfold log, emit; cbn [trace]; rewrite <- app_assoc;
                       reflexivity|].
      apply logged_app_l, logged_one.
  - destruct (sendEmail_dispatch_run svc message w Hdispatch) as (svc2 & _ & _ & _ & H).
    pose proof (sendWithRetryAndFallback_loop_logs (providers svc) None svc2 message w)
      as Hlogs.
    pose proof (sendWithRetryAndFallback_loop_spec (providers svc) None svc2 message w)
      as Hspec.
    destruct (sendWithRetryAndFallback_loop (providers svc) None svc2 message w)
      as [[r3 svc3] w3].
    destruct (sendEmail svc message w) as [[r svc'] w'].
    destruct Hspec as (_ & result3 & _ & -> & _).
    destruct H as (_ & _ & _ & Hsame). destruct (Hsame result3 eq_refl) as [_ ->].
    exact Hlogs.
Qed.

(** ** The statistics *)

Lemma countStatus_partition (statuses : list EmailStatus.t) :
  length statuses
  = (countStatus EmailStatus.sent statuses + countStatus EmailStatus.failed statuses
     + countStatus EmailStatus.pending statuses + countStatus EmailStatus.queued statuses
     + countStatus EmailStatus.sending statuses)%nat.
Proof.
  unfold countStatus. induction statuses as [|s statuses IH]; [reflexivity|].
  cbn [List.filter length].
  destruct (EmailStatus.status s); cbn [EmailStatus.status_eqb length]; lia.
Qed.

Lemma countStatus_none (wanted : EmailStatus.Status) (statuses : list EmailStatus.t) :
  Forall (fun s => EmailStatus.status s <> wanted) statuses ->
  countStatus wanted statuses = 0%nat.
Proof.
  unfold countStatus. induction 1 as [|s statuses Hs _ IH]; [reflexivity|].
  cbn [List.filter]. destruct (EmailStatus.status_eqb (EmailStatus.status s) wanted) eqn:Heq.
  - apply status_eqb_eq in Heq. contradiction.
  - exact IH.
Qed.

(** X21.  What the numbers of [getStatistics] add up to.  Whatever was done
    with the service, every status counted in [total] is counted in exactly
    one of [sent], [failed] and [queued], or it is ['sending'], a state that
    the statistics do not report: [total] exceeds the sum of the three by
    the number of deliveries in flight.  [pending] is 0, since nothing
    writes that status.  At most 10 log entries are reported, a breaker is
    reported for every provider, and the call leaves the service as it was
    but for the refill of the limiter. *)
Theorem statistics_add_up
    (providers0 : list EmailProvider.t) (options0 : EmailServiceOptions) (w0 : World)
    (ops : list Operation) (logger : LogBuffer.t) (now : Z) :
  let svc := fst (performAll ops (newEmailService providers0 options0 w0)) in
  let '(stats, svc') := getStatistics svc logger now in
  Statistics.total stats
  = (Statistics.sent stats + Statistics.failed stats + Statistics.queued stats
     + countStatus EmailStatus.sending (getAllEmailStatuses svc))%nat /\
  Statistics.pending stats = 0%nat /\
  (length (Statistics.recentLogs stats) <= 10)%nat /\
  (forall provider, In provider providers0 ->
     is_Some (Statistics.circuitBreakers stats !! EmailProvider.name provider)) /\
  svc' = set_rateLimiter (RateLimiter.refill (rateLimiter svc) now) svc.
Proof.
  intros svc. unfold getStatistics. cbn [RateLimiter.getAvailableTokens].
  cbn [Statistics.total Statistics.sent Statistics.failed Statistics.queued
       Statistics.pending Statistics.recentLogs Statistics.circuitBreakers].
  assert (sentIsRecorded svc) as Hledger
    by (apply performAll_ledger, newEmailService_ledger).
  pose proof (performAll_guards providers0 options0
                (circuitBreakers (fst (newEmailService providers0 options0 w0))) ops
                (newEmailService providers0 options0 w0)) as Hguards.
  fold svc in Hguards. destruct Hguards as (_ & _ & Hguards).
  { split; [reflexivity|]. split; [reflexivity|]. apply sameGuards_refl. }
  cbn [newEmailService fst circuitBreakers] in Hguards.
  assert (countStatus EmailStatus.pending (getAllEmailStatuses svc) = 0%nat) as Hpending.
  { apply countStatus_none, Forall_forall. intros status Hin. unfold getAllEmailStatuses in Hin.
    apply list_elem_of_fmap in Hin. destruct Hin as ([id status'] & -> & Hin).
    apply elem_of_map_to_list in Hin. cbn [snd].
    exact (proj2 (Hledger id status' Hin)). }
  split; [rewrite (countStatus_partition (getAllEmailStatuses svc)), Hpending; lia|].
  split; [exact Hpending|]. split.
  { unfold LogBuffer.getRecentLogs, slice. rewrite length_drop.
    change (- (10) <? 0) with true. cbv iota. lia. }
  split; [|reflexivity].
  intros provider Hin. specialize (Hguards (EmailProvider.name provider)).
  rewrite registered_breakers in Hguards.
  replace (existsb _ providers0) with true in Hguards.
  - rewrite lookup_fmap.
    destruct (circuitBreakers svc !! EmailProvider.name provider) as [cb|]; [|discriminate].
    eexists. reflexivity.
  - symmetry. apply existsb_exists. exists provider. split; [exact Hin|].
    apply String.eqb_refl.
Qed.

(** ** When every breaker is open *)

Lemma allCircuitBreakersOpen_frame a b :
  providers b = providers a -> circuitBreakers b = circuitBreakers a ->
  allCircuitBreakersOpen b = allCircuitBreakersOpen a.
Proof. intros Hp Hc. unfold allCircuitBreakersOpen. rewrite Hp, Hc. reflexivity. Qed.

Lemma lockedOut_frame svc0 before svc w svc' w' new :
  lockedOut svc0 before (svc, w) ->
  sameLedger svc svc' -> trace w' = trace w ++ new -> quiet new ->
  lockedOut svc0 before (svc', w').
Proof.
  intros (Hopen & Hp & Hc & Hcalls) (Hp' & _ & Hc' & _) Htrace (_ & _ & Hquiet).
  unfold lockedOut in *. cbn [fst snd] in *.
  split; [rewrite (allCircuitBreakersOpen_frame svc svc' Hp' Hc'); exact Hopen|].
  split; [congruence|]. split; [congruence|].
  rewrite Htrace, providerCalls_app, Hcalls, Hquiet. apply app_nil_r.
Qed.

Lemma lockedOut_sendEmail svc0 before svc w message :
  lockedOut svc0 before (svc, w) ->
  let '(r, svc', w') := sendEmail svc message w in
  lockedOut svc0 before (svc', w') /\
  exists result,
    r = Normal result /\
    (EmailResult.success result = false ->
     EmailResult.provider result = "queue" /\
     EmailResult.error result
     = Some "All providers temporarily unavailable. Email queued for retry.").
Proof.
  intros Hlocked. pose proof Hlocked as (Hopen & Hp & Hc & Hcalls). cbn [fst snd] in *.
  destruct (recordedSuccess svc (EmailMessage.id message)) as [status|] eqn:Hrec.
  - unfold sendEmail. rewrite Hrec. split.
    + apply (lockedOut_frame svc0 before svc w svc _
               [EvLog Logger.info "Email already sent (idempotency check)"
                  [("messageId", VString (EmailMessage.id message))]] Hlocked);
        repeat split.
    + eexists. split; [reflexivity|]. discriminate.
  - pose proof (sendEmail_queues svc message w Hrec (or_introl Hopen)) as H.
    destruct (sendEmail svc message w) as [[r svc'] w'].
    destruct H as (result & new & -> & _ & Hprovider & Herror & Hp' & _ & Hc' & _ & _ & _
                   & Htrace & Hquiet).
    split.
    + unfold lockedOut. cbn [fst snd].
      split; [rewrite (allCircuitBreakersOpen_frame svc svc' Hp' Hc'); exact Hopen|].
      split; [congruence|]. split; [congruence|].
      destruct Hquiet as (_ & _ & Hquiet).
      rewrite Htrace, providerCalls_app, Hcalls, Hquiet. apply app_nil_r.
    + exists result. split; [reflexivity|]. intros _. split; [exact Hprovider|].
      exact (Herror Hopen).
Qed.

Lemma lockedOut_processQueue_loop svc0 before svc w :
  lockedOut svc0 before (svc, w) -> lockedOut svc0 before (processQueue_loop svc w).
Proof.
  intros H. pose proof (processQueue_loop_frame svc w) as Hframe.
  destruct (processQueue_loop svc w) as [svc' w'].
  destruct Hframe as (Hledger & _ & new & Htrace & Hquiet).
  exact (lockedOut_frame _ _ _ _ _ _ _ H Hledger Htrace Hquiet).
Qed.

Lemma lockedOut_perform svc0 before op state :
  withoutReset op = true ->
  lockedOut svc0 before state -> lockedOut svc0 before (perform op state).
Proof.
  destruct state as [svc w]. intros Hop H.
  destruct op as [message| |ms| |]; try discriminate; cbn [perform].
  - pose proof (lockedOut_sendEmail svc0 before svc w message H) as Hsend.
    destruct (sendEmail svc message w) as [[r svc'] w']. exact (proj1 Hsend).
  - unfold processQueue_resume.
    destruct (queueTask svc) as [|wake|[|]]; [exact H| | |].
    + destruct (clock w <? wake); [exact H|]. apply lockedOut_processQueue_loop, H.
    + destruct (emailQueue svc) as [|message rest];
        [apply lockedOut_processQueue_loop, H|].
      assert (lockedOut svc0 before (set_emailQueue rest svc, w)) as H'
        by (apply (lockedOut_frame svc0 before svc w _ _ [] H);
            [repeat split|symmetry; apply app_nil_r|apply quiet_nil]).
      pose proof (lockedOut_sendEmail svc0 before _ w message H') as Hsend.
      destruct (sendEmail (set_emailQueue rest svc) message w) as [[r svc'] w'].
      destruct Hsend as [Hsend _]. apply lockedOut_processQueue_loop.
      destruct r as [result|error]; [exact Hsend|].
      apply (lockedOut_frame svc0 before svc' w' svc' _
               [EvLog Logger.error "Failed to send queued email"
                  [("messageId", VString (EmailMessage.id message));
                   ("error", VString (errorMessageOf error))]] Hsend);
        repeat split.
    + apply (lockedOut_frame svc0 before svc w _ _
               [EvDelay (inject_Z (RateLimiter.getRemainingTime (rateLimiter svc)))] H);
        repeat split.
  - apply (lockedOut_frame svc0 before svc w svc _ [] H);
      [repeat split|symmetry; apply app_nil_r|apply quiet_nil].
Qed.

Lemma lockedOut_performAll svc0 before ops : forall state,
  forallb withoutReset ops = true ->
  lockedOut svc0 before state -> lockedOut svc0 before (performAll ops state).
Proof.
  induction ops as [|op ops IH]; intros state Hops H; [exact H|].
  cbn [forallb] in Hops. apply andb_true_iff in Hops. destruct Hops as [Hop Hops].
  apply IH; [exact Hops|]. apply lockedOut_perform; assumption.
Qed.

(** X22.  Once every breaker is open the service does not recover by itself.  A
    breaker leaves the state ['open'] only inside [execute], and [sendEmail]
    reaches [execute] only when some breaker is not open.  So from a state in
    which all breakers are open, whatever messages are submitted, however
    often the drain loop is resumed and however much time passes, no provider
    is called, the breakers stay as they are, and every message that is not
    already recorded as sent is queued; only [resetCircuitBreakers] or
    [clear] ends this. *)
Theorem service_with_all_breakers_open_stays_locked
    (svc0 : EmailService) (w0 : World) (ops : list Operation) (message : EmailMessage.t) :
  allCircuitBreakersOpen svc0 = true ->
  forallb withoutReset ops = true ->
  let '(svc, w) := performAll ops (svc0, w0) in
  allCircuitBreakersOpen svc = true /\
  circuitBreakers svc = circuitBreakers svc0 /\
  providerCalls (trace w) = providerCalls (trace w0) /\
  let '(r, _, w') := sendEmail svc message w in
  providerCalls (trace w') = providerCalls (trace w0) /\
  exists result,
    r = Normal result /\
    (EmailResult.success result = false ->
     EmailResult.provider result = "queue" /\
     EmailResult.error result
     = Some "All providers temporarily unavailable. Email queued for retry.").
Proof.
  intros Hopen Hops.
  pose proof (lockedOut_performAll svc0 (trace w0) ops (svc0, w0) Hops) as Hlocked.
  destruct (performAll ops (svc0, w0)) as [svc w].
  assert (lockedOut svc0 (trace w0) (svc, w)) as H
    by (apply Hlocked; repeat split; exact Hopen).
  pose proof H as (Hopen' & _ & Hc & Hcalls). cbn [fst snd] in *.
  split; [exact Hopen'|]. split; [exact Hc|]. split; [exact Hcalls|].
  pose proof (lockedOut_sendEmail svc0 (trace w0) svc w message H) as Hsend.
  destruct (sendEmail svc message w) as [[r svc'] w'].
  destruct Hsend as ((_ & _ & _ & Hcalls') & Hresult). cbn [fst snd] in *.
  split; [exact Hcalls'|exact Hresult].
Qed.

Lemma service_with_all_breakers_open_stays_locked_witness :
  let ops := [OpSendEmail (createTestMessage "test-2"); OpTimePasses 100000;
              OpResumeQueue; OpResumeQueue] in
  let '(svc, w) := performAll ops (fst failedScenario, snd failedScenario) in
  allCircuitBreakersOpen svc = true /\
  circuitBreakers svc = circuitBreakers (fst failedScenario) /\
  providerCalls (trace w) = providerCalls (trace (snd failedScenario)) /\
  let '(r, _, w') := sendEmail svc (createTestMessage "test-3") w in
  providerCalls (trace w') = providerCalls (trace (snd failedScenario)) /\
  exists result,
    r = Normal result /\
    (EmailResult.success result = false ->
     EmailResult.provider result = "queue" /\
     EmailResult.error result
     = Some "All providers temporarily unavailable. Email queued for retry.").
Proof.
  intros ops.
  apply (service_with_all_breakers_open_stays_locked
           (fst failedScenario) (snd failedScenario) ops (createTestMessage "test-3"));
    vm_compute; reflexivity.
Defined.

(** ** The breaker during a retry sequence *)

Lemma onFailure_closed_all_recent (cb : CircuitBreaker.t) (now : Z) :
  CircuitBreaker.state cb = CircuitBreaker.closed ->
  (forall time, In time (CircuitBreaker.failureHistory cb) ->
     now - time < monitoringWindow (CircuitBreaker.options cb)) ->
  0 < monitoringWindow (CircuitBreaker.options cb) ->
  let cb' := CircuitBreaker.onFailure cb now in
  CircuitBreaker.failureHistory cb' = CircuitBreaker.failureHistory cb ++ [now] /\
  CircuitBreaker.lastFailureTime cb' = now /\
  CircuitBreaker.options cb' = CircuitBreaker.options cb /\
  CircuitBreaker.state cb'
  = if failureThreshold (CircuitBreaker.options cb)
       <=? Z.of_nat (length (CircuitBreaker.failureHistory cb)) + 1
    then CircuitBreaker.open else CircuitBreaker.closed.
Proof.
  intros Hclosed Hrecent Hwindow.
  destruct cb as [failures lastFailureTime state successCount history options].
  cbn [CircuitBreaker.state CircuitBreaker.failureHistory CircuitBreaker.options] in *.
  subst state. unfold CircuitBreaker.onFailure.
  assert (forall time, In time (history ++ [now]) -> now - time < monitoringWindow options)
    as Hall.
  { intros time Hin. apply in_app_or in Hin. destruct Hin as [Hin|[<-|[]]];
      [exact (Hrecent time Hin)|lia]. }
  rewrite cleanupHistory_all_recent
    by (cbn; intros time Hin; specialize (Hall time Hin); lia).
  cbn [CircuitBreaker.state CircuitBreaker.state_eqb CircuitBreaker.failureHistory
       CircuitBreaker.options].
  rewrite (recentFailures_all_recent _ _ _ Hall), length_app. cbn [length].
  replace (Z.of_nat (length history + 1)) with (Z.of_nat (length history) + 1) by lia.
  destruct (_ <=? _); repeat split.
Qed.

Lemma timer_backoff_le (r : RetryOptions) (attempt : nat) :
  0 <= timer (backoffDelay r attempt) <= timer (maxDelay r).
Proof.
  unfold timer, backoffDelay. split; [lia|].
  apply Z.max_le_compat_l, Qceiling_resp_le, Q.le_min_r.
Qed.

(** Tries made while the breaker is open and [resetTimeout] cannot pass. *)
Lemma sendWithRetry_loop_all_rejected (remaining : nat) :
  forall attempt svc message provider cb w,
    CircuitBreaker.state cb = CircuitBreaker.open ->
    clock w - CircuitBreaker.lastFailureTime cb
      + Z.of_nat remaining * timer (maxDelay (retry (options svc)))
      <= resetTimeout (CircuitBreaker.options cb) ->
    Z.of_nat (attempt + remaining) = maxAttempts (retry (options svc)) ->
    circuitBreakers svc !! EmailProvider.name provider = Some cb ->
    let '(r, svc', w') := sendWithRetry_loop remaining attempt svc message provider cb w in
    (exists error, r = Throw error) /\
    circuitBreakers svc' = circuitBreakers svc /\
    exists new,
      trace w' = trace w ++ new /\ providerCalls new = [] /\
      failedAttempts new = remaining.
Proof.
  induction remaining as [|remaining IH];
    intros attempt svc message provider cb w Hopen Htime Hinv Hcb.
  - sendWithRetry_loop_step. split; [eexists; reflexivity|]. split; [reflexivity|].
    exists []. rewrite app_nil_r. repeat split.
  - sendWithRetry_loop_step. unfold CircuitBreaker.execute, CircuitBreaker.gate.
    rewrite Hopen. cbn [CircuitBreaker.state_eqb].
    pose proof (timer_backoff_le (retry (options svc)) (S attempt)) as Hdelay.
    destruct (Z.ltb_spec (resetTimeout (CircuitBreaker.options cb))
                (clock w - CircuitBreaker.lastFailureTime cb)) as [Habs|_]; [nia|].
    cbn [options set_circuitBreakers]. rewrite incrementAttemptCount_options.
    assert (<[EmailProvider.name provider := cb]>
              (circuitBreakers (incrementAttemptCount svc (EmailMessage.id message)))
            = circuitBreakers svc) as Hsame
      by (rewrite incrementAttemptCount_circuitBreakers; apply insert_id, Hcb).
    destruct (Z.of_nat (S attempt) =? maxAttempts (retry (options svc))) eqn:Hlast.
    + apply Z.eqb_eq in Hlast. split; [eexists; reflexivity|].
      split; [exact Hsame|].
      eexists. split; [unfold log, emit; cbn [trace]; reflexivity|].
      split; [reflexivity|]. cbn. lia.
    + apply Z.eqb_neq in Hlast.
      match goal with
      |- context [sendWithRetry_loop remaining (S attempt) ?s message provider cb ?ww] =>
        specialize (IH (S attempt) s message provider cb ww Hopen);
        destruct (sendWithRetry_loop remaining (S attempt) s message provider cb ww)
          as [[r' svc'] w']
      end.
      cbn [options set_circuitBreakers circuitBreakers clock delay log emit] in IH.
      rewrite incrementAttemptCount_options, Hsame in IH.
      destruct IH as ([error ->] & Hc & new & Htrace & Hcalls & Hfailed);
        [nia|lia|exact Hcb|].
      split; [eexists; reflexivity|]. split; [exact Hc|].
      eexists. split; [rewrite Htrace; unfold delay, log, emit; cbn [trace];
                       rewrite <- !app_assoc; reflexivity|].
      rewrite !providerCalls_app, !failedAttempts_app, Hcalls, Hfailed. split; reflexivity.
Qed.

(** Tries made while the breaker is closed, [need] failures short of its
    threshold, against a provider that never resolves. *)
Lemma sendWithRetry_loop_until_open (need : nat) :
  forall remaining attempt svc message provider cb w latencyMax,
    rejects provider message ->
    (forall w0,
       0 <= EmailProvider.latency (EmailProvider.behaviour provider w0 message)
         <= latencyMax) ->
    CircuitBreaker.state cb = CircuitBreaker.closed ->
    Z.of_nat (length (CircuitBreaker.failureHistory cb) + S need)
    = failureThreshold (CircuitBreaker.options cb) ->
    (forall time, In time (CircuitBreaker.failureHistory cb) ->
       clock w - time
       <= Z.of_nat (length (CircuitBreaker.failureHistory cb))
          * (latencyMax + timer (maxDelay (retry (options svc))))) ->
    failureThreshold (CircuitBreaker.options cb)
      * (latencyMax + timer (maxDelay (retry (options svc))))
      < monitoringWindow (CircuitBreaker.options cb) ->
    maxAttempts (retry (options svc)) * timer (maxDelay (retry (options svc)))
      <= resetTimeout (CircuitBreaker.options cb) ->
    (S need <= remaining)%nat ->
    Z.of_nat (attempt + remaining) = maxAttempts (retry (options svc)) ->
    let '(r, svc', w') := sendWithRetry_loop remaining attempt svc message provider cb w in
    (exists error, r = Throw error) /\
    (exists cb',
       circuitBreakers svc' !! EmailProvider.name provider = Some cb' /\
       CircuitBreaker.state cb' = CircuitBreaker.open) /\
    exists new,
      trace w' = trace w ++ new /\ length (providerCalls new) = S need /\
      failedAttempts new = remaining.
Proof.
  induction need as [|need IH];
    intros remaining attempt svc message provider cb w latencyMax
      Hrejects Hlatency Hclosed Hneed Hhistory Hwindow Hreset Hbudget Hinv;
    (destruct remaining as [|remaining]; [lia|]); sendWithRetry_loop_step;
    rewrite execute_not_open by congruence;
    unfold CircuitBreaker.settle, EmailProvider.sendEmail;
    (destruct (EmailProvider.outcome (EmailProvider.behaviour provider w message))
       as [result|error] eqn:Hout; [exfalso; exact (Hrejects w result Hout)|]);
    cbn [clock trace options set_circuitBreakers]; rewrite incrementAttemptCount_options;
    pose proof (Hlatency w) as Hl;
    pose proof (timer_backoff_le (retry (options svc)) (S attempt)) as Hdelay;
    set (now := clock w + EmailProvider.latency (EmailProvider.behaviour provider w message))
      in *;
    set (D := timer (maxDelay (retry (options svc)))) in *;
    (assert (0 < monitoringWindow (CircuitBreaker.options cb)) as Hpositive by nia);
    (assert (forall time, In time (CircuitBreaker.failureHistory cb) ->
               now - time < monitoringWindow (CircuitBreaker.options cb)) as Hrecent
       by (intros time Hin; specialize (Hhistory time Hin); nia));
    destruct (onFailure_closed_all_recent cb now Hclosed Hrecent Hpositive)
      as (Hh & Hlft & Ho & Hstate).
  - (* the failure that opens the breaker *)
    rewrite (proj2 (Z.leb_le _ _)) in Hstate by lia.
    destruct (Z.of_nat (S attempt) =? maxAttempts (retry (options svc))) eqn:Hlast.
    + apply Z.eqb_eq in Hlast. split; [eexists; reflexivity|]. split.
      * eexists. split; [cbn [circuitBreakers set_circuitBreakers]; apply lookup_insert_eq|].
        exact Hstate.
      * eexists. split; [unfold log, emit; cbn [trace]; rewrite <- app_assoc; reflexivity|].
        split; [reflexivity|]. cbn. lia.
    + apply Z.eqb_neq in Hlast.
      match goal with
      |- context [sendWithRetry_loop remaining (S attempt) ?s message provider ?c ?ww] =>
        pose proof (sendWithRetry_loop_all_rejected remaining (S attempt) s message provider
                      c ww Hstate) as Hrest;
        destruct (sendWithRetry_loop remaining (S attempt) s message provider c ww)
          as [[r' svc'] w']
      end.
      cbn [options set_circuitBreakers circuitBreakers clock delay log emit] in Hrest.
      rewrite incrementAttemptCount_options, Hlft, Ho in Hrest. fold D in Hrest.
      destruct Hrest as ([error' ->] & Hc & new & Htrace & Hcalls & Hfailed).
      { nia. }
      { lia. }
      { apply lookup_insert_eq. }
      split; [eexists; reflexivity|]. split.
      * eexists. rewrite Hc. split; [apply lookup_insert_eq|exact Hstate].
      * eexists. split; [rewrite Htrace; unfold delay, log, emit; cbn [trace];
                         rewrite <- !app_assoc; reflexivity|].
        rewrite !providerCalls_app, !length_app, !failedAttempts_app, Hcalls, Hfailed.
        split; reflexivity.
  - (* a failure below the threshold *)
    rewrite (proj2 (Z.leb_gt _ _)) in Hstate by lia.
    destruct (Z.eqb_spec (Z.of_nat (S attempt)) (maxAttempts (retry (options svc))))
      as [Hlast|Hlast]; [lia|].
    match goal with
    |- context [sendWithRetry_loop remaining (S attempt) ?s message provider ?c ?ww] =>
      specialize (IH remaining (S attempt) s message provider c ww latencyMax
                    Hrejects Hlatency Hstate);
      destruct (sendWithRetry_loop remaining (S attempt) s message provider c ww)
        as [[r' svc'] w']
    end.
    cbn [options set_circuitBreakers circuitBreakers clock delay log emit] in IH.
    rewrite incrementAttemptCount_options, Hh, Ho, length_app in IH. cbn [length] in IH.
    fold D in IH.
    destruct IH as ([error' ->] & Hopen & new & Htrace & Hcalls & Hfailed).
    { lia. }
    { intros time Hin. apply in_app_or in Hin. destruct Hin as [Hin|[<-|[]]].
      - specialize (Hhistory time Hin). nia.
      - nia. }
    { exact Hwindow. }
    { exact Hreset. }
    { lia. }
    { lia. }
    split; [eexists; reflexivity|]. split; [exact Hopen|].
    eexists. split; [rewrite Htrace; unfold delay, log, emit; cbn [trace];
                     rewrite <- !app_assoc; reflexivity|].
    rewrite !providerCalls_app, !length_app, !failedAttempts_app, Hcalls, Hfailed.
    split; reflexivity.
Qed.

(** X23.  The breaker shields a provider that keeps failing.  A message is
    dispatched to a service whose only provider never resolves and whose
    breaker is closed with an empty history.  If the threshold is within the
    retry budget, the tries fit in the monitoring window and the back-off
    waits cannot add up to [resetTimeout], then the provider is called
    [failureThreshold] times and no more: the breaker opens at that failure
    and rejects the tries that remain, each of which still counts as an
    attempt.  The message is recorded as ['failed'] after [maxAttempts]
    attempts, and the service is left with every breaker open. *)
Theorem breaker_shields_a_failing_provider
    (svc : EmailService) (message : EmailMessage.t) (w : World)
    (provider : EmailProvider.t) (cb : CircuitBreaker.t) (latencyMax : Z) :
  dispatches svc message w ->
  providers svc = [provider] ->
  circuitBreakers svc !! EmailProvider.name provider = Some cb ->
  CircuitBreaker.state cb = CircuitBreaker.closed ->
  CircuitBreaker.failureHistory cb = [] ->
  rejects provider message ->
  (forall w0,
     0 <= EmailProvider.latency (EmailProvider.behaviour provider w0 message)
       <= latencyMax) ->
  0 < failureThreshold (CircuitBreaker.options cb) <= maxAttempts (retry (options svc)) ->
  failureThreshold (CircuitBreaker.options cb)
    * (latencyMax + timer (maxDelay (retry (options svc))))
    < monitoringWindow (CircuitBreaker.options cb) ->
  maxAttempts (retry (options svc)) * timer (maxDelay (retry (options svc)))
    <= resetTimeout (CircuitBreaker.options cb) ->
  let '(_, svc', w') := sendEmail svc message w in
  exists new status,
    trace w' = trace w ++ new /\
    Z.of_nat (length (providerCalls new)) = failureThreshold (CircuitBreaker.options cb) /\
    getEmailStatus svc' (EmailMessage.id message) = Some status /\
    EmailStatus.status status = EmailStatus.failed /\
    Z.of_nat (EmailStatus.attempts status) = maxAttempts (retry (options svc)) /\
    allCircuitBreakersOpen svc' = true.
Proof.
  intros Hdispatch Hproviders Hcb Hclosed Hempty Hrejects Hlatency Hthreshold Hwindow Hreset.
  destruct (sendEmail_dispatch_run svc message w Hdispatch) as (svc2 & _ & Ho2 & Hc2 & H).
  pose proof (sendEmail_delivery svc message w Hdispatch) as Hdelivery.
  rewrite Hproviders in H. cbn [sendWithRetryAndFallback_loop] in H.
  rewrite Hc2, Hcb in H. unfold sendWithRetry in H.
  pose proof (sendWithRetry_loop_until_open
                (Z.to_nat (failureThreshold (CircuitBreaker.options cb)) - 1)
                (Z.to_nat (maxAttempts (retry (options svc2)))) 0 svc2 message provider cb w
                latencyMax Hrejects Hlatency Hclosed) as Hloop.
  rewrite Hempty, Ho2 in Hloop. rewrite Ho2 in H.
  destruct (sendWithRetry_loop (Z.to_nat (maxAttempts (retry (options svc)))) 0 svc2 message
              provider cb w) as [[r1 svc1] w1].
  destruct Hloop as ([error ->] & (cb' & Hcb' & Hopen) & new1 & Htrace1 & Hcalls1 & Hfailed1).
  { cbn [length]. lia. }
  { intros time []. }
  { exact Hwindow. }
  { exact Hreset. }
  { lia. }
  { lia. }
  cbn [sendWithRetryAndFallback_loop] in H.
  destruct (sendEmail svc message w) as [[r svc'] w'].
  destruct H as (Hp' & _ & Hc' & Hsame). destruct (Hsame _ eq_refl) as [-> ->].
  destruct Hdelivery as (result & new & status & [= <-] & Htrace & Hst & _ & Hattempts
                         & _ & Hcases).
  assert (new
          = new1
            ++ [EvLog Logger.warn "Provider failed, trying next"
                  [("messageId", VString (EmailMessage.id message));
                   ("provider", VString (EmailProvider.name provider));
                   ("error", VString (errorMessageOf error))];
                EvLog Logger.error "All providers failed"
                  [("messageId", VString (EmailMessage.id message));
                   ("error",
                    VString (or_string (Some (errorMessageOf error)) "All providers failed"))]])
    as Hnew.
  { apply (app_inv_head (trace w)). rewrite <- Htrace. unfold log, emit. cbn [trace].
    rewrite Htrace1, <- !app_assoc. reflexivity. }
  assert (successfulAttempts new = 0%nat) as Hnone.
  { destruct Hcases as [(_ & _ & _ & _ & _ & p & w0 & Hin & Hw0)
                       |(_ & _ & _ & _ & [(p & w0 & Hin & Hw0)|(Hzero & _)])].
    - rewrite Hproviders in Hin. destruct Hin as [<-|[]]. exfalso. exact (Hrejects w0 _ Hw0).
    - rewrite Hproviders in Hin. destruct Hin as [<-|[]]. exfalso. exact (Hrejects w0 _ Hw0).
    - exact Hzero. }
  exists new, status. split; [exact Htrace|]. split.
  { rewrite Hnew, providerCalls_app, length_app, Hcalls1. cbn [providerCalls List.filter
      isProviderCall length]. lia. }
  split; [exact Hst|]. split.
  { destruct Hcases as [(Habs & _)|(_ & Hfailed & _)]; [discriminate|exact Hfailed]. }
  split.
  { rewrite Hattempts, Hnone, Hnew, failedAttempts_app, Hfailed1.
    cbn [failedAttempts List.filter isFailedAttempt String.eqb Ascii.eqb Bool.eqb length].
    lia. }
  unfold allCircuitBreakersOpen. rewrite Hp', Hc'. cbn [forallb].
  rewrite Hcb'. unfold CircuitBreaker.getState. rewrite Hopen. reflexivity.
Qed.

Lemma breaker_shields_a_failing_provider_witness :
  let '(_, svc', w') :=
    sendEmail (fst shieldScenario) (createTestMessage "test-1") (snd shieldScenario) in
  exists new status,
    trace w' = trace (snd shieldScenario) ++ new /\
    Z.of_nat (length (providerCalls new)) = 2 /\
    getEmailStatus svc' "test-1" = Some status /\
    EmailStatus.status status = EmailStatus.failed /\
    Z.of_nat (EmailStatus.attempts status) = 4 /\
    allCircuitBreakersOpen svc' = true.
Proof.
  apply (breaker_shields_a_failing_provider
           (fst shieldScenario) (createTestMessage "test-1") (snd shieldScenario)
           (failingProvider "Provider A") (CircuitBreaker.new (circuitBreaker shieldOptions))
           100).
  - vm_compute. repeat split.
  - reflexivity.
  - reflexivity.
  - reflexivity.
  - reflexivity.
  - intros w0 result. discriminate.
  - intros w0. cbn. lia.
  - cbn. lia.
  - vm_compute. reflexivity.
  - vm_compute. congruence.
Defined.

(** ** What a submission costs the rate limiter *)

Lemma processQueue_all_open svc w :
  allCircuitBreakersOpen svc = true ->
  rateLimiter (fst (processQueue svc w)) = rateLimiter svc.
Proof.
  intros Hopen. unfold processQueue.
  destruct (isProcessingQueue svc || _); [reflexivity|].
  unfold processQueue_loop. cbn [emailQueue set_isProcessingQueue].
  destruct (emailQueue svc); [reflexivity|].
  rewrite (allCircuitBreakersOpen_frame svc (set_isProcessingQueue true svc) eq_refl eq_refl),
    Hopen.
  reflexivity.
Qed.

(** X24.  The rate limiter is charged one token per dispatched message, and for
    nothing else.  A message already recorded as sent is answered before the
    limiter is asked, and so is a message queued because every breaker is
    open: both leave the limiter untouched.  A dispatched message takes
    exactly one token, however many tries and providers its delivery takes:
    retries are not rate limited. *)
Theorem one_token_per_dispatched_message
    (svc : EmailService) (message : EmailMessage.t) (w : World) :
  let '(_, svc', _) := sendEmail svc message w in
  (recordedSuccess svc (EmailMessage.id message) <> None ->
   rateLimiter svc' = rateLimiter svc) /\
  (recordedSuccess svc (EmailMessage.id message) = None ->
   allCircuitBreakersOpen svc = true ->
   rateLimiter svc' = rateLimiter svc) /\
  (dispatches svc message w ->
   rateLimiter svc' = snd (RateLimiter.acquire (rateLimiter svc) (clock w)) /\
   RateLimiter.tokens (rateLimiter svc')
   = (RateLimiter.tokens (RateLimiter.refill (rateLimiter svc) (clock w)) - 1)%Q).
Proof.
  unfold sendEmail, dispatches.
  destruct (recordedSuccess svc (EmailMessage.id message)) as [status|].
  { split; [reflexivity|]. split; [discriminate|]. intros (Habs & _). discriminate. }
  destruct (allCircuitBreakersOpen svc) eqn:Hopen.
  { unfold addToQueue.
    match goal with |- context [processQueue ?s ?ww] =>
      pose proof (processQueue_all_open s ww) as Hsame;
      destruct (processQueue s ww) as [svc' w']
    end.
    cbn [fst] in Hsame.
    split; [intros Habs; contradiction|]. split; [|intros (_ & Habs & _); discriminate].
    intros _ _. apply Hsame.
    rewrite <- Hopen. apply allCircuitBreakersOpen_frame; reflexivity. }
  destruct (RateLimiter.acquire (rateLimiter svc) (clock w)) as [granted limiter] eqn:Hacquire.
  destruct granted; cbn [negb fst snd].
  - unfold sendWithRetryAndFallback.
    match goal with |- context [sendWithRetryAndFallback_loop ?ps None ?s message w] =>
      pose proof (sendWithRetryAndFallback_loop_spec ps None s message w) as H;
      destruct (sendWithRetryAndFallback_loop ps None s message w) as [[r svc3] w3]
    end.
    destruct H as ((_ & _ & Hlimiter & _) & _).
    cbn [rateLimiter updateStatus set_emailStatuses set_rateLimiter] in Hlimiter.
    assert (RateLimiter.tokens limiter
            = (RateLimiter.tokens (RateLimiter.refill (rateLimiter svc) (clock w)) - 1)%Q)
      as Htokens.
    { unfold RateLimiter.acquire in Hacquire.
      destruct (Qle_bool 1 _); [|discriminate].
      injection Hacquire as <-. reflexivity. }
    destruct r as [result|error]; [destruct (EmailResult.success result)|];
      cbn [rateLimiter updateStatus set_emailStatuses set_sentEmails];
      rewrite Hlimiter;
      (split; [intros Habs; contradiction|]); (split; [discriminate|]); intros _;
      (split; [reflexivity|exact Htokens]).
  - match goal with |- context [addToQueue ?s message ?ww] =>
      destruct (addToQueue s message ww) as [svc' w']
    end.
    split; [intros Habs; contradiction|]. split; [discriminate|].
    intros (_ & _ & Habs). discriminate.
Qed.
